(** * ABAP MARC/MARD obsolete-field scanner (SAP Note 2267246)

    A shallow embedding of [app/app.py]: the obsolete-field registry, the
    four regular expressions with the backtracking semantics of Python's
    [re] module, [scan_sql], [scan_declarations] and the per-unit part of
    [remediate_array].

    Text is a Python [str] whose code points lie below U+0100: a character
    is an [ascii], read as the code point of its code, a string handed to
    the matcher is a [list ascii], and the strings kept in findings are
    [string]s.  Offsets are indices into that list.  The character classes
    are the ones Python applies to a [str]: the Unicode classes, here on
    the code points 0 to 255.  Text with a code point from U+0100 on is
    outside the model. *)

From Stdlib Require Import List String Ascii Bool Arith Lia.
Import ListNotations.

Open Scope string_scope.
Open Scope list_scope.
Open Scope nat_scope.

(** ** Python [str] operations used by the scanner *)

Module PyStr.

Definition text := list ascii.

Definition code_of (a : ascii) : nat := nat_of_ascii a.

Definition in_range (lo hi : nat) (a : ascii) : bool :=
  (lo <=? code_of a) && (code_of a <=? hi).

(** [str.isspace]: TAB, LF, VT, FF, CR, the separators FS, GS, RS, US, the
    blank, NEL (U+0085) and the no-break space (U+00A0).  The class [\s]
    of a [str] pattern and [str.strip()] both use it. *)
Definition is_space (a : ascii) : bool :=
  in_range 9 13 a || in_range 28 32 a || in_range 133 133 a
  || in_range 160 160 a.

(** The letters a-z, A-Z and the digits 0-9. *)
Definition is_lower (a : ascii) : bool := in_range 97 122 a.
Definition is_upper (a : ascii) : bool := in_range 65 90 a.
Definition is_digit (a : ascii) : bool := in_range 48 57 a.

(** [str.isalnum] beyond U+007F: the ordinal indicators, the micro sign,
    the superscript digits, the fractions and the accented letters. *)
Definition is_alnum_high (a : ascii) : bool :=
  in_range 170 170 a || in_range 178 179 a || in_range 181 181 a
  || in_range 185 186 a || in_range 188 190 a || in_range 192 214 a
  || in_range 216 246 a || in_range 248 255 a.

(** The class [\w] of a [str] pattern: alphanumeric or the underscore. *)
Definition is_word (a : ascii) : bool :=
  is_lower a || is_upper a || is_digit a || is_alnum_high a
  || Ascii.eqb a "_"%char.

(** Upper and lower case of the letters a-z and A-Z, every other
    character kept.  This is the letter case the patterns ignore under
    IGNORECASE on text below U+0100, and [str.upper] on every string made
    of a-z, A-Z, 0-9 and the underscore. *)
Definition upper_char (a : ascii) : ascii :=
  if is_lower a then ascii_of_nat (code_of a - 32) else a.

Definition lower_char (a : ascii) : ascii :=
  if is_upper a then ascii_of_nat (code_of a + 32) else a.

(** [s.upper()] as the scanner uses it.  The scanner calls [upper] on
    what a pattern captured as MARC, MARD or [[A-Z0-9_]+], which on text
    below U+0100 are letters a-z, A-Z, digits and underscores, and on the
    tokens of a selection list, whose upper case it only looks up in the
    registry.  [str.upper] itself also maps the letters beyond U+007F, and
    not always to one code point below U+0100; [str_upper] is that map,
    and both find the same registry names ([upper_agrees_at_registry]). *)
Definition upper (s : text) : text := map upper_char s.

(** [chr(a).upper()] as code points: the micro sign becomes U+039C, the
    sharp s becomes SS, y with diaeresis becomes U+0178, and the other
    small letters lie 32 above their capitals. *)
Definition upper_points (a : ascii) : list nat :=
  if is_lower a || in_range 224 246 a || in_range 248 254 a
  then [code_of a - 32]
  else if in_range 181 181 a then [924]
  else if in_range 223 223 a then [83; 83]
  else if in_range 255 255 a then [376]
  else [code_of a].

(** [s.upper()] as code points. *)
Definition str_upper (s : text) : list nat := flat_map upper_points s.

(** The code points of [s]. *)
Definition points (s : text) : list nat := map code_of s.

(** Letters, digits and symbols below U+0080 only, and nowhere SS. *)
Fixpoint plain_name (s : text) : bool :=
  match s with
  | [] => true
  | x :: r =>
      (code_of x <? 128)
      && match r with
         | y :: _ => negb (Ascii.eqb x "S"%char && Ascii.eqb y "S"%char)
         | [] => true
         end
      && plain_name r
  end.

Fixpoint lstrip (s : text) : text :=
  match s with
  | a :: t => if is_space a then lstrip t else s
  | [] => []
  end.

Definition rstrip (s : text) : text := rev (lstrip (rev s)).

(** [s.strip()] *)
Definition strip (s : text) : text := rstrip (lstrip s).

(** [s.replace(".", "")] *)
Definition remove_dots (s : text) : text :=
  filter (fun a => negb (Ascii.eqb a "."%char)) s.

(** [s[i:j]] for [0 <= i <= j] *)
Definition slice (i j : nat) (s : text) : text := firstn (j - i) (skipn i s).

Definition of_string : string -> text := list_ascii_of_string.
Definition to_string : text -> string := string_of_list_ascii.

(** [x in l] for a list of strings *)
Definition mem (x : string) (l : list string) : bool :=
  existsb (String.eqb x) l.

End PyStr.

Import PyStr.

(** ** The fragment of [re] the four patterns are written in *)

Module Re.

(** Sets of one character: [.], [\s], a literal, a range [lo-hi], and the
    union of two sets inside [[...]]. *)
Inductive cset : Type :=
| CAny
| CSpace
| CChar (a : ascii)
| CRange (lo hi : ascii)
| CUnion (x y : cset).

Inductive regex : Type :=
| Lit (s : string)                          (* a literal word *)
| WordB                                     (* \b *)
| Eos                                       (* $ *)
| Seq (r1 r2 : regex)                       (* r1 r2 *)
| Alt (r1 r2 : regex)                       (* r1|r2 *)
| Rep (greedy : bool) (lo : nat) (cs : cset) (* cs* cs+ cs*? cs+? *)
| Group (name : string) (r : regex)         (* (?P<name>r), (r) *)
| Look (r : regex).                         (* (?=r) *)

Record flags : Type := Flags { ignorecase : bool; dotall : bool }.

(** The position of the matcher in the subject: the characters already
    passed, last one first, and the characters still ahead. *)
Record cursor : Type := Cursor { before : text; ahead : text }.

Definition pos (c : cursor) : nat := List.length (before c).

Definition groups := list (string * (nat * nat)).

Definition result : Type := cursor * groups.

Fixpoint cset_base (fl : flags) (cs : cset) (a : ascii) : bool :=
  match cs with
  | CAny => dotall fl || negb (Ascii.eqb a "010"%char)
  | CSpace => is_space a
  | CChar b => Ascii.eqb a b
  | CRange lo hi => in_range (code_of lo) (code_of hi) a
  | CUnion x y => cset_base fl x a || cset_base fl y a
  end.

(** With IGNORECASE a character is in a set when it, its lower-case form
    or its upper-case form is. *)
Definition cset_mem (fl : flags) (cs : cset) (a : ascii) : bool :=
  if ignorecase fl
  then cset_base fl cs a || cset_base fl cs (lower_char a)
       || cset_base fl cs (upper_char a)
  else cset_base fl cs a.

Definition char_eq (fl : flags) (x a : ascii) : bool :=
  if ignorecase fl then Ascii.eqb (lower_char x) (lower_char a)
  else Ascii.eqb x a.

Fixpoint eat_lit (fl : flags) (s : text) (bef ahd : text) : option cursor :=
  match s with
  | [] => Some (Cursor bef ahd)
  | x :: s' =>
      match ahd with
      | a :: t => if char_eq fl x a then eat_lit fl s' (a :: bef) t else None
      | [] => None
      end
  end.

Definition word_at (l : text) : bool :=
  match l with a :: _ => is_word a | [] => false end.

(** [\b]: exactly one of the two neighbouring characters is a word
    character; the outside of the subject counts as a non-word. *)
Definition at_boundary (c : cursor) : bool :=
  xorb (word_at (before c)) (word_at (ahead c)).

(** [$] without MULTILINE: the end of the subject, or just before a
    newline that ends it. *)
Definition at_end (c : cursor) : bool :=
  match ahead c with
  | [] => true
  | a :: [] => Ascii.eqb a "010"%char
  | _ => false
  end.

Definition or_else {A : Type} (x y : option A) : option A :=
  match x with Some _ => x | None => y end.

Section Repeat.
Variable p : ascii -> bool.
Variable k : cursor -> option result.

(** Greedy repetition: take one more character first, give it back when
    the rest of the pattern fails. *)
Fixpoint rep_greedy (lo : nat) (bef ahd : text) : option result :=
  let stop := match lo with O => k (Cursor bef ahd) | S _ => None end in
  match ahd with
  | a :: t =>
      if p a then or_else (rep_greedy (Nat.pred lo) (a :: bef) t) stop
      else stop
  | [] => stop
  end.

(** Lazy repetition: try the rest of the pattern first, take one more
    character when it fails. *)
Fixpoint rep_lazy (lo : nat) (bef ahd : text) : option result :=
  let stop := match lo with O => k (Cursor bef ahd) | S _ => None end in
  match stop with
  | Some res => Some res
  | None =>
      match ahd with
      | a :: t => if p a then rep_lazy (Nat.pred lo) (a :: bef) t else None
      | [] => None
      end
  end.
End Repeat.

Definition set_group (n : string) (sp : nat * nat) (g : groups) : groups :=
  (n, sp) :: g.

Fixpoint get_group (n : string) (g : groups) : option (nat * nat) :=
  match g with
  | (m, sp) :: g' => if String.eqb n m then Some sp else get_group n g'
  | [] => None
  end.

Definition accept (c : cursor) (g : groups) : option result := Some (c, g).

(** The backtracking matcher, in continuation-passing style: [run fl r k c g]
    matches [r] at [c] and hands the position reached to [k]; alternatives
    are tried in the order [re] tries them, so the first success is the
    match [re] reports. *)
Fixpoint run (fl : flags) (r : regex)
    (k : cursor -> groups -> option result)
    (c : cursor) (g : groups) : option result :=
  match r with
  | Lit s =>
      match eat_lit fl (of_string s) (before c) (ahead c) with
      | Some c' => k c' g
      | None => None
      end
  | WordB => if at_boundary c then k c g else None
  | Eos => if at_end c then k c g else None
  | Seq r1 r2 => run fl r1 (fun c' g' => run fl r2 k c' g') c g
  | Alt r1 r2 => or_else (run fl r1 k c g) (run fl r2 k c g)
  | Rep greedy lo cs =>
      (if greedy then rep_greedy else rep_lazy)
        (cset_mem fl cs) (fun c' => k c' g) lo (before c) (ahead c)
  | Group n r' =>
      run fl r' (fun c' g' => k c' (set_group n (pos c, pos c') g')) c g
  | Look r' =>
      match run fl r' accept c g with
      | Some (_, g') => k c g'
      | None => None
      end
  end.

(** A match object: [m.span()] and the spans of its groups. *)
Record rmatch : Type := RMatch { m_start : nat; m_end : nat; m_groups : groups }.

Definition span (m : rmatch) : nat * nat := (m_start m, m_end m).

(** [m.group(name)], on the subject [s] the match was found in. *)
Definition group (s : text) (m : rmatch) (n : string) : text :=
  match get_group n (m_groups m) with
  | Some (i, j) => slice i j s
  | None => []
  end.

(** [pattern.finditer(s)]: the leftmost match, then the leftmost match
    that starts at or after its end, and so on.  [skip] counts the
    characters of the last match that are still to be passed.  No pattern
    of this program matches the empty string ([patterns_consume] below), so
    the special treatment [re] gives to empty matches is never exercised. *)
Fixpoint finditer_from (fl : flags) (r : regex) (bef ahd : text) (skip : nat)
    {struct ahd} : list rmatch :=
  match skip with
  | S n =>
      match ahd with
      | a :: t => finditer_from fl r (a :: bef) t n
      | [] => []
      end
  | O =>
      match run fl r accept (Cursor bef ahd) [] with
      | Some (c', g) =>
          RMatch (List.length bef) (pos c') g ::
          match ahd with
          | a :: t => finditer_from fl r (a :: bef) t (pos c' - List.length bef - 1)
          | [] => []
          end
      | None =>
          match ahd with
          | a :: t => finditer_from fl r (a :: bef) t 0
          | [] => []
          end
      end
  end.

Definition finditer (fl : flags) (r : regex) (s : text) : list rmatch :=
  finditer_from fl r [] s 0.

(** [re.split(pattern, s)] for a pattern without groups: the pieces of [s]
    between consecutive matches, and the piece after the last one. *)
Fixpoint pieces (s : text) (from : nat) (ms : list rmatch) : list text :=
  match ms with
  | m :: ms' => slice from (m_start m) s :: pieces s (m_end m) ms'
  | [] => [slice from (List.length s) s]
  end.

Definition split (fl : flags) (r : regex) (s : text) : list text :=
  pieces s 0 (finditer fl r s).

End Re.

Import Re.

Declare Scope re_scope.
Delimit Scope re_scope with re.
Notation "r1 ;; r2" := (Seq r1 r2) (at level 61, right associativity) : re_scope.
Notation "r1 <|> r2" := (Alt r1 r2) (at level 60, right associativity) : re_scope.

(** ** The program *)

(** Obsolete fields per SAP Note 2267246 *)
Definition OBSOLETE_FIELDS : list (string * list string) :=
  [ ("MARC", ["MEGRU"; "USEQU"; "ALTSL"; "MDACH"; "DPLFS"; "DPLPU"; "DPLHO"; "FHORI"]);
    ("MARD", ["DISKZ"; "LSOBS"; "LMINB"; "LBSTF"]) ].

(** [OBSOLETE_FIELDS.get(tbl)] *)
Fixpoint dict_get (d : list (string * list string)) (tbl : string)
    : option (list string) :=
  match d with
  | (t, flds) :: d' => if String.eqb tbl t then Some flds else dict_get d' tbl
  | [] => None
  end.

(** [set(fld for flds in OBSOLETE_FIELDS.values() for fld in flds)] *)
Definition OBSOLETE_FIELDNAMES : list string :=
  flat_map snd OBSOLETE_FIELDS.

Definition IC : flags := Flags true false.      (* re.IGNORECASE *)
Definition IC_DOTALL : flags := Flags true true. (* re.IGNORECASE | re.DOTALL *)

Definition watched_table : regex := (Lit "MARC" <|> Lit "MARD")%re.

(** [[A-Z0-9_]] *)
Definition ident_char : cset :=
  CUnion (CRange "A" "Z") (CUnion (CRange "0" "9") (CChar "_")).

(** [\bSELECT\b(?P<select_part>.*?)\bFROM\b\s+(?P<table>MARC|MARD)\b(?P<rest>.*?)(?=\bSELECT\b|$)] *)
Definition SQL_STMT_RE : regex :=
  (WordB ;; Lit "SELECT" ;; WordB ;;
   Group "select_part" (Rep false 0 CAny) ;;
   WordB ;; Lit "FROM" ;; WordB ;; Rep true 1 CSpace ;;
   Group "table" watched_table ;; WordB ;;
   Group "rest" (Rep false 0 CAny) ;;
   Look ((WordB ;; Lit "SELECT" ;; WordB) <|> Eos))%re.

(** [\b(?P<table>MARC|MARD)-(?P<field>[A-Z0-9_]+)\b] *)
Definition QUALIFIED_FIELD_RE : regex :=
  (WordB ;; Group "table" watched_table ;; Lit "-" ;;
   Group "field" (Rep true 1 ident_char) ;; WordB)%re.

Definition decl_keyword : regex := Group "1" (Lit "TYPE" <|> Lit "LIKE")%re.

(** [\b(TYPE|LIKE)\b\s+(?P<table>MARC|MARD)-(?P<field>[A-Z0-9_]+)] *)
Definition DECLARATION_QUAL_RE : regex :=
  (WordB ;; decl_keyword ;; WordB ;; Rep true 1 CSpace ;;
   Group "table" watched_table ;; Lit "-" ;;
   Group "field" (Rep true 1 ident_char))%re.

(** [\b(TYPE|LIKE)\b\s+(?P<fieldname>[A-Z0-9_]+)\b] *)
Definition DECLARATION_DE_RE : regex :=
  (WordB ;; decl_keyword ;; WordB ;; Rep true 1 CSpace ;;
   Group "fieldname" (Rep true 1 ident_char) ;; WordB)%re.

(** [[,\s]+], the separator of [re.split] in [scan_sql] *)
Definition FIELD_SEP_RE : regex := Rep true 1 (CUnion (CChar ",") CSpace).
Definition NOFLAGS : flags := Flags false false.

Record Unit : Type := MkUnit {
  pgm_name : string;
  inc_name : string;
  type : string;
  name : option string;
  start_line : option nat;
  end_line : option nat;
  code : option string
}.

(** The default of [Unit.code], used when the field is absent. *)
Definition default_code : option string := Some "".

Definition todo_comment (table field : string) : string :=
  ("* TODO: " ++ to_string (upper (of_string table)) ++ "-"
   ++ to_string (upper (of_string field))
   ++ " is obsolete in S/4HANA (SAP Note 2267246). "
   ++ "The related functionality is no longer available; remove or replace usage.")%string.

Definition todo_comment_dataelement (field : string) : string :=
  ("* TODO: Data element " ++ to_string (upper (of_string field))
   ++ " relates to obsolete field in S/4HANA (SAP Note 2267246). "
   ++ "Remove or replace usage.")%string.

(** One entry of the result lists of [scan_sql] and [scan_declarations]. *)
Record finding : Type := Finding {
  table : option string;
  field : string;
  fspan : nat * nat;
  suggested_statement : string
}.

(** [tbl in OBSOLETE_FIELDS and fld in OBSOLETE_FIELDS[tbl]] *)
Definition is_obsolete (tbl fld : string) : bool :=
  match dict_get OBSOLETE_FIELDS tbl with
  | Some flds => mem fld flds
  | None => false
  end.

(** The loop over [QUALIFIED_FIELD_RE.finditer(part)], which [scan_sql]
    runs on the selection list and on the rest of the statement. *)
Definition qualified_hit (part : text) (fm : rmatch) : list finding :=
  let tbl := to_string (upper (group part fm "table")) in
  let fld := to_string (upper (group part fm "field")) in
  if is_obsolete tbl fld
  then [Finding (Some tbl) fld (span fm) (todo_comment tbl fld)]
  else [].

Definition qualified_hits (part : text) : list finding :=
  flat_map (qualified_hit part) (finditer IC QUALIFIED_FIELD_RE part).

(** The loop over [fields_raw]. *)
Definition unqualified_hit (tbl : string) (m : rmatch) (fld : text)
    : list finding :=
  let fld_up := to_string (upper (remove_dots fld)) in
  if mem fld_up
       (match dict_get OBSOLETE_FIELDS tbl with Some l => l | None => [] end)
  then [Finding (Some tbl) fld_up (span m) (todo_comment tbl fld_up)]
  else [].

Definition fields_raw (select_part : text) : list text :=
  split NOFLAGS FIELD_SEP_RE (strip select_part).

(** The body of the loop over [SQL_STMT_RE.finditer(code)]. *)
Definition scan_stmt (s : text) (m : rmatch) : list finding :=
  let tbl := to_string (upper (group s m "table")) in
  let select_part := group s m "select_part" in
  let rest_part := group s m "rest" in
  qualified_hits select_part
  ++ flat_map (unqualified_hit tbl m) (fields_raw select_part)
  ++ qualified_hits rest_part.

Definition scan_sql (code : string) : list finding :=
  let s := of_string code in
  flat_map (scan_stmt s) (finditer IC_DOTALL SQL_STMT_RE s).

Definition decl_qual_hit (s : text) (fm : rmatch) : list finding :=
  let tbl := to_string (upper (group s fm "table")) in
  let fld := to_string (upper (group s fm "field")) in
  if is_obsolete tbl fld
  then [Finding (Some tbl) fld (span fm) (todo_comment tbl fld)]
  else [].

Definition decl_de_hit (s : text) (fm : rmatch) : list finding :=
  let fld := to_string (upper (group s fm "fieldname")) in
  if mem fld OBSOLETE_FIELDNAMES
  then [Finding None fld (span fm) (todo_comment_dataelement fld)]
  else [].

Definition scan_declarations (code : string) : list finding :=
  let s := of_string code in
  flat_map (decl_qual_hit s) (finditer IC DECLARATION_QUAL_RE s)
  ++ flat_map (decl_de_hit s) (finditer IC DECLARATION_DE_RE s).

(** One entry of the [selects] list of the response. *)
Record select_meta : Type := SelectMeta {
  sm_table : option string;
  sm_field : string;
  target_type : option string;
  target_name : option string;
  start_char_in_unit : nat;
  end_char_in_unit : nat;
  used_fields : list string;
  ambiguous : bool;
  suggested_fields : option (list string);
  sm_suggested_statement : string
}.

Definition truthy (t : option string) : bool :=
  match t with
  | Some s => negb (String.eqb s "")
  | None => false
  end.

Definition to_meta (hit : finding) : select_meta :=
  SelectMeta (table hit) (field hit) None None
    (fst (fspan hit)) (snd (fspan hit))
    (if truthy (table hit)
     then [(match table hit with Some t => t | None => "None" end
            ++ "-" ++ field hit)%string]
     else [field hit])
    false None (suggested_statement hit).

(** [u.code or ""] *)
Definition src_of (u : Unit) : string :=
  match code u with
  | Some s => s
  | None => ""
  end.

Definition selects_of (src : string) : list select_meta :=
  map to_meta (scan_sql src) ++ map to_meta (scan_declarations src).

(** The response object of one unit: the unit's own fields and [selects]. *)
Record response : Type := Response { unit : Unit; selects : list select_meta }.

Definition remediate_unit (u : Unit) : response :=
  Response u (selects_of (src_of u)).

Definition remediate_array (units : list Unit) : list response :=
  map remediate_unit units.


(** The value lists of the two registry entries. *)
Definition MARC_FIELDS : list string :=
  ["MEGRU"; "USEQU"; "ALTSL"; "MDACH"; "DPLFS"; "DPLPU"; "DPLHO"; "FHORI"].
Definition MARD_FIELDS : list string := ["DISKZ"; "LSOBS"; "LMINB"; "LBSTF"].

(** The two remediation notes, written out for upper-case arguments. *)
Definition note_for (t f : string) : string :=
  ("* TODO: " ++ t ++ "-" ++ f
   ++ " is obsolete in S/4HANA (SAP Note 2267246). "
   ++ "The related functionality is no longer available; remove or replace usage.")%string.

Definition note_for_dataelement (f : string) : string :=
  ("* TODO: Data element " ++ f
   ++ " relates to obsolete field in S/4HANA (SAP Note 2267246). "
   ++ "Remove or replace usage.")%string.

(** The registry invariant a finding is checked against. *)
Definition registered (f : finding) : Prop :=
  In (field f) OBSOLETE_FIELDNAMES /\
  to_string (upper (of_string (field f))) = field f /\
  match table f with
  | Some t =>
      (t = "MARC" \/ t = "MARD") /\
      (exists flds, dict_get OBSOLETE_FIELDS t = Some flds /\ In (field f) flds) /\
      suggested_statement f = note_for t (field f)
  | None => suggested_statement f = note_for_dataelement (field f)
  end.

(** ** What a match is

    [matches fl r c g c' g']: the pattern [r] matches the characters between
    the positions [c] and [c'] of one subject, turning the group table [g]
    into [g'].  The matcher [run] only ever reports such matches; which of
    them it reports is fixed by its search order. *)
Inductive matches (fl : flags)
    : regex -> cursor -> groups -> cursor -> groups -> Prop :=
| MLit s c g c' :
    eat_lit fl (of_string s) (before c) (ahead c) = Some c' ->
    matches fl (Lit s) c g c' g
| MWordB c g : at_boundary c = true -> matches fl WordB c g c g
| MEos c g : at_end c = true -> matches fl Eos c g c g
| MSeq r1 r2 c g c1 g1 c2 g2 :
    matches fl r1 c g c1 g1 -> matches fl r2 c1 g1 c2 g2 ->
    matches fl (Seq r1 r2) c g c2 g2
| MAltL r1 r2 c g c' g' :
    matches fl r1 c g c' g' -> matches fl (Alt r1 r2) c g c' g'
| MAltR r1 r2 c g c' g' :
    matches fl r2 c g c' g' -> matches fl (Alt r1 r2) c g c' g'
| MRep greedy lo cs c g w t :
    ahead c = w ++ t -> forallb (cset_mem fl cs) w = true ->
    lo <= List.length w ->
    matches fl (Rep greedy lo cs) c g (Cursor (rev w ++ before c) t) g
| MGroup n r c g c' g' :
    matches fl r c g c' g' ->
    matches fl (Group n r) c g c' (set_group n (pos c, pos c') g')
| MLook r c g c' g' :
    matches fl r c g c' g' -> matches fl (Look r) c g c g'.

(** [c'] lies [w] further on in the subject of [c]. *)
Definition reaches (c : cursor) (w : text) (c' : cursor) : Prop :=
  ahead c = w ++ ahead c' /\ before c' = rev w ++ before c.

(** The subject a cursor points into. *)
Definition subject (c : cursor) : text := rev (before c) ++ ahead c.

(** ** Reading the subject without the matcher

    The predicates below describe pieces of text directly, character by
    character; the theorems relate what the matcher finds to them. *)

(** The upper-case word [w] stands at the head of [s], in any letter case;
    the result is what follows it. *)
Fixpoint prefix_ci (w s : text) : option text :=
  match w with
  | [] => Some s
  | x :: w' =>
      match s with
      | a :: t => if Ascii.eqb (upper_char a) x then prefix_ci w' t else None
      | [] => None
      end
  end.

(** One of the [words] stands at the head of [s] and ends there. *)
Definition names_one_of (words : list string) (s : text) : bool :=
  existsb (fun t => match prefix_ci (of_string t) s with
                    | Some v => negb (word_at v)
                    | None => false
                    end) words.

Definition WATCHED_TABLES : list string := map fst OBSOLETE_FIELDS.

(** At this position a word FROM starts, white space follows it, and after
    the white space stands exactly the name of a watched table. *)
Definition watched_source_at (bef ahd : text) : bool :=
  negb (word_at bef) &&
  match prefix_ci (of_string "FROM") ahd with
  | Some t =>
      match t with
      | a :: _ => is_space a && names_one_of WATCHED_TABLES (lstrip t)
      | [] => false
      end
  | None => false
  end.

Fixpoint no_watched_source_from (bef ahd : text) : bool :=
  negb (watched_source_at bef ahd) &&
  match ahd with
  | a :: t => no_watched_source_from (a :: bef) t
  | [] => true
  end.

(** Nowhere in [code] is a FROM followed by a watched table: whatever
    query statements [code] holds, none has MARC or MARD as the table named
    after FROM. *)
Definition no_watched_source (code : string) : bool :=
  no_watched_source_from [] (of_string code).

(** [needle] occurs in [s]. *)
Fixpoint occurs (needle s : text) : bool :=
  match prefix_ci (upper needle) s with
  | Some _ => true
  | None => match s with _ :: t => occurs needle t | [] => false end
  end.

(** The characters an identifier of the declaration patterns is made of:
    [[A-Z0-9_]] under IGNORECASE. *)
Definition is_ident (a : ascii) : bool := cset_mem IC ident_char a.

(** Half-open intervals of offsets. *)
Definition disjoint (sp sp' : nat * nat) : Prop :=
  snd sp <= fst sp' \/ snd sp' <= fst sp.

(** The character at offset [p], NUL outside the text. *)
Definition char_at (s : text) (p : nat) : ascii := nth p s "000"%char.

Definition all_between (P : ascii -> bool) (s : text) (lo hi : nat) : Prop :=
  forall p, lo <= p < hi -> P (char_at s p) = true.

(** At offset [p] a word starts with T or L, in either case, and its fifth
    character is white space: what both declaration patterns need to start
    a match at [p]. *)
Definition keyword_start (s : text) (p : nat) : Prop :=
  (p = 0 \/ is_word (char_at s (p - 1)) = false) /\
  (upper_char (char_at s p) = "T"%char \/
   upper_char (char_at s p) = "L"%char) /\
  is_space (char_at s (p + 4)) = true.

(** ** Letter case *)

(** The cursor at the same offset of the upper-cased subject. *)
Definition upper_cursor (c : cursor) : cursor :=
  Cursor (upper (before c)) (upper (ahead c)).

Definition upper_result (res : result) : result :=
  (upper_cursor (fst res), snd res).

(** Under [fl] the pattern cannot tell a letter from its upper-case form:
    its literals are compared without regard to case and its character
    sets hold a letter together with its upper-case form. *)
Fixpoint case_blind (fl : flags) (r : regex) : Prop :=
  match r with
  | Lit _ => ignorecase fl = true
  | WordB | Eos => True
  | Seq r1 r2 | Alt r1 r2 => case_blind fl r1 /\ case_blind fl r2
  | Rep _ _ cs => forall a, cset_mem fl cs (upper_char a) = cset_mem fl cs a
  | Group _ r' | Look r' => case_blind fl r'
  end.

(** [code] with its letters a-z in upper case. *)
Definition upper_string (code : string) : string :=
  to_string (upper (of_string code)).

(** ** Declarations as text *)

(** The cursor at offset [i] of [s]. *)
Definition cursor_at (s : text) (i : nat) : cursor :=
  Cursor (rev (firstn i s)) (skipn i s).

(** [pre] ends with a word TYPE or LIKE and white space after it: what
    comes next is the operand of that keyword. *)
Definition follows_keyword (pre : text) : bool :=
  match rev pre with
  | a :: _ =>
      is_space a && names_one_of ["EPYT"; "EKIL"] (lstrip (rev pre))
  | [] => false
  end.

(** [pre] ends with a hyphen. *)
Definition ends_with_hyphen (pre : text) : bool :=
  match rev pre with
  | a :: _ => Ascii.eqb a "-"%char
  | [] => false
  end.

(** ** Query statements as text *)

(** At this position the word SELECT stands, in any letter case. *)
Definition select_keyword_at (bef ahd : text) : bool :=
  negb (word_at bef) &&
  match prefix_ci (of_string "SELECT") ahd with
  | Some t => negb (word_at t)
  | None => false
  end.

(** Where a statement match may end: before the next SELECT, or at the end
    of the text (before a newline that ends it). *)
Definition statement_end_at (bef ahd : text) : bool :=
  select_keyword_at bef ahd || at_end (Cursor bef ahd).

(** [q] holds at none of the next [n] positions. *)
Fixpoint none_for (q : text -> text -> bool) (n : nat) (bef ahd : text)
    : bool :=
  match n with
  | O => true
  | S n' =>
      negb (q bef ahd) &&
      match ahd with
      | a :: t => none_for q n' (a :: bef) t
      | [] => true
      end
  end.


(** Every match of the pattern covers at least one character. *)
Fixpoint consumes (r : regex) : bool :=
  match r with
  | Lit s => negb (String.eqb s "")
  | WordB | Eos | Look _ => false
  | Seq r1 r2 => consumes r1 || consumes r2
  | Alt r1 r2 => consumes r1 && consumes r2
  | Rep _ lo _ => 1 <=? lo
  | Group _ r' => consumes r'
  end.

(** ** The rest of the module *)

(** [d[k] = v] on a dict kept in insertion order. *)
Fixpoint dict_set {V : Type} (k : string) (v : V) (d : list (string * V))
    : list (string * V) :=
  match d with
  | [] => [(k, v)]
  | (k', v') :: d' =>
      if String.eqb k k' then (k, v) :: d' else (k', v') :: dict_set k v d'
  end.

(** [d.get(k)] *)
Fixpoint dict_lookup {V : Type} (k : string) (d : list (string * V))
    : option V :=
  match d with
  | [] => None
  | (k', v) :: d' => if String.eqb k k' then Some v else dict_lookup k d'
  end.

(** [{f"{tbl}-{fld}": (tbl, fld) for tbl, flds in OBSOLETE_FIELDS.items()
      for fld in flds}] *)
Definition FIELD_TABLE_MAP : list (string * (string * string)) :=
  fold_left
    (fun acc p => dict_set (fst p ++ "-" ++ snd p)%string p acc)
    (flat_map (fun e => map (pair (fst e)) (snd e)) OBSOLETE_FIELDS)
    [].

(** The separators of [re.split(r"[,\s]+", ...)]. *)
Definition is_sep (a : ascii) : bool := Ascii.eqb a ","%char || is_space a.

(** [x] is empty or starts with a character outside [p]: a run of [p]
    characters that ends at [x] cannot be made longer. *)
Definition stops (p : ascii -> bool) (x : text) : Prop :=
  match x with a :: _ => p a = false | [] => True end.

(** [toks] are the pieces of [s] between its runs of separators: [s] reads
    token, run, token, ..., run, token, where no token holds a separator
    and every run is one or more separators, as many as stand there.  A
    token is empty only at an end of [s] that is a separator. *)
Inductive cut_at_separators : text -> list text -> Prop :=
| CutLast (t : text) :
    forallb (fun a => negb (is_sep a)) t = true ->
    cut_at_separators t [t]
| CutMore (t sp rest : text) (toks : list text) :
    forallb (fun a => negb (is_sep a)) t = true ->
    sp <> [] -> forallb is_sep sp = true -> stops is_sep rest ->
    cut_at_separators rest toks ->
    cut_at_separators (t ++ sp ++ rest) (t :: toks).

(** Counted from offset [off] of [s], the span of [f] covers, in upper
    case, the reference TABLE-FIELD that [f] reports. *)
Definition locates_reference (s : text) (off : nat) (f : finding) : Prop :=
  exists t,
    table f = Some t /\
    upper (slice (off + fst (fspan f)) (off + snd (fspan f)) s)
    = of_string t ++ of_string "-" ++ of_string (field f).

(** An entry of [selects] as the loop bodies of [remediate_array] build
    it, for a unit whose text is [src]. *)
Definition well_formed_entry (src : string) (e : select_meta) : Prop :=
  target_type e = None /\ target_name e = None /\
  suggested_fields e = None /\ ambiguous e = false /\
  start_char_in_unit e < end_char_in_unit e <= String.length src /\
  match sm_table e with
  | Some t =>
      used_fields e = [(t ++ "-" ++ sm_field e)%string] /\
      dict_lookup (t ++ "-" ++ sm_field e)%string FIELD_TABLE_MAP
      = Some (t, sm_field e)
  | None =>
      used_fields e = [sm_field e] /\ In (sm_field e) OBSOLETE_FIELDNAMES
  end.
(** ** Registry facts *)

Lemma mem_In (x : string) (l : list string) : mem x l = true <-> In x l.
Proof.
  unfold mem. rewrite existsb_exists. split.
  - intros [y [Hy He]]. apply String.eqb_eq in He. now subst.
  - intros H. exists x. split; [assumption | apply String.eqb_refl].
Qed.

Lemma dict_get_inv (t : string) (flds : list string) :
  dict_get OBSOLETE_FIELDS t = Some flds ->
  (t = "MARC" /\ flds = MARC_FIELDS) \/ (t = "MARD" /\ flds = MARD_FIELDS).
Proof.
  unfold OBSOLETE_FIELDS. simpl.
  destruct (String.eqb_spec t "MARC") as [-> | _].
  - intros [= <-]. now left.
  - destruct (String.eqb_spec t "MARD") as [-> | _].
    + intros [= <-]. now right.
    + discriminate.
Qed.

Lemma is_obsolete_inv (t f : string) :
  is_obsolete t f = true ->
  exists flds, dict_get OBSOLETE_FIELDS t = Some flds /\ In f flds.
Proof.
  unfold is_obsolete. destruct (dict_get OBSOLETE_FIELDS t) as [flds |] eqn:E.
  - intros H. exists flds. split; [reflexivity | now apply mem_In].
  - discriminate.
Qed.

(** A pair the registry holds is upper case, so the notes are the fixed
    templates filled with the table and the field as they are. *)
Lemma registry_entry (t f : string) (flds : list string) :
  dict_get OBSOLETE_FIELDS t = Some flds -> In f flds ->
  registered (Finding (Some t) f (0, 0) (todo_comment t f)).
Proof.
  intros Hd Hin. unfold registered. cbn [field table suggested_statement].
  destruct (dict_get_inv _ _ Hd) as [[-> ->] | [-> ->]];
    unfold MARC_FIELDS, MARD_FIELDS in Hin; simpl in Hin;
    repeat (destruct Hin as [<- | Hin];
            [ split; [vm_compute; tauto | ];
              split; [reflexivity | ];
              split; [auto | ];
              split; [ | reflexivity];
              eexists; split; [reflexivity | vm_compute; tauto]
            | ]);
    contradiction.
Qed.

Lemma fieldname_entry (f : string) :
  mem f OBSOLETE_FIELDNAMES = true ->
  registered (Finding None f (0, 0) (todo_comment_dataelement f)).
Proof.
  intros H. apply mem_In in H. unfold registered.
  cbn [field table suggested_statement].
  vm_compute in H.
  repeat (destruct H as [<- | H]; [repeat split; vm_compute; tauto | ]).
  destruct H.
Qed.

(** ** Every finding comes from the registry *)

Lemma qualified_hit_registered (part : text) (fm : rmatch) (f : finding) :
  In f (qualified_hit part fm) -> registered f.
Proof.
  unfold qualified_hit.
  destruct (is_obsolete _ _) eqn:E; [ | intros []].
  intros [<- | []].
  destruct (is_obsolete_inv _ _ E) as [flds [Hd Hin]].
  exact (registry_entry _ _ _ Hd Hin).
Qed.

Lemma unqualified_hit_registered (tbl : string) (m : rmatch) (fld : text)
    (f : finding) :
  In f (unqualified_hit tbl m fld) -> registered f.
Proof.
  unfold unqualified_hit.
  destruct (dict_get OBSOLETE_FIELDS tbl) as [flds |] eqn:Hd.
  - destruct (mem _ flds) eqn:E; [ | intros []].
    intros [<- | []]. apply mem_In in E.
    exact (registry_entry _ _ _ Hd E).
  - cbn. intros [].
Qed.

Lemma decl_qual_hit_registered (s : text) (fm : rmatch) (f : finding) :
  In f (decl_qual_hit s fm) -> registered f.
Proof.
  unfold decl_qual_hit.
  destruct (is_obsolete _ _) eqn:E; [ | intros []].
  intros [<- | []].
  destruct (is_obsolete_inv _ _ E) as [flds [Hd Hin]].
  exact (registry_entry _ _ _ Hd Hin).
Qed.

Lemma decl_de_hit_registered (s : text) (fm : rmatch) (f : finding) :
  In f (decl_de_hit s fm) -> registered f.
Proof.
  unfold decl_de_hit.
  destruct (mem _ OBSOLETE_FIELDNAMES) eqn:E; [ | intros []].
  intros [<- | []].
  exact (fieldname_entry _ E).
Qed.

Lemma scan_stmt_registered (s : text) (m : rmatch) (f : finding) :
  In f (scan_stmt s m) -> registered f.
Proof.
  unfold scan_stmt, qualified_hits. rewrite !in_app_iff, !in_flat_map.
  intros [[fm [_ H]] | [[tok [_ H]] | [fm [_ H]]]].
  - exact (qualified_hit_registered _ _ _ H).
  - exact (unqualified_hit_registered _ _ _ _ H).
  - exact (qualified_hit_registered _ _ _ H).
Qed.

(** C10. Every finding of [scan_sql] and of [scan_declarations] names an
    upper-case field of the flattened obsolete-field set; when it carries a
    table, the table is MARC or MARD, the field is in that table's list and
    the note is the table template filled with both; when it carries none,
    the note is the data-element template filled with the field. *)
Theorem scan_findings_registered (code : string) (f : finding) :
  In f (scan_sql code) \/ In f (scan_declarations code) -> registered f.
Proof.
  intros [H | H].
  - unfold scan_sql in H. apply in_flat_map in H. destruct H as [m [_ H]].
    exact (scan_stmt_registered _ _ _ H).
  - unfold scan_declarations in H. rewrite in_app_iff, !in_flat_map in H.
    destruct H as [[fm [_ H]] | [fm [_ H]]].
    + exact (decl_qual_hit_registered _ _ _ H).
    + exact (decl_de_hit_registered _ _ _ H).
Qed.

Lemma scan_findings_registered_witness :
  In (Finding (Some "MARD") "LSOBS" (10, 25) (note_for "MARD" "LSOBS"))
     (scan_declarations "DATA lv_x TYPE MARD-LSOBS.")
  /\ registered (Finding (Some "MARD") "LSOBS" (10, 25) (note_for "MARD" "LSOBS")).
Proof.
  split.
  - vm_compute. left. reflexivity.
  - apply (scan_findings_registered "DATA lv_x TYPE MARD-LSOBS.").
    right. vm_compute. left. reflexivity.
Defined.

(** ** Characters *)

Ltac all_chars a := destruct a as [[] [] [] [] [] [] [] []]; reflexivity.

Lemma upper_lower (a : ascii) : upper_char (lower_char a) = upper_char a.
Proof. all_chars a. Qed.

Lemma upper_upper (a : ascii) : upper_char (upper_char a) = upper_char a.
Proof. all_chars a. Qed.

Lemma is_word_upper (a : ascii) : is_word (upper_char a) = is_word a.
Proof. all_chars a. Qed.

Lemma is_space_upper (a : ascii) : is_space (upper_char a) = is_space a.
Proof. all_chars a. Qed.

Lemma word_not_space (a : ascii) : is_word a = true -> is_space a = false.
Proof.
  destruct a as [[] [] [] [] [] [] [] []]; intros H;
    solve [reflexivity | discriminate H].
Qed.

Lemma char_eq_upper (fl : flags) (x a : ascii) :
  ignorecase fl = true -> char_eq fl x a = true ->
  upper_char a = upper_char x.
Proof.
  unfold char_eq. intros -> H. apply Ascii.eqb_eq in H.
  now rewrite <- (upper_lower a), <- H, upper_lower.
Qed.

(** ** The matcher reports matches only *)

Section Engine.
Variable fl : flags.

Lemma rep_lazy_sound (p : ascii -> bool) (k : cursor -> option result)
    (ahd : text) :
  forall (lo : nat) (bef : text) (res : result),
    rep_lazy p k lo bef ahd = Some res ->
    exists w t, ahd = w ++ t /\ forallb p w = true /\ lo <= List.length w /\
                k (Cursor (rev w ++ bef) t) = Some res.
Proof.
  induction ahd as [| a t IH]; intros lo bef res H; simpl in H.
  - destruct lo; [ | discriminate].
    destruct (k (Cursor bef [])) eqn:E; [ | discriminate].
    exists [], []. repeat split; simpl; auto; congruence.
  - destruct lo as [| lo].
    + destruct (k (Cursor bef (a :: t))) eqn:E.
      * exists [], (a :: t). repeat split; simpl; auto; congruence.
      * destruct (p a) eqn:Ep; [ | discriminate].
        destruct (IH _ _ _ H) as [w [t' [-> [Hw [_ Hk]]]]].
        exists (a :: w), t'. simpl. rewrite Ep, Hw, <- app_assoc.
        repeat split; auto. lia.
    + destruct (p a) eqn:Ep; [ | discriminate].
      destruct (IH _ _ _ H) as [w [t' [-> [Hw [Hlo Hk]]]]].
      exists (a :: w), t'. simpl. rewrite Ep, Hw, <- app_assoc.
      simpl in Hlo. repeat split; auto. lia.
Qed.

Lemma rep_greedy_sound (p : ascii -> bool) (k : cursor -> option result)
    (ahd : text) :
  forall (lo : nat) (bef : text) (res : result),
    rep_greedy p k lo bef ahd = Some res ->
    exists w t, ahd = w ++ t /\ forallb p w = true /\ lo <= List.length w /\
                k (Cursor (rev w ++ bef) t) = Some res.
Proof.
  assert (Hstop : forall lo bef ahd' res,
             match lo with O => k (Cursor bef ahd') | S _ => None end = Some res ->
             exists w t, ahd' = w ++ t /\ forallb p w = true /\
                         lo <= List.length w /\
                         k (Cursor (rev w ++ bef) t) = Some res).
  { intros lo bef ahd' res H. destruct lo; [ | discriminate].
    exists [], ahd'. repeat split; auto. }
  induction ahd as [| a t IH]; intros lo bef res H; simpl in H.
  - now apply Hstop.
  - destruct (p a) eqn:Ep; [ | now apply Hstop].
    destruct (rep_greedy p k (Nat.pred lo) (a :: bef) t) eqn:E.
    + simpl in H. injection H as ->.
      destruct (IH _ _ _ E) as [w [t' [-> [Hw [Hlo Hk]]]]].
      exists (a :: w), t'. simpl. rewrite Ep, Hw, <- app_assoc.
      repeat split; auto. lia.
    + simpl in H. now apply Hstop.
Qed.

(** Soundness of the matcher: a result of [run] passes through a position
    that the pattern [matches]. *)
Lemma run_sound (r : regex) :
  forall k c g res,
    run fl r k c g = Some res ->
    exists c' g', matches fl r c g c' g' /\ k c' g' = Some res.
Proof.
  induction r as [s | | | r1 IH1 r2 IH2 | r1 IH1 r2 IH2 | greedy lo cs
                 | n r IH | r IH]; intros k c g res H; simpl in H.
  - destruct (eat_lit fl (of_string s) (before c) (ahead c)) as [c' |] eqn:E;
      [ | discriminate].
    exists c', g. split; [now constructor | assumption].
  - destruct (at_boundary c) eqn:E; [ | discriminate].
    exists c, g. split; [now constructor | assumption].
  - destruct (at_end c) eqn:E; [ | discriminate].
    exists c, g. split; [now constructor | assumption].
  - destruct (IH1 _ _ _ _ H) as [c1 [g1 [M1 H1]]].
    destruct (IH2 _ _ _ _ H1) as [c2 [g2 [M2 H2]]].
    exists c2, g2. split; [econstructor; eassumption | assumption].
  - destruct (run fl r1 k c g) eqn:E; simpl in H.
    + injection H as ->. destruct (IH1 _ _ _ _ E) as [c' [g' [M Hk]]].
      exists c', g'. split; [now apply MAltL | assumption].
    + destruct (IH2 _ _ _ _ H) as [c' [g' [M Hk]]].
      exists c', g'. split; [now apply MAltR | assumption].
  - assert (exists w t, ahead c = w ++ t /\
                        forallb (cset_mem fl cs) w = true /\
                        lo <= List.length w /\
                        k (Cursor (rev w ++ before c) t) g = Some res)
      as [w [t [Ha [Hw [Hlo Hk]]]]].
    { destruct greedy;
        [apply rep_greedy_sound in H | apply rep_lazy_sound in H]; exact H. }
    exists (Cursor (rev w ++ before c) t), g.
    split; [now constructor | assumption].
  - destruct (IH _ _ _ _ H) as [c' [g' [M Hk]]].
    exists c', (set_group n (pos c, pos c') g').
    split; [now constructor | assumption].
  - destruct (run fl r accept c g) as [[c' g'] |] eqn:E; [ | discriminate].
    destruct (IH _ _ _ _ E) as [c'' [g'' [M Hk]]].
    unfold accept in Hk. injection Hk as -> ->.
    exists c, g'. split; [econstructor; eassumption | assumption].
Qed.

Lemma eat_lit_inv (s : text) :
  forall bef ahd c',
    eat_lit fl s bef ahd = Some c' ->
    exists w, ahd = w ++ ahead c' /\ before c' = rev w ++ bef /\
              Forall2 (fun x a => char_eq fl x a = true) s w.
Proof.
  induction s as [| x s IH]; intros bef ahd c' H; simpl in H.
  - injection H as <-. exists []. simpl. auto.
  - destruct ahd as [| a t]; [discriminate | ].
    destruct (char_eq fl x a) eqn:E; [ | discriminate].
    destruct (IH _ _ _ H) as [w [Ha [Hb HF]]].
    exists (a :: w). simpl. rewrite <- app_assoc. simpl.
    repeat split; [now f_equal | assumption | now constructor].
Qed.

Lemma reaches_refl (c : cursor) : reaches c [] c.
Proof. split; reflexivity. Qed.

Lemma reaches_trans (c c1 c2 : cursor) (w1 w2 : text) :
  reaches c w1 c1 -> reaches c1 w2 c2 -> reaches c (w1 ++ w2) c2.
Proof.
  intros [Ha Hb] [Ha' Hb']. split.
  - now rewrite Ha, Ha', app_assoc.
  - now rewrite Hb', Hb, rev_app_distr, app_assoc.
Qed.

Lemma reaches_pos (c c' : cursor) (w : text) :
  reaches c w c' -> pos c' = pos c + List.length w.
Proof.
  intros [_ Hb]. unfold pos. rewrite Hb, length_app, length_rev. lia.
Qed.

Lemma reaches_subject (c c' : cursor) (w : text) :
  reaches c w c' -> subject c' = subject c.
Proof.
  intros [Ha Hb]. unfold subject.
  now rewrite Ha, Hb, rev_app_distr, rev_involutive, <- app_assoc.
Qed.

(** A match covers a stretch of the subject it started in. *)
Lemma matches_reaches (r : regex) (c c' : cursor) (g g' : groups) :
  matches fl r c g c' g' -> exists w, reaches c w c'.
Proof.
  induction 1 as [s c g c' E | | | r1 r2 c g c1 g1 c2 g2 _ [w1 H1] _ [w2 H2]
                 | | | greedy lo cs c g w t Ha | | ].
  - destruct (eat_lit_inv _ _ _ _ E) as [w [Ha [Hb _]]].
    exists w. now split.
  - exists []. apply reaches_refl.
  - exists []. apply reaches_refl.
  - exists (w1 ++ w2). eapply reaches_trans; eassumption.
  - assumption.
  - assumption.
  - exists w. now split.
  - assumption.
  - exists []. apply reaches_refl.
Qed.

End Engine.

(** Every match object of [finditer] is a result of the matcher at some
    position of the subject. *)
Lemma finditer_from_In (fl : flags) (r : regex) (ahd : text) :
  forall bef skip m,
    In m (finditer_from fl r bef ahd skip) ->
    exists w t c',
      ahd = w ++ t /\ m_start m = List.length bef + List.length w /\
      run fl r accept (Cursor (rev w ++ bef) t) [] = Some (c', m_groups m) /\
      m_end m = pos c'.
Proof.
  induction ahd as [| a t IH]; intros bef skip m H.
  - destruct skip; simpl in H; [ | contradiction].
    destruct (run fl r accept (Cursor bef []) []) as [[c' g] |] eqn:E;
      [ | contradiction].
    destruct H as [<- | []]. exists [], [], c'. simpl.
    repeat split; auto.
  - assert (Hrec : forall n, In m (finditer_from fl r (a :: bef) t n) ->
               exists w t0 c',
                 a :: t = w ++ t0 /\
                 m_start m = List.length bef + List.length w /\
                 run fl r accept (Cursor (rev w ++ bef) t0) [] =
                   Some (c', m_groups m) /\
                 m_end m = pos c').
    { intros n Hn. destruct (IH _ _ _ Hn) as [w [t0 [c' [-> [Hs [Hr He]]]]]].
      exists (a :: w), t0, c'. simpl. rewrite <- app_assoc. simpl.
      repeat split; auto. simpl in Hs. lia. }
    destruct skip; simpl in H; [ | now apply Hrec in H].
    destruct (run fl r accept (Cursor bef (a :: t)) []) as [[c' g] |] eqn:E;
      [ | now apply Hrec in H].
    destruct H as [<- | H]; [ | now apply Hrec in H].
    exists [], (a :: t), c'. simpl. repeat split; auto.
Qed.

Lemma finditer_In (fl : flags) (r : regex) (s : text) (m : rmatch) :
  In m (finditer fl r s) ->
  exists c c', subject c = s /\ pos c = m_start m /\ pos c' = m_end m /\
               matches fl r c [] c' (m_groups m).
Proof.
  intros H. apply finditer_from_In in H.
  destruct H as [w [t [c' [-> [Hs [Hr He]]]]]].
  apply run_sound in Hr. destruct Hr as [c1 [g1 [M Hk]]].
  unfold accept in Hk. injection Hk as -> ->.
  rewrite app_nil_r in M.
  exists (Cursor (rev w) t), c'. unfold subject, pos. simpl.
  rewrite rev_involutive, length_rev. simpl in Hs.
  repeat split; auto.
Qed.

(** A pattern that matches nowhere has no match objects. *)
Lemma finditer_from_nil (fl : flags) (r : regex) (ahd : text) :
  forall bef skip,
    (forall w t, ahd = w ++ t ->
                 run fl r accept (Cursor (rev w ++ bef) t) [] = None) ->
    finditer_from fl r bef ahd skip = [].
Proof.
  intros bef skip H.
  destruct (finditer_from fl r bef ahd skip) as [| m l] eqn:E; [reflexivity | ].
  assert (Hin : In m (finditer_from fl r bef ahd skip))
    by (rewrite E; now left).
  apply finditer_from_In in Hin.
  destruct Hin as [w [t [c' [Ha [_ [Hr _]]]]]].
  rewrite (H _ _ Ha) in Hr. discriminate.
Qed.

(** ** Literal words read without regard to case *)

Section Literals.
Variable fl : flags.
Hypothesis Hic : ignorecase fl = true.

Lemma eat_lit_prefix_ci (s : text) :
  upper s = s ->
  forall bef ahd c',
    eat_lit fl s bef ahd = Some c' -> prefix_ci s ahd = Some (ahead c').
Proof.
  induction s as [| x s IH]; intros Hup bef ahd c' H; simpl in *.
  - now injection H as <-.
  - injection Hup as Hx Hs.
    destruct ahd as [| a t]; [discriminate | ].
    destruct (char_eq fl x a) eqn:E; [ | discriminate].
    rewrite (char_eq_upper _ _ _ Hic E), Hx, Ascii.eqb_refl.
    now apply (IH Hs (a :: bef)).
Qed.

Lemma eat_lit_ahead_word (x : ascii) (s bef ahd : text) (c' : cursor) :
  is_word x = true -> eat_lit fl (x :: s) bef ahd = Some c' ->
  word_at ahd = true.
Proof.
  intros Hx H. simpl in H. destruct ahd as [| a t]; [discriminate | ].
  destruct (char_eq fl x a) eqn:E; [ | discriminate]. simpl.
  now rewrite <- is_word_upper, (char_eq_upper _ _ _ Hic E), is_word_upper.
Qed.

Lemma eat_lit_before_word (s : text) :
  s <> [] -> forallb is_word s = true ->
  forall bef ahd c',
    eat_lit fl s bef ahd = Some c' -> word_at (before c') = true.
Proof.
  induction s as [| x s IH]; intros Hne Hw bef ahd c' H; [congruence | ].
  simpl in Hw. apply andb_true_iff in Hw. destruct Hw as [Hx Hs].
  simpl in H. destruct ahd as [| a t]; [discriminate | ].
  destruct (char_eq fl x a) eqn:E; [ | discriminate].
  destruct s as [| y s].
  - simpl in H. injection H as <-. simpl.
    now rewrite <- is_word_upper, (char_eq_upper _ _ _ Hic E), is_word_upper.
  - apply (IH ltac:(discriminate) Hs _ _ _ H).
Qed.

End Literals.

Lemma lstrip_spaces (ws t : text) :
  forallb is_space ws = true -> word_at t = true -> lstrip (ws ++ t) = t.
Proof.
  intros Hws Ht. induction ws as [| a ws IH]; cbn [app lstrip forallb] in *.
  - destruct t as [| b t]; [reflexivity | ].
    cbn [word_at] in Ht. cbn [lstrip]. now rewrite (word_not_space _ Ht).
  - apply andb_true_iff in Hws. destruct Hws as [Ha Hws].
    rewrite Ha. now apply IH.
Qed.

(** ** No pattern of the program matches the empty string *)

Lemma matches_consumes (fl : flags) (r : regex) (c c' : cursor)
    (g g' : groups) :
  matches fl r c g c' g' ->
  pos c <= pos c' /\ (consumes r = true -> pos c < pos c').
Proof.
  induction 1 as [s c g c' E | | | r1 r2 c g c1 g1 c2 g2 _ [L1 S1] _ [L2 S2]
                 | r1 r2 c g c' g' _ [L S] | r1 r2 c g c' g' _ [L S]
                 | greedy lo cs c g w t Ha Hw Hlo | n r c g c' g' _ [L S]
                 | ]; cbn [consumes].
  - destruct (eat_lit_inv fl _ _ _ _ E) as [w [Ha [Hb HF]]].
    assert (Hl : List.length w = List.length (of_string s))
      by (clear - HF; induction HF; simpl; congruence).
    unfold pos. rewrite Hb, length_app, length_rev. split; [lia | ].
    destruct s; [discriminate | ]. simpl in Hl. lia.
  - split; [lia | discriminate].
  - split; [lia | discriminate].
  - split; [lia | ]. intros H. apply orb_true_iff in H.
    destruct H as [H | H]; [specialize (S1 H) | specialize (S2 H)]; lia.
  - split; [exact L | ]. intros H. apply andb_true_iff in H. now apply S.
  - split; [exact L | ]. intros H. apply andb_true_iff in H. now apply S.
  - unfold pos. cbn [before]. rewrite length_app, length_rev.
    split; [lia | ]. intros H. apply Nat.leb_le in H. lia.
  - split; assumption.
  - split; [lia | discriminate].
Qed.

Lemma finditer_nonempty (fl : flags) (r : regex) (s : text) (m : rmatch) :
  consumes r = true -> In m (finditer fl r s) -> m_start m < m_end m.
Proof.
  intros Hc Hm. destruct (finditer_In _ _ _ _ Hm) as [c [c' [_ [<- [<- M]]]]].
  now apply (matches_consumes _ _ _ _ _ _ M).
Qed.

Lemma patterns_consume :
  consumes SQL_STMT_RE = true /\ consumes QUALIFIED_FIELD_RE = true /\
  consumes DECLARATION_QUAL_RE = true /\ consumes DECLARATION_DE_RE = true /\
  consumes FIELD_SEP_RE = true.
Proof. repeat split. Qed.

(** ** Slices of the subject *)

Lemma slice_reaches (c c' : cursor) (w : text) :
  reaches c w c' -> slice (pos c) (pos c') (subject c) = w.
Proof.
  intros R. rewrite (reaches_pos _ _ _ R). destruct R as [Ha Hb].
  unfold slice, subject, pos. rewrite Ha.
  replace (List.length (before c) + List.length w - List.length (before c))
    with (List.length w + 0) by lia.
  rewrite <- (length_rev (before c)), skipn_app, skipn_all, Nat.sub_diag.
  simpl. now rewrite firstn_app_2, firstn_O, app_nil_r.
Qed.

Lemma eat_lit_reaches_upper (fl : flags) (s : text) (c c' : cursor) :
  ignorecase fl = true -> upper s = s ->
  eat_lit fl s (before c) (ahead c) = Some c' ->
  exists w, reaches c w c' /\ upper w = s.
Proof.
  intros Hic Hup E. destruct (eat_lit_inv fl s _ _ _ E) as [w [Ha [Hb HF]]].
  exists w. split; [now split | ].
  rewrite <- Hup. clear - Hic HF.
  induction HF as [| x a s w Hxa _ IH]; [reflexivity | ].
  simpl. now rewrite IH, (char_eq_upper _ _ _ Hic Hxa).
Qed.

(** ** Query statements and the table after FROM *)

Ltac inv_matches :=
  repeat match goal with
         | H : matches _ (Seq _ _) _ _ _ _ |- _ => inversion H; subst; clear H
         | H : matches _ (Group _ _) _ _ _ _ |- _ => inversion H; subst; clear H
         | H : matches _ (Look _) _ _ _ _ |- _ => inversion H; subst; clear H
         | H : matches _ WordB _ _ _ _ |- _ => inversion H; subst; clear H
         | H : matches _ Eos _ _ _ _ |- _ => inversion H; subst; clear H
         | H : matches _ (Rep _ _ _) _ _ _ _ |- _ => inversion H; subst; clear H
         | H : matches _ (Lit _) _ _ _ _ |- _ => inversion H; subst; clear H
         end.

Lemma watched_table_matches (fl : flags) (c c' : cursor) (g g' : groups) :
  ignorecase fl = true ->
  matches fl watched_table c g c' g' ->
  at_boundary c' = true ->
  names_one_of WATCHED_TABLES (ahead c) = true /\ word_at (ahead c) = true.
Proof.
  intros Hic M Hb. unfold watched_table in M.
  assert (Hnw : forall s, s <> [] -> forallb is_word s = true ->
                eat_lit fl s (before c) (ahead c) = Some c' ->
                word_at (ahead c') = false).
  { intros s Hne Hw E.
    pose proof (eat_lit_before_word fl Hic s Hne Hw _ _ _ E) as Hbw.
    unfold at_boundary in Hb. rewrite Hbw in Hb.
    destruct (word_at (ahead c')); [discriminate | reflexivity]. }
  inversion M; subst; clear M; inv_matches.
  - match goal with E : eat_lit _ ?s _ _ = Some _ |- _ =>
      pose proof (eat_lit_prefix_ci fl Hic s eq_refl _ _ _ E) as Hp;
      pose proof (Hnw s ltac:(discriminate) eq_refl E) as Hn;
      pose proof (eat_lit_ahead_word fl Hic "M"%char _ _ _ _ eq_refl E) as Ha
    end.
    split; [ | assumption].
    unfold names_one_of, WATCHED_TABLES, OBSOLETE_FIELDS.
    cbn [map fst existsb].
    rewrite Hp, Hn. reflexivity.
  - match goal with E : eat_lit _ ?s _ _ = Some _ |- _ =>
      pose proof (eat_lit_prefix_ci fl Hic s eq_refl _ _ _ E) as Hp;
      pose proof (Hnw s ltac:(discriminate) eq_refl E) as Hn;
      pose proof (eat_lit_ahead_word fl Hic "M"%char _ _ _ _ eq_refl E) as Ha
    end.
    split; [ | assumption].
    unfold names_one_of, WATCHED_TABLES, OBSOLETE_FIELDS.
    cbn [map fst existsb].
    rewrite Hp, Hn. apply orb_true_r.
Qed.

Lemma cset_mem_space (fl : flags) (a : ascii) :
  cset_mem fl CSpace a = is_space a.
Proof. destruct fl as [[] d]; all_chars a. Qed.

Lemma forallb_space (fl : flags) (w : text) :
  forallb (cset_mem fl CSpace) w = forallb is_space w.
Proof.
  induction w as [| a w IH]; [reflexivity | ].
  simpl. now rewrite cset_mem_space, IH.
Qed.

Ltac inv_seq :=
  match goal with
  | H : matches _ (Seq _ _) _ _ _ _ |- _ => inversion H; subst; clear H
  end.

(** Where the matcher gets past [\bFROM\b\s+(MARC|MARD)\b], the text reads
    FROM, white space, a watched table. *)
Lemma from_clause_matches (fl : flags) (tail : regex) (c c' : cursor)
    (g g' : groups) :
  ignorecase fl = true ->
  matches fl (WordB ;; Lit "FROM" ;; WordB ;; Rep true 1 CSpace ;;
              Group "table" watched_table ;; WordB ;; tail)%re c g c' g' ->
  watched_source_at (before c) (ahead c) = true.
Proof.
  intros Hic M. do 6 inv_seq. inv_matches.
  match goal with
  | Hb : at_boundary ?c0 = true,
    E : eat_lit _ _ (before ?c0) (ahead ?c0) = Some ?c1,
    Ha : ahead ?c1 = ?w ++ ?t,
    Hw : forallb _ ?w = true,
    Hl : 1 <= List.length ?w,
    M : matches _ watched_table _ _ ?c2 _,
    Hb2 : at_boundary ?c2 = true |- _ =>
      pose proof (eat_lit_prefix_ci fl Hic (of_string "FROM") eq_refl _ _ _ E) as Hp;
      pose proof (eat_lit_ahead_word fl Hic "F"%char _ _ _ _ eq_refl E) as Hwa;
      destruct (watched_table_matches fl _ _ _ _ Hic M Hb2) as [Hn Hwt];
      rewrite forallb_space in Hw;
      unfold at_boundary in Hb; rewrite Hwa in Hb;
      cbn [ahead before] in Hn, Hwt;
      unfold watched_source_at; rewrite Hp, Ha;
      destruct (word_at (before c0)); [discriminate | ];
      rewrite (lstrip_spaces _ _ Hw Hwt);
      destruct w as [| a w']; [simpl in Hl; lia | ];
      cbn [forallb] in Hw; apply andb_true_iff in Hw; destruct Hw as [Hsp _];
      cbn [app negb andb]; rewrite Hsp; exact Hn
  end.
Qed.

Lemma sql_stmt_source (c c' : cursor) (g g' : groups) :
  matches IC_DOTALL SQL_STMT_RE c g c' g' ->
  exists w c1, reaches c w c1 /\
               watched_source_at (before c1) (ahead c1) = true.
Proof.
  intros M. unfold SQL_STMT_RE in M. do 4 inv_seq.
  match goal with
  | M1 : matches _ WordB c _ ?ca _,
    M2 : matches _ (Lit "SELECT") ?ca _ ?cb _,
    M3 : matches _ WordB ?cb _ ?cc _,
    M4 : matches _ (Group "select_part" _) ?cc _ ?cd _,
    M5 : matches _ (Seq WordB _) ?cd _ _ _ |- _ =>
      destruct (matches_reaches _ _ _ _ _ _ M1) as [w1 R1];
      destruct (matches_reaches _ _ _ _ _ _ M2) as [w2 R2];
      destruct (matches_reaches _ _ _ _ _ _ M3) as [w3 R3];
      destruct (matches_reaches _ _ _ _ _ _ M4) as [w4 R4];
      exists (((w1 ++ w2) ++ w3) ++ w4), cd; split;
      [ repeat (eapply reaches_trans; [ | eassumption]); eassumption
      | exact (from_clause_matches IC_DOTALL _ _ _ _ _ eq_refl M5) ]
  end.
Qed.

Lemma no_watched_source_from_spec (ahd : text) :
  forall bef, no_watched_source_from bef ahd = true ->
  forall w t, ahd = w ++ t -> watched_source_at (rev w ++ bef) t = false.
Proof.
  induction ahd as [| a ahd IH]; intros bef H w t Hs;
    simpl in H; apply andb_true_iff in H; destruct H as [H1 H2];
    apply negb_true_iff in H1.
  - destruct w; [ | discriminate]. simpl in *. now subst.
  - destruct w as [| b w]; simpl in Hs.
    + now subst.
    + injection Hs as <- ->. simpl. rewrite <- app_assoc.
      now apply (IH (a :: bef)).
Qed.

Lemma sql_stmt_no_match (code : string) :
  no_watched_source code = true ->
  finditer IC_DOTALL SQL_STMT_RE (of_string code) = [].
Proof.
  intros H. apply finditer_from_nil. intros w t Hs.
  destruct (run IC_DOTALL SQL_STMT_RE accept (Cursor (rev w ++ []) t) [])
    as [res |] eqn:E; [ | reflexivity].
  exfalso. apply run_sound in E. destruct E as [c' [g' [M _]]].
  apply sql_stmt_source in M. destruct M as [w1 [c1 [[Ha Hb] Hw]]].
  cbn [ahead before] in Ha, Hb. rewrite app_nil_r in Hb.
  assert (Hs' : of_string code = (w ++ w1) ++ ahead c1)
    by (now rewrite <- app_assoc, <- Ha).
  pose proof (no_watched_source_from_spec _ _ H _ _ Hs') as Hn.
  rewrite app_nil_r, rev_app_distr, <- Hb, Hw in Hn. discriminate.
Qed.

(** ** The query matcher *)

(** C2. For [SELECT MARC-MEGRU FROM MARC.] the one finding has table MARC
    and field MEGRU, and its span is (1, 11): the offsets of the reference
    inside the selection list.  In the input the reference stands at
    (7, 17); the characters at (1, 11) are [ELECT MARC].  A reference in
    the rest of a statement is likewise reported with its offsets inside
    the rest. *)
Theorem scan_sql_qualified_span_in_zone :
  (let code := "SELECT MARC-MEGRU FROM MARC." in
   scan_sql code
   = [Finding (Some "MARC") "MEGRU" (1, 11) (note_for "MARC" "MEGRU")] /\
   map start_char_in_unit (selects_of code) = [1] /\
   to_string (slice 7 17 (of_string code)) = "MARC-MEGRU" /\
   to_string (slice 1 11 (of_string code)) = "ELECT MARC" /\
   to_string (slice 1 11 (of_string " MARC-MEGRU ")) = "MARC-MEGRU") /\
  (let code := "SELECT MATNR FROM MARC WHERE MARC-MEGRU = 1." in
   scan_sql code
   = [Finding (Some "MARC") "MEGRU" (7, 17) (note_for "MARC" "MEGRU")] /\
   to_string (slice 29 39 (of_string code)) = "MARC-MEGRU").
Proof. vm_compute. repeat split. Qed.

(** C3, as stated, fails: this text is one query statement on the table
    ZTAB with MARC- in its filter clause; the query matcher is silent, but
    the declaration matcher reads [LIKE MARC-MEGRU] in the filter clause
    and the response of the unit holds a finding. *)
Lemma unwatched_statement_with_finding :
  let code := "SELECT MATNR FROM ZTAB WHERE X LIKE MARC-MEGRU." in
  no_watched_source code = true /\
  occurs (of_string "MARC-") (of_string code) = true /\
  scan_sql code = [] /\
  scan_declarations code
  = [Finding (Some "MARC") "MEGRU" (31, 46) (note_for "MARC" "MEGRU")] /\
  List.length (selects_of code) = 1.
Proof. vm_compute. repeat split. Qed.

(** ** The declaration matcher *)

(** ** Empty input *)

(** C9. The empty text gives both scanners the empty list, and a unit
    whose code is None, or absent and so the default, gets a response with
    an empty [selects]. *)
Theorem empty_input_no_findings :
  scan_sql "" = [] /\ scan_declarations "" = [] /\
  forall p i t n sl el,
    selects (remediate_unit (MkUnit p i t n sl el None)) = [] /\
    selects (remediate_unit (MkUnit p i t n sl el default_code)) = [] /\
    remediate_array [MkUnit p i t n sl el None]
    = [Response (MkUnit p i t n sl el None) []].
Proof.
  split; [reflexivity | split; [reflexivity | ]].
  intros p i t n sl el. repeat split.
Qed.

(** ** The shape of a declaration match *)

Section Shapes.
Variable fl : flags.
Hypothesis Hic : ignorecase fl = true.

Lemma seq_shape (r1 r2 : regex) (c c' : cursor) (g g' : groups) :
  matches fl (Seq r1 r2) c g c' g' ->
  exists c1 g1, matches fl r1 c g c1 g1 /\ matches fl r2 c1 g1 c' g'.
Proof. intros M. inversion M; subst. eauto. Qed.

Lemma group_shape (n : string) (r : regex) (c c' : cursor) (g g' : groups) :
  matches fl (Group n r) c g c' g' ->
  exists g0, matches fl r c g c' g0 /\ g' = set_group n (pos c, pos c') g0.
Proof. intros M. inversion M; subst. eauto. Qed.

Lemma wordb_shape (c c' : cursor) (g g' : groups) :
  matches fl WordB c g c' g' -> c' = c /\ g' = g /\ at_boundary c = true.
Proof. intros M. inversion M; subst. auto. Qed.

Lemma rep_shape (gr : bool) (lo : nat) (cs : cset) (c c' : cursor)
    (g g' : groups) :
  matches fl (Rep gr lo cs) c g c' g' ->
  exists w, reaches c w c' /\ forallb (cset_mem fl cs) w = true /\
            lo <= List.length w /\ g' = g.
Proof.
  intros M. inversion M; subst. exists w. repeat split; auto.
Qed.

Lemma lit_shape (s : string) (c c' : cursor) (g g' : groups) :
  upper (of_string s) = of_string s ->
  matches fl (Lit s) c g c' g' ->
  exists w, reaches c w c' /\ upper w = of_string s /\ g' = g.
Proof.
  intros Hup M. inversion M as [? ? ? ? E | | | | | | | | ]; subst.
  destruct (eat_lit_reaches_upper fl _ _ _ Hic Hup E) as [w [R U]].
  exists w. auto.
Qed.

Lemma alt_lit_shape (s1 s2 : string) (c c' : cursor) (g g' : groups) :
  upper (of_string s1) = of_string s1 ->
  upper (of_string s2) = of_string s2 ->
  matches fl (Alt (Lit s1) (Lit s2)) c g c' g' ->
  exists w, reaches c w c' /\
            (upper w = of_string s1 \/ upper w = of_string s2) /\ g' = g.
Proof.
  intros H1 H2 M.
  inversion M as [ | | | | ? ? ? ? ? ? ML | ? ? ? ? ? ? MR | | | ]; subst.
  - destruct (lit_shape _ _ _ _ _ H1 ML) as [w [R [U ->]]]. exists w. auto.
  - destruct (lit_shape _ _ _ _ _ H2 MR) as [w [R [U ->]]]. exists w. auto.
Qed.

End Shapes.

Lemma ident_is_word (a : ascii) : is_ident a = true -> is_word a = true.
Proof.
  destruct a as [[] [] [] [] [] [] [] []]; intros H;
    solve [reflexivity | discriminate H].
Qed.

(** A match of [DECLARATION_QUAL_RE] reads: keyword, white space, table,
    hyphen, field; the groups hold the spans of table and field. *)
Lemma decl_qual_shape (c c' : cursor) (g g' : groups) :
  matches IC DECLARATION_QUAL_RE c g c' g' ->
  exists c1 c2 c3 c4 kw ws tb fl,
    reaches c kw c1 /\ reaches c1 ws c2 /\ reaches c2 tb c3 /\
    reaches c3 (of_string "-") c4 /\ reaches c4 fl c' /\
    at_boundary c = true /\
    (upper kw = of_string "TYPE" \/ upper kw = of_string "LIKE") /\
    1 <= List.length ws /\ forallb is_space ws = true /\
    (upper tb = of_string "MARC" \/ upper tb = of_string "MARD") /\
    1 <= List.length fl /\ forallb is_ident fl = true /\
    g' = set_group "field" (pos c4, pos c')
           (set_group "table" (pos c2, pos c3)
              (set_group "1" (pos c, pos c1) g)).
Proof.
  intros M. unfold DECLARATION_QUAL_RE, decl_keyword, watched_table in M.
  destruct (seq_shape _ _ _ _ _ _ _ M) as [c0 [g0 [M0 M']]]; clear M.
  destruct (wordb_shape _ _ _ _ _ M0) as [-> [-> Hb]]; clear M0.
  destruct (seq_shape _ _ _ _ _ _ _ M') as [c1 [g1 [M1 M]]]; clear M'.
  destruct (group_shape _ _ _ _ _ _ _ M1) as [g1' [M1' ->]]; clear M1.
  destruct (alt_lit_shape IC eq_refl "TYPE" "LIKE" _ _ _ _ eq_refl eq_refl M1')
    as [kw [Rkw [Ukw ->]]]; clear M1'.
  destruct (seq_shape _ _ _ _ _ _ _ M) as [c1' [g1' [M0 M']]]; clear M.
  destruct (wordb_shape _ _ _ _ _ M0) as [-> [-> _]]; clear M0.
  destruct (seq_shape _ _ _ _ _ _ _ M') as [c2 [g2 [M2 M]]]; clear M'.
  destruct (rep_shape _ _ _ _ _ _ _ _ M2) as [ws [Rws [Fws [Lws ->]]]];
    clear M2.
  rewrite forallb_space in Fws.
  destruct (seq_shape _ _ _ _ _ _ _ M) as [c3 [g3 [M3 M']]]; clear M.
  destruct (group_shape _ _ _ _ _ _ _ M3) as [g3' [M3' ->]]; clear M3.
  destruct (alt_lit_shape IC eq_refl "MARC" "MARD" _ _ _ _ eq_refl eq_refl M3')
    as [tb [Rtb [Utb ->]]]; clear M3'.
  destruct (seq_shape _ _ _ _ _ _ _ M') as [c4 [g4 [M4 M]]]; clear M'.
  destruct (lit_shape IC eq_refl "-" _ _ _ _ eq_refl M4) as [d [Rd [Ud ->]]];
    clear M4.
  destruct (group_shape _ _ _ _ _ _ _ M) as [g5 [M5 ->]]; clear M.
  destruct (rep_shape _ _ _ _ _ _ _ _ M5) as [fl [Rfl [Ffl [Lfl ->]]]];
    clear M5.
  assert (Hd : d = of_string "-").
  { destruct d as [| a [| b d]]; try discriminate Ud.
    injection Ud as Ha. f_equal. revert Ha.
    destruct a as [[] [] [] [] [] [] [] []]; intros Ha;
      solve [reflexivity | discriminate Ha]. }
  subst d.
  exists c1, c2, c3, c4, kw, ws, tb, fl.
  repeat match goal with |- _ /\ _ => split end; auto.
Qed.

(** A match of [DECLARATION_DE_RE] reads: keyword, white space, identifier,
    and the identifier ends at a word boundary. *)
Lemma decl_de_shape (c c' : cursor) (g g' : groups) :
  matches IC DECLARATION_DE_RE c g c' g' ->
  exists c1 c2 kw ws id,
    reaches c kw c1 /\ reaches c1 ws c2 /\ reaches c2 id c' /\
    at_boundary c = true /\ at_boundary c' = true /\
    (upper kw = of_string "TYPE" \/ upper kw = of_string "LIKE") /\
    1 <= List.length ws /\ forallb is_space ws = true /\
    1 <= List.length id /\ forallb is_ident id = true /\
    g' = set_group "fieldname" (pos c2, pos c')
           (set_group "1" (pos c, pos c1) g).
Proof.
  intros M. unfold DECLARATION_DE_RE, decl_keyword in M.
  destruct (seq_shape _ _ _ _ _ _ _ M) as [c0 [g0 [M0 M']]]; clear M.
  destruct (wordb_shape _ _ _ _ _ M0) as [-> [-> Hb]]; clear M0.
  destruct (seq_shape _ _ _ _ _ _ _ M') as [c1 [g1 [M1 M]]]; clear M'.
  destruct (group_shape _ _ _ _ _ _ _ M1) as [g1' [M1' ->]]; clear M1.
  destruct (alt_lit_shape IC eq_refl "TYPE" "LIKE" _ _ _ _ eq_refl eq_refl M1')
    as [kw [Rkw [Ukw ->]]]; clear M1'.
  destruct (seq_shape _ _ _ _ _ _ _ M) as [c1' [g1' [M0 M']]]; clear M.
  destruct (wordb_shape _ _ _ _ _ M0) as [-> [-> _]]; clear M0.
  destruct (seq_shape _ _ _ _ _ _ _ M') as [c2 [g2 [M2 M]]]; clear M'.
  destruct (rep_shape _ _ _ _ _ _ _ _ M2) as [ws [Rws [Fws [Lws ->]]]];
    clear M2.
  rewrite forallb_space in Fws.
  destruct (seq_shape _ _ _ _ _ _ _ M) as [c3 [g3 [M3 M']]]; clear M.
  destruct (group_shape _ _ _ _ _ _ _ M3) as [g3' [M3' ->]]; clear M3.
  destruct (rep_shape _ _ _ _ _ _ _ _ M3') as [id [Rid [Fid [Lid ->]]]];
    clear M3'.
  destruct (wordb_shape _ _ _ _ _ M') as [-> [-> Hb']]; clear M'.
  exists c1, c2, kw, ws, id.
  repeat match goal with |- _ /\ _ => split end; auto.
Qed.

Lemma group_slice (s : text) (m : rmatch) (n : string) (c c' : cursor)
    (w : text) :
  get_group n (m_groups m) = Some (pos c, pos c') ->
  subject c = s -> reaches c w c' -> group s m n = w.
Proof.
  intros Hg <- R. unfold group. rewrite Hg. now apply slice_reaches.
Qed.

(** What stands in the text where the qualified declaration scan reports. *)
Lemma decl_qual_finding (s : text) (f : finding) :
  In f (flat_map (decl_qual_hit s) (finditer IC DECLARATION_QUAL_RE s)) ->
  exists c c1 c2 c3 c4 c' kw ws tb fl,
    subject c = s /\
    reaches c kw c1 /\ reaches c1 ws c2 /\ reaches c2 tb c3 /\
    reaches c3 (of_string "-") c4 /\ reaches c4 fl c' /\
    at_boundary c = true /\
    (upper kw = of_string "TYPE" \/ upper kw = of_string "LIKE") /\
    1 <= List.length ws /\ forallb is_space ws = true /\
    (upper tb = of_string "MARC" \/ upper tb = of_string "MARD") /\
    forallb is_ident fl = true /\
    is_obsolete (to_string (upper tb)) (to_string (upper fl)) = true /\
    f = Finding (Some (to_string (upper tb))) (to_string (upper fl))
          (pos c, pos c')
          (todo_comment (to_string (upper tb)) (to_string (upper fl))).
Proof.
  intros H. apply in_flat_map in H. destruct H as [fm [Hfm Hf]].
  destruct (finditer_In _ _ _ _ Hfm) as [c [c' [Hs [Hp [Hp' M]]]]].
  destruct (decl_qual_shape _ _ _ _ M)
    as [c1 [c2 [c3 [c4 [kw [ws [tb [fl
        [Rkw [Rws [Rtb [Rd [Rfl [Hb [Ukw [Lws [Fws [Utb [Lfl [Ffl Hg
        ]]]]]]]]]]]]]]]]]]]].
  assert (S1 : subject c1 = s) by (now rewrite (reaches_subject _ _ _ Rkw)).
  assert (S2 : subject c2 = s) by (now rewrite (reaches_subject _ _ _ Rws)).
  assert (S3 : subject c3 = s) by (now rewrite (reaches_subject _ _ _ Rtb)).
  assert (S4 : subject c4 = s) by (now rewrite (reaches_subject _ _ _ Rd)).
  assert (Gt : group s fm "table" = tb).
  { apply (group_slice s fm "table" c2 c3); [now rewrite Hg | assumption ..]. }
  assert (Gf : group s fm "field" = fl).
  { apply (group_slice s fm "field" c4 c'); [now rewrite Hg | assumption ..]. }
  unfold decl_qual_hit in Hf. rewrite Gt, Gf in Hf.
  destruct (is_obsolete _ _) eqn:Ho; [ | contradiction].
  destruct Hf as [<- | []].
  exists c, c1, c2, c3, c4, c', kw, ws, tb, fl.
  unfold span. rewrite <- Hp, <- Hp'.
  repeat match goal with |- _ /\ _ => split end; auto.
Qed.

(** What stands in the text where the data-element scan reports. *)
Lemma decl_de_finding (s : text) (f : finding) :
  In f (flat_map (decl_de_hit s) (finditer IC DECLARATION_DE_RE s)) ->
  exists c c1 c2 c' kw ws id,
    subject c = s /\
    reaches c kw c1 /\ reaches c1 ws c2 /\ reaches c2 id c' /\
    at_boundary c = true /\ at_boundary c' = true /\
    (upper kw = of_string "TYPE" \/ upper kw = of_string "LIKE") /\
    1 <= List.length ws /\ forallb is_space ws = true /\
    forallb is_ident id = true /\
    mem (to_string (upper id)) OBSOLETE_FIELDNAMES = true /\
    f = Finding None (to_string (upper id)) (pos c, pos c')
          (todo_comment_dataelement (to_string (upper id))).
Proof.
  intros H. apply in_flat_map in H. destruct H as [fm [Hfm Hf]].
  destruct (finditer_In _ _ _ _ Hfm) as [c [c' [Hs [Hp [Hp' M]]]]].
  destruct (decl_de_shape _ _ _ _ M)
    as [c1 [c2 [kw [ws [id
        [Rkw [Rws [Rid [Hb [Hb' [Ukw [Lws [Fws [Lid [Fid Hg
        ]]]]]]]]]]]]]]].
  assert (S1 : subject c1 = s) by (now rewrite (reaches_subject _ _ _ Rkw)).
  assert (S2 : subject c2 = s) by (now rewrite (reaches_subject _ _ _ Rws)).
  assert (Gi : group s fm "fieldname" = id).
  { apply (group_slice s fm "fieldname" c2 c');
      [now rewrite Hg | assumption ..]. }
  unfold decl_de_hit in Hf. rewrite Gi in Hf.
  destruct (mem _ OBSOLETE_FIELDNAMES) eqn:Ho; [ | contradiction].
  destruct Hf as [<- | []].
  exists c, c1, c2, c', kw, ws, id.
  unfold span. rewrite <- Hp, <- Hp'.
  repeat match goal with |- _ /\ _ => split end; auto.
Qed.

Lemma of_to_string (l : text) : of_string (to_string l) = l.
Proof. apply list_ascii_of_string_of_list_ascii. Qed.

(** Where a finding carries a table, its span covers a declaration
    keyword, the white space after it and the TABLE-FIELD reference. *)
Lemma qual_finding_span (code : string) (f : finding) (t : string) :
  In f (scan_declarations code) -> table f = Some t ->
  exists kw ws ref,
    slice (fst (fspan f)) (snd (fspan f)) (of_string code)
    = kw ++ ws ++ ref /\
    (upper kw = of_string "TYPE" \/ upper kw = of_string "LIKE") /\
    1 <= List.length ws /\ forallb is_space ws = true /\
    upper ref = of_string t ++ of_string "-" ++ of_string (field f) /\
    suggested_statement f = note_for t (field f).
Proof.
  intros Hf Ht.
  unfold scan_declarations in Hf. apply in_app_iff in Hf.
  destruct Hf as [Hf | Hf].
  - destruct (decl_qual_finding _ _ Hf)
      as [c [c1 [c2 [c3 [c4 [c' [kw [ws [tb [fl
          [Hs [Rkw [Rws [Rtb [Rd [Rfl [Hb [Ukw [Lws [Fws [Utb [Ffl
          [Ho ->]]]]]]]]]]]]]]]]]]]]]]].
    cbn [table] in Ht. injection Ht as <-.
    cbn [fspan fst snd field suggested_statement].
    exists kw, ws, (tb ++ of_string "-" ++ fl).
    repeat match goal with |- _ /\ _ => split end; auto.
    + rewrite <- Hs. apply slice_reaches.
      apply (reaches_trans _ _ _ _ _ Rkw).
      apply (reaches_trans _ _ _ _ _ Rws).
      apply (reaches_trans _ _ _ _ _ Rtb).
      apply (reaches_trans _ _ _ _ _ Rd Rfl).
    + unfold upper. rewrite !map_app. fold (upper tb) (upper fl).
      now rewrite !of_to_string.
    + destruct (is_obsolete_inv _ _ Ho) as [flds [Hd Hin]].
      destruct (registry_entry _ _ _ Hd Hin) as [_ [_ [_ [_ Hn]]]].
      exact Hn.
  - destruct (decl_de_finding _ _ Hf)
      as [c [c1 [c2 [c' [kw [ws [id [_ [_ [_ [_ [_ [_ [_ [_ [_ [_ [_ ->
         ]]]]]]]]]]]]]]]]]].
    discriminate Ht.
Qed.

(** C5, as stated, fails: in [DATA lv_x TYPE MARD-LSOBS.] the reference
    MARD-LSOBS stands at (15, 25), and the finding is anchored at (10, 25),
    the span that starts with the keyword TYPE. *)
Lemma qualified_declaration_span_includes_keyword :
  let code := "DATA lv_x TYPE MARD-LSOBS." in
  to_string (slice 15 25 (of_string code)) = "MARD-LSOBS" /\
  to_string (slice 10 25 (of_string code)) = "TYPE MARD-LSOBS" /\
  map fspan (scan_declarations code) = [(10, 25)] /\
  ~ In (15, 25) (map fspan (scan_declarations code)).
Proof.
  vm_compute. repeat split. intros [H | []]. discriminate H.
Qed.

(** ** Characters at offsets of the subject *)

Lemma reaches_char (c c' : cursor) (w : text) (i : nat) :
  reaches c w c' -> i < List.length w ->
  char_at (subject c) (pos c + i) = char_at w i.
Proof.
  intros [Ha _] Hi. unfold char_at, subject, pos. rewrite Ha.
  rewrite app_nth2 by (rewrite length_rev; lia).
  rewrite length_rev.
  replace (List.length (before c) + i - List.length (before c)) with i by lia.
  now apply app_nth1.
Qed.

Lemma forallb_char_at (P : ascii -> bool) (w : text) (i : nat) :
  forallb P w = true -> i < List.length w -> P (char_at w i) = true.
Proof.
  intros H Hi. rewrite forallb_forall in H. apply H. now apply nth_In.
Qed.

Lemma reaches_all (P : ascii -> bool) (c c' : cursor) (w : text) :
  reaches c w c' -> forallb P w = true ->
  all_between P (subject c) (pos c) (pos c').
Proof.
  intros R H p Hp. rewrite (reaches_pos _ _ _ R) in Hp.
  replace p with (pos c + (p - pos c)) by lia.
  rewrite (reaches_char _ _ _ _ R) by lia.
  apply forallb_char_at; [assumption | lia].
Qed.

Lemma upper_length (w u : text) : upper w = u -> List.length w = List.length u.
Proof. intros <-. unfold upper. now rewrite length_map. Qed.

Lemma upper_all_word (w u : text) :
  upper w = u -> forallb is_word u = true -> forallb is_word w = true.
Proof.
  intros <- H. induction w as [| a w IH]; [reflexivity | ].
  simpl in *. apply andb_true_iff in H. destruct H as [Ha Hw].
  rewrite is_word_upper in Ha. now rewrite Ha, IH.
Qed.

Lemma upper_head (w u : text) :
  upper w = u -> upper_char (char_at w 0) = char_at u 0.
Proof. intros <-. destruct w; reflexivity. Qed.

Lemma ident_all_word (w : text) :
  forallb is_ident w = true -> forallb is_word w = true.
Proof.
  induction w as [| a w IH]; [reflexivity | ].
  simpl. intros H. apply andb_true_iff in H. destruct H as [Ha H].
  rewrite (ident_is_word _ Ha). now apply IH.
Qed.

Lemma boundary_before (c : cursor) :
  at_boundary c = true -> word_at (ahead c) = true ->
  pos c = 0 \/ is_word (char_at (subject c) (pos c - 1)) = false.
Proof.
  unfold at_boundary. intros Hb Ha. rewrite Ha in Hb.
  unfold subject, pos, char_at. destruct (before c) as [| x r]; [now left | ].
  right. simpl in Hb. destruct (is_word x) eqn:Hx; [discriminate | ].
  simpl. rewrite app_nth1 by (rewrite length_app, length_rev; simpl; lia).
  rewrite app_nth2 by (rewrite length_rev; lia).
  rewrite length_rev, Nat.sub_0_r, Nat.sub_diag. exact Hx.
Qed.

Lemma word_ahead (c c' : cursor) (w : text) :
  reaches c w c' -> 1 <= List.length w -> forallb is_word w = true ->
  word_at (ahead c) = true.
Proof.
  intros [Ha _] Hl Hw. rewrite Ha. destruct w as [| a w]; [simpl in Hl; lia | ].
  simpl in *. now apply andb_true_iff in Hw.
Qed.

Lemma keyword_word (kw : text) :
  upper kw = of_string "TYPE" \/ upper kw = of_string "LIKE" ->
  List.length kw = 4 /\ forallb is_word kw = true /\
  (upper_char (char_at kw 0) = "T"%char \/
   upper_char (char_at kw 0) = "L"%char).
Proof.
  intros [H | H]; (split; [exact (upper_length _ _ H) | split];
    [exact (upper_all_word _ _ H eq_refl) | rewrite (upper_head _ _ H); auto]).
Qed.

Lemma table_word (tb : text) :
  upper tb = of_string "MARC" \/ upper tb = of_string "MARD" ->
  List.length tb = 4 /\ forallb is_word tb = true /\
  upper_char (char_at tb 0) = "M"%char.
Proof.
  intros [H | H]; (split; [exact (upper_length _ _ H) | split];
    [exact (upper_all_word _ _ H eq_refl) | rewrite (upper_head _ _ H); auto]).
Qed.

Lemma obsolete_field_length (t : string) (fl : text) :
  is_obsolete t (to_string (upper fl)) = true -> List.length fl = 5.
Proof.
  intros H. destruct (is_obsolete_inv _ _ H) as [flds [Hd Hin]].
  rewrite (upper_length fl (of_string (to_string (upper fl))))
    by (now rewrite of_to_string).
  destruct (dict_get_inv _ _ Hd) as [[_ ->] | [_ ->]];
    unfold MARC_FIELDS, MARD_FIELDS in Hin; simpl in Hin;
    repeat (destruct Hin as [<- | Hin]; [reflexivity | ]); contradiction.
Qed.

Lemma obsolete_name_length (id : text) :
  mem (to_string (upper id)) OBSOLETE_FIELDNAMES = true -> List.length id = 5.
Proof.
  intros H. apply mem_In in H.
  rewrite (upper_length id (of_string (to_string (upper id))))
    by (now rewrite of_to_string).
  unfold OBSOLETE_FIELDNAMES, OBSOLETE_FIELDS in H.
  cbn [flat_map snd app In] in H.
  repeat (destruct H as [<- | H]; [reflexivity | ]); contradiction.
Qed.

(** ** The two declaration scans never report overlapping spans *)

Lemma qual_profile (s : text) (f : finding) :
  In f (flat_map (decl_qual_hit s) (finditer IC DECLARATION_QUAL_RE s)) ->
  exists a n,
    fspan f = (a, a + n + 14) /\ 1 <= n /\ keyword_start s a /\
    all_between is_word s a (a + 4) /\
    all_between is_space s (a + 4) (a + 4 + n) /\
    all_between is_word s (a + 4 + n) (a + 8 + n) /\
    upper_char (char_at s (a + 4 + n)) = "M"%char /\
    char_at s (a + 8 + n) = "-"%char /\
    all_between is_word s (a + 9 + n) (a + 14 + n).
Proof.
  intros H.
  destruct (decl_qual_finding _ _ H)
    as [c [c1 [c2 [c3 [c4 [c' [kw [ws [tb [fl
        [Hs [Rkw [Rws [Rtb [Rd [Rfl [Hb [Ukw [Lws [Fws [Utb [Ffl
        [Ho ->]]]]]]]]]]]]]]]]]]]]]]].
  destruct (keyword_word _ Ukw) as [Lkw [Wkw Hkw]].
  destruct (table_word _ Utb) as [Ltb [Wtb Htb]].
  pose proof (obsolete_field_length _ _ Ho) as Lfl.
  pose proof (ident_all_word _ Ffl) as Wfl.
  assert (S1 : subject c1 = s) by (now rewrite (reaches_subject _ _ _ Rkw)).
  assert (S2 : subject c2 = s) by (now rewrite (reaches_subject _ _ _ Rws)).
  assert (S3 : subject c3 = s) by (now rewrite (reaches_subject _ _ _ Rtb)).
  assert (S4 : subject c4 = s) by (now rewrite (reaches_subject _ _ _ Rd)).
  pose proof (reaches_pos _ _ _ Rkw) as P1. rewrite Lkw in P1.
  pose proof (reaches_pos _ _ _ Rws) as P2. rewrite P1 in P2.
  pose proof (reaches_pos _ _ _ Rtb) as P3. rewrite P2, Ltb in P3.
  pose proof (reaches_pos _ _ _ Rd) as P4. rewrite P3 in P4. simpl in P4.
  pose proof (reaches_pos _ _ _ Rfl) as P5. rewrite P4, Lfl in P5.
  pose proof (reaches_all _ _ _ _ Rkw Wkw) as A1. rewrite Hs, P1 in A1.
  pose proof (reaches_all _ _ _ _ Rws Fws) as A2. rewrite S1, P1, P2 in A2.
  pose proof (reaches_all _ _ _ _ Rtb Wtb) as A3. rewrite S2, P2, P3 in A3.
  pose proof (reaches_all _ _ _ _ Rfl Wfl) as A5. rewrite S4, P4, P5 in A5.
  pose proof (reaches_char _ _ _ 0 Rkw ltac:(lia)) as C0.
  rewrite Hs, Nat.add_0_r in C0.
  pose proof (reaches_char _ _ _ 0 Rtb ltac:(lia)) as C2.
  rewrite S2, P2, Nat.add_0_r in C2.
  pose proof (reaches_char _ _ _ 0 Rd ltac:(simpl; lia)) as C3.
  rewrite S3, P3, Nat.add_0_r in C3.
  pose proof (boundary_before _ Hb (word_ahead _ _ _ Rkw ltac:(lia) Wkw))
    as B0. rewrite Hs in B0.
  exists (pos c), (List.length ws). cbn [fspan].
  repeat match goal with |- _ /\ _ => split end.
  - f_equal. lia.
  - exact Lws.
  - split; [exact B0 | split; [now rewrite C0 | apply A2; lia]].
  - exact A1.
  - exact A2.
  - intros p Hp. apply A3. lia.
  - now rewrite C2.
  - replace (pos c + 8 + List.length ws)
      with (pos c + 4 + List.length ws + 4) by lia.
    exact C3.
  - intros p Hp. apply A5. lia.
Qed.

Lemma de_profile (s : text) (f : finding) :
  In f (flat_map (decl_de_hit s) (finditer IC DECLARATION_DE_RE s)) ->
  exists a n,
    fspan f = (a, a + n + 9) /\ 1 <= n /\ keyword_start s a /\
    all_between is_word s a (a + 4) /\
    all_between is_space s (a + 4) (a + 4 + n) /\
    all_between is_word s (a + 4 + n) (a + 9 + n).
Proof.
  intros H.
  destruct (decl_de_finding _ _ H)
    as [c [c1 [c2 [c' [kw [ws [id
        [Hs [Rkw [Rws [Rid [Hb [Hb' [Ukw [Lws [Fws [Fid [Ho ->
        ]]]]]]]]]]]]]]]]]].
  destruct (keyword_word _ Ukw) as [Lkw [Wkw Hkw]].
  pose proof (obsolete_name_length _ Ho) as Lid.
  pose proof (ident_all_word _ Fid) as Wid.
  assert (S1 : subject c1 = s) by (now rewrite (reaches_subject _ _ _ Rkw)).
  assert (S2 : subject c2 = s) by (now rewrite (reaches_subject _ _ _ Rws)).
  pose proof (reaches_pos _ _ _ Rkw) as P1. rewrite Lkw in P1.
  pose proof (reaches_pos _ _ _ Rws) as P2. rewrite P1 in P2.
  pose proof (reaches_pos _ _ _ Rid) as P3. rewrite P2, Lid in P3.
  pose proof (reaches_all _ _ _ _ Rkw Wkw) as A1. rewrite Hs, P1 in A1.
  pose proof (reaches_all _ _ _ _ Rws Fws) as A2. rewrite S1, P1, P2 in A2.
  pose proof (reaches_all _ _ _ _ Rid Wid) as A3. rewrite S2, P2, P3 in A3.
  pose proof (reaches_char _ _ _ 0 Rkw ltac:(lia)) as C0.
  rewrite Hs, Nat.add_0_r in C0.
  pose proof (boundary_before _ Hb (word_ahead _ _ _ Rkw ltac:(lia) Wkw))
    as B0. rewrite Hs in B0.
  exists (pos c), (List.length ws). cbn [fspan].
  repeat match goal with |- _ /\ _ => split end.
  - f_equal. lia.
  - exact Lws.
  - split; [exact B0 | split; [now rewrite C0 | apply A2; lia]].
  - exact A1.
  - exact A2.
  - intros p Hp. apply A3. lia.
Qed.

Lemma keyword_letter (x : ascii) :
  upper_char x = "T"%char \/ upper_char x = "L"%char ->
  is_space x = false /\ upper_char x <> "M"%char /\ x <> "-"%char.
Proof.
  destruct x as [[] [] [] [] [] [] [] []]; intros [H | H];
    solve [discriminate H | repeat split; discriminate].
Qed.

Lemma table_letter (x : ascii) :
  upper_char x = "M"%char -> is_word x = true.
Proof.
  destruct x as [[] [] [] [] [] [] [] []]; intros H;
    solve [discriminate H | reflexivity].
Qed.

Section Overlap.
Variable s : text.

Ltac word_space p Hw Hs :=
  let W := fresh in let S := fresh in
  pose proof (Hw p ltac:(lia)) as W; pose proof (Hs p ltac:(lia)) as S;
  cbv beta in W, S; rewrite (word_not_space _ W) in S; discriminate S.

(** Inside the span of a qualified declaration finding no other keyword
    starts. *)
Lemma keyword_in_qual_span (a n p : nat) :
  1 <= n ->
  all_between is_word s a (a + 4) ->
  all_between is_space s (a + 4) (a + 4 + n) ->
  all_between is_word s (a + 4 + n) (a + 8 + n) ->
  upper_char (char_at s (a + 4 + n)) = "M"%char ->
  char_at s (a + 8 + n) = "-"%char ->
  all_between is_word s (a + 9 + n) (a + 14 + n) ->
  keyword_start s p -> a <= p < a + n + 14 -> p = a.
Proof.
  intros Hn A1 A2 A3 CM CD A5 [Kprev [Kch Ksp]] Hp.
  destruct (keyword_letter _ Kch) as [Knsp [KnM Knd]].
  assert (Hprev : forall lo hi, all_between is_word s lo hi ->
                                lo < p <= hi -> False).
  { intros lo hi A Hlh. destruct Kprev as [-> | Kprev]; [lia | ].
    rewrite (A (p - 1)) in Kprev by lia. discriminate. }
  assert (Hcase : p = a \/ a < p <= a + 4 \/ a + 4 < p < a + 4 + n \/
                  p = a + 4 + n \/ a + 4 + n < p <= a + 8 + n \/
                  p = a + 9 + n \/ a + 9 + n < p <= a + 14 + n) by lia.
  destruct Hcase as [H | [H | [H | [H | [H | [H | H]]]]]].
  - exact H.
  - destruct (Nat.eq_dec p (a + 4)) as [-> | Hne].
    + rewrite (A2 (a + 4)) in Knsp by lia. discriminate.
    + exfalso. apply (Hprev _ _ A1). lia.
  - rewrite (A2 p) in Knsp by lia. discriminate.
  - subst p. contradiction.
  - destruct (Nat.eq_dec p (a + 8 + n)) as [-> | Hne].
    + contradiction.
    + exfalso. apply (Hprev _ _ A3). lia.
  - subst p. exfalso.
    pose proof (A5 (a + 9 + n + 4) ltac:(lia)) as W. cbv beta in W.
    rewrite (word_not_space _ W) in Ksp. discriminate.
  - exfalso. apply (Hprev _ _ A5). lia.
Qed.

(** Inside the span of a data-element declaration finding no other keyword
    starts. *)
Lemma keyword_in_de_span (a n p : nat) :
  1 <= n ->
  all_between is_word s a (a + 4) ->
  all_between is_space s (a + 4) (a + 4 + n) ->
  all_between is_word s (a + 4 + n) (a + 9 + n) ->
  keyword_start s p -> a <= p < a + n + 9 -> p = a.
Proof.
  intros Hn A1 A2 A3 [Kprev [Kch Ksp]] Hp.
  destruct (keyword_letter _ Kch) as [Knsp [KnM Knd]].
  assert (Hprev : forall lo hi, all_between is_word s lo hi ->
                                lo < p <= hi -> False).
  { intros lo hi A Hlh. destruct Kprev as [-> | Kprev]; [lia | ].
    rewrite (A (p - 1)) in Kprev by lia. discriminate. }
  assert (Hcase : p = a \/ a < p <= a + 4 \/ a + 4 < p < a + 4 + n \/
                  p = a + 4 + n \/ a + 4 + n < p <= a + 9 + n) by lia.
  destruct Hcase as [H | [H | [H | [H | H]]]].
  - exact H.
  - destruct (Nat.eq_dec p (a + 4)) as [-> | Hne].
    + rewrite (A2 (a + 4)) in Knsp by lia. discriminate.
    + exfalso. apply (Hprev _ _ A1). lia.
  - rewrite (A2 p) in Knsp by lia. discriminate.
  - subst p. exfalso.
    pose proof (A3 (a + 4 + n + 4) ltac:(lia)) as W. cbv beta in W.
    rewrite (word_not_space _ W) in Ksp. discriminate.
  - exfalso. apply (Hprev _ _ A3). lia.
Qed.

(** The two patterns cannot both lead to a finding from one keyword: the
    identifier after the keyword of a qualified declaration is the table
    name, and the hyphen ends it. *)
Lemma same_keyword_absurd (a n n' : nat) :
  all_between is_space s (a + 4) (a + 4 + n) ->
  upper_char (char_at s (a + 4 + n)) = "M"%char ->
  char_at s (a + 8 + n) = "-"%char ->
  all_between is_space s (a + 4) (a + 4 + n') ->
  all_between is_word s (a + 4 + n') (a + 9 + n') ->
  False.
Proof.
  intros A2 CM CD A2' A3'.
  pose proof (table_letter _ CM) as WM.
  destruct (Nat.lt_trichotomy n n') as [Hlt | [<- | Hgt]].
  - pose proof (A2' (a + 4 + n) ltac:(lia)) as S. cbv beta in S.
    rewrite (word_not_space _ WM) in S. discriminate.
  - pose proof (A3' (a + 8 + n) ltac:(lia)) as W. cbv beta in W.
    rewrite CD in W. discriminate.
  - word_space (a + 4 + n') A3' A2.
Qed.

End Overlap.

Lemma decl_findings_disjoint (s : text) (fq fd : finding) :
  In fq (flat_map (decl_qual_hit s) (finditer IC DECLARATION_QUAL_RE s)) ->
  In fd (flat_map (decl_de_hit s) (finditer IC DECLARATION_DE_RE s)) ->
  disjoint (fspan fq) (fspan fd).
Proof.
  intros Hq Hd.
  destruct (qual_profile _ _ Hq)
    as [a [n [-> [Hn [K [A1 [A2 [A3 [CM [CD A5]]]]]]]]]].
  destruct (de_profile _ _ Hd) as [a' [n' [-> [Hn' [K' [A1' [A2' A3']]]]]]].
  unfold disjoint. cbn [fst snd].
  destruct (Nat.le_gt_cases (a + n + 14) a') as [H | H]; [now left | ].
  destruct (Nat.le_gt_cases (a' + n' + 9) a) as [H' | H']; [now right | ].
  exfalso.
  assert (E : a' = a).
  { destruct (Nat.le_gt_cases a a') as [Hle | Hgt].
    - apply (keyword_in_qual_span s a n a'); auto.
    - symmetry. apply (keyword_in_de_span s a' n' a); auto. lia. }
  subst a'.
  exact (same_keyword_absurd s a n n' A2 CM CD A2' A3').
Qed.





(** ** Letter case does not matter *)

Lemma lower_upper (a : ascii) : lower_char (upper_char a) = lower_char a.
Proof. all_chars a. Qed.

Lemma upper_or_lower (a : ascii) : upper_char a = a \/ lower_char a = a.
Proof. destruct a as [[] [] [] [] [] [] [] []]; auto. Qed.

Lemma newline_upper (a : ascii) :
  Ascii.eqb (upper_char a) "010"%char = Ascii.eqb a "010"%char.
Proof. all_chars a. Qed.

Lemma dot_upper (a : ascii) :
  Ascii.eqb (upper_char a) "."%char = Ascii.eqb a "."%char.
Proof. all_chars a. Qed.

Lemma cset_mem_upper (fl : flags) (cs : cset) (a : ascii) :
  ignorecase fl = true ->
  cset_mem fl cs (upper_char a) = cset_mem fl cs a.
Proof.
  intros Hic. unfold cset_mem. rewrite Hic, lower_upper, upper_upper.
  destruct (upper_or_lower a) as [E | E]; rewrite E.
  - reflexivity.
  - destruct (cset_base fl cs a), (cset_base fl cs (upper_char a));
      reflexivity.
Qed.

Lemma field_sep_upper (a : ascii) :
  cset_mem NOFLAGS (CUnion (CChar ",") CSpace) (upper_char a)
  = cset_mem NOFLAGS (CUnion (CChar ",") CSpace) a.
Proof. all_chars a. Qed.

Lemma word_at_upper (l : text) : word_at (upper l) = word_at l.
Proof. destruct l as [| a l]; [reflexivity | apply is_word_upper]. Qed.

Lemma at_boundary_upper (c : cursor) :
  at_boundary (upper_cursor c) = at_boundary c.
Proof.
  unfold at_boundary, upper_cursor. cbn [before ahead].
  now rewrite !word_at_upper.
Qed.

Lemma at_end_upper (c : cursor) : at_end (upper_cursor c) = at_end c.
Proof.
  unfold at_end, upper_cursor. cbn [ahead].
  destruct (ahead c) as [| a [| b l]]; try reflexivity.
  apply newline_upper.
Qed.

Lemma pos_upper (c : cursor) : pos (upper_cursor c) = pos c.
Proof. unfold pos, upper_cursor, upper. cbn [before]. apply length_map. Qed.

Section CaseBlind.
Variable fl : flags.

Lemma eat_lit_upper (s : text) :
  ignorecase fl = true ->
  forall bef ahd,
    eat_lit fl s (upper bef) (upper ahd)
    = option_map upper_cursor (eat_lit fl s bef ahd).
Proof.
  intros Hic. induction s as [| x s IH]; intros bef ahd; [reflexivity | ].
  destruct ahd as [| a t]; [reflexivity | ].
  cbn [eat_lit upper map]. unfold char_eq. rewrite Hic, lower_upper.
  destruct (Ascii.eqb (lower_char x) (lower_char a)); [ | reflexivity].
  apply (IH (a :: bef) t).
Qed.

Section RepeatUpper.
Variable p : ascii -> bool.
Variables k k' : cursor -> option result.
Hypothesis Hp : forall a, p (upper_char a) = p a.
Hypothesis Hk : forall c, k' (upper_cursor c) = option_map upper_result (k c).

Lemma rep_greedy_upper (ahd : text) :
  forall lo bef,
    rep_greedy p k' lo (upper bef) (upper ahd)
    = option_map upper_result (rep_greedy p k lo bef ahd).
Proof.
  induction ahd as [| a t IH]; intros lo bef; cbn [rep_greedy upper map].
  - destruct lo; [apply (Hk (Cursor bef [])) | reflexivity].
  - rewrite Hp.
    assert (Hstop : match lo with
                    | O => k' (Cursor (map upper_char bef)
                                 (upper_char a :: map upper_char t))
                    | S _ => None
                    end
                    = option_map upper_result
                        match lo with
                        | O => k (Cursor bef (a :: t))
                        | S _ => None
                        end).
    { destruct lo; [apply (Hk (Cursor bef (a :: t))) | reflexivity]. }
    destruct (p a); [ | exact Hstop].
    pose proof (IH (Nat.pred lo) (a :: bef)) as E.
    cbn [upper map] in E. unfold upper in *. rewrite E.
    destruct (rep_greedy p k (Nat.pred lo) (a :: bef) t);
      [reflexivity | exact Hstop].
Qed.

Lemma rep_lazy_upper (ahd : text) :
  forall lo bef,
    rep_lazy p k' lo (upper bef) (upper ahd)
    = option_map upper_result (rep_lazy p k lo bef ahd).
Proof.
  induction ahd as [| a t IH]; intros lo bef; cbn [rep_lazy upper map].
  - destruct lo; [ | reflexivity].
    pose proof (Hk (Cursor bef [])) as E. unfold upper_cursor in E.
    cbn [before ahead upper map] in E. unfold upper. rewrite E.
    now destruct (k (Cursor bef [])).
  - destruct lo.
    + pose proof (Hk (Cursor bef (a :: t))) as E. unfold upper_cursor in E.
      cbn [before ahead upper map] in E. unfold upper in *. rewrite E.
      destruct (k (Cursor bef (a :: t))); [reflexivity | ].
      cbn [option_map]. rewrite Hp. destruct (p a); [ | reflexivity].
      apply (IH 0 (a :: bef)).
    + rewrite Hp. destruct (p a); [ | reflexivity].
      apply (IH (Nat.pred (S lo)) (a :: bef)).
Qed.

End RepeatUpper.

(** Matching the upper-cased subject goes the way matching the subject
    goes. *)
Lemma run_upper (r : regex) :
  case_blind fl r ->
  forall k k' c g,
    (forall c0 g0, k' (upper_cursor c0) g0
                   = option_map upper_result (k c0 g0)) ->
    run fl r k' (upper_cursor c) g = option_map upper_result (run fl r k c g).
Proof.
  induction r as [s | | | r1 IH1 r2 IH2 | r1 IH1 r2 IH2 | greedy lo cs
                 | n r IH | r IH]; intros Hcb k k' c g Hk; cbn [run].
  - cbn [upper_cursor before ahead]. rewrite (eat_lit_upper _ Hcb).
    destruct (eat_lit fl (of_string s) (before c) (ahead c)) as [c' |];
      [apply Hk | reflexivity].
  - rewrite at_boundary_upper. destruct (at_boundary c);
      [apply Hk | reflexivity].
  - rewrite at_end_upper. destruct (at_end c); [apply Hk | reflexivity].
  - destruct Hcb as [H1 H2]. apply (IH1 H1). intros c0 g0.
    now apply (IH2 H2).
  - destruct Hcb as [H1 H2].
    rewrite (IH1 H1 k k' c g Hk), (IH2 H2 k k' c g Hk).
    now destruct (run fl r1 k c g).
  - cbn [upper_cursor before ahead].
    destruct greedy;
      [apply rep_greedy_upper | apply rep_lazy_upper];
      solve [exact Hcb | intros c0; apply Hk].
  - apply (IH Hcb). intros c0 g0. rewrite !pos_upper. apply Hk.
  - rewrite (IH Hcb accept accept c g) by reflexivity.
    destruct (run fl r accept c g) as [[c' g'] |]; [apply Hk | reflexivity].
Qed.

Lemma finditer_from_upper (r : regex) (ahd : text) :
  case_blind fl r ->
  forall bef skip,
    finditer_from fl r (upper bef) (upper ahd) skip
    = finditer_from fl r bef ahd skip.
Proof.
  intros Hcb.
  assert (Hrun : forall bef ahd0,
             run fl r accept (Cursor (upper bef) (upper ahd0)) []
             = option_map upper_result
                 (run fl r accept (Cursor bef ahd0) [])).
  { intros bef ahd0.
    apply (run_upper r Hcb accept accept (Cursor bef ahd0) []).
    reflexivity. }
  induction ahd as [| a t IH]; intros bef skip.
  - destruct skip; [ | reflexivity]. cbn [finditer_from upper map].
    pose proof (Hrun bef []) as E. cbn [upper map] in E. rewrite E.
    destruct (run fl r accept (Cursor bef []) []) as [[c' g] |];
      [ | reflexivity].
    cbn [option_map upper_result fst snd].
    unfold upper. now rewrite pos_upper, length_map.
  - destruct skip as [| n]; cbn [finditer_from upper map].
    + pose proof (Hrun bef (a :: t)) as E. cbn [upper map] in E. rewrite E.
      pose proof (fun n => IH (a :: bef) n) as IH'. cbn [upper map] in IH'.
      destruct (run fl r accept (Cursor bef (a :: t)) []) as [[c' g] |];
        cbn [option_map upper_result fst snd].
      * unfold upper in *. now rewrite pos_upper, length_map, IH'.
      * apply IH'.
    + apply (IH (a :: bef) n).
Qed.

Lemma finditer_upper (r : regex) (s : text) :
  case_blind fl r -> finditer fl r (upper s) = finditer fl r s.
Proof. intros H. exact (finditer_from_upper r s H [] 0). Qed.

End CaseBlind.

Lemma upper_idem (s : text) : upper (upper s) = upper s.
Proof.
  unfold upper. rewrite map_map. apply map_ext. apply upper_upper.
Qed.

Lemma slice_upper (i j : nat) (s : text) :
  slice i j (upper s) = upper (slice i j s).
Proof. unfold slice, upper. now rewrite skipn_map, firstn_map. Qed.

Lemma group_upper (s : text) (m : rmatch) (n : string) :
  upper (group (upper s) m n) = upper (group s m n).
Proof.
  unfold group. destruct (get_group n (m_groups m)) as [[i j] |];
    [ | reflexivity].
  now rewrite slice_upper, upper_idem.
Qed.

Lemma group_upper_raw (s : text) (m : rmatch) (n : string) :
  group (upper s) m n = upper (group s m n).
Proof.
  unfold group. destruct (get_group n (m_groups m)) as [[i j] |];
    [apply slice_upper | reflexivity].
Qed.

Lemma lstrip_upper (s : text) : lstrip (upper s) = upper (lstrip s).
Proof.
  induction s as [| a s IH]; [reflexivity | ].
  cbn [upper map lstrip]. rewrite is_space_upper.
  destruct (is_space a); [exact IH | reflexivity].
Qed.

Lemma strip_upper (s : text) : strip (upper s) = upper (strip s).
Proof.
  unfold strip, rstrip. rewrite lstrip_upper.
  unfold upper at 1. rewrite <- map_rev. fold (upper (rev (lstrip s))).
  rewrite lstrip_upper. unfold upper. now rewrite map_rev.
Qed.

Lemma remove_dots_upper (s : text) :
  upper (remove_dots (upper s)) = upper (remove_dots s).
Proof.
  induction s as [| a s IH]; [reflexivity | ].
  cbn [upper map remove_dots filter]. rewrite dot_upper.
  destruct (Ascii.eqb a "."%char); cbn [negb].
  - exact IH.
  - cbn [map]. rewrite upper_upper. f_equal. exact IH.
Qed.

Lemma pieces_upper (s : text) (ms : list rmatch) :
  forall from, pieces (upper s) from ms = map upper (pieces s from ms).
Proof.
  induction ms as [| m ms IH]; intros from; cbn [pieces map].
  - replace (List.length (upper s)) with (List.length s)
      by (unfold upper; now rewrite length_map).
    now rewrite slice_upper.
  - now rewrite slice_upper, IH.
Qed.

Lemma fields_raw_upper (part : text) :
  fields_raw (upper part) = map upper (fields_raw part).
Proof.
  unfold fields_raw, split. rewrite strip_upper.
  rewrite (finditer_upper NOFLAGS FIELD_SEP_RE (strip part) field_sep_upper).
  apply pieces_upper.
Qed.

Ltac case_blind_ic :=
  cbn [case_blind]; repeat split; try reflexivity;
  intros; apply cset_mem_upper; reflexivity.

Lemma sql_stmt_case_blind : case_blind IC_DOTALL SQL_STMT_RE.
Proof. unfold SQL_STMT_RE, watched_table. case_blind_ic. Qed.

Lemma qualified_field_case_blind : case_blind IC QUALIFIED_FIELD_RE.
Proof. unfold QUALIFIED_FIELD_RE, watched_table. case_blind_ic. Qed.

Lemma declaration_qual_case_blind : case_blind IC DECLARATION_QUAL_RE.
Proof.
  unfold DECLARATION_QUAL_RE, decl_keyword, watched_table. case_blind_ic.
Qed.

Lemma declaration_de_case_blind : case_blind IC DECLARATION_DE_RE.
Proof. unfold DECLARATION_DE_RE, decl_keyword. case_blind_ic. Qed.

Lemma qualified_hits_upper (part : text) :
  qualified_hits (upper part) = qualified_hits part.
Proof.
  unfold qualified_hits.
  rewrite (finditer_upper IC _ part qualified_field_case_blind).
  apply flat_map_ext. intros fm. unfold qualified_hit.
  now rewrite !group_upper.
Qed.

Lemma unqualified_hits_upper (tbl : string) (m : rmatch) (toks : list text) :
  flat_map (unqualified_hit tbl m) (map upper toks)
  = flat_map (unqualified_hit tbl m) toks.
Proof.
  induction toks as [| tok toks IH]; [reflexivity | ].
  cbn [map flat_map]. rewrite IH. f_equal.
  unfold unqualified_hit. now rewrite remove_dots_upper.
Qed.

Lemma scan_sql_upper (code : string) :
  scan_sql (upper_string code) = scan_sql code.
Proof.
  unfold scan_sql, upper_string. rewrite of_to_string.
  rewrite (finditer_upper IC_DOTALL _ (of_string code) sql_stmt_case_blind).
  apply flat_map_ext. intros m. unfold scan_stmt.
  rewrite group_upper, !group_upper_raw, !qualified_hits_upper.
  now rewrite fields_raw_upper, unqualified_hits_upper.
Qed.

Lemma scan_declarations_upper (code : string) :
  scan_declarations (upper_string code) = scan_declarations code.
Proof.
  unfold scan_declarations, upper_string. rewrite of_to_string.
  rewrite (finditer_upper IC _ (of_string code) declaration_qual_case_blind).
  rewrite (finditer_upper IC _ (of_string code) declaration_de_case_blind).
  f_equal; apply flat_map_ext; intros fm.
  - unfold decl_qual_hit. now rewrite !group_upper.
  - unfold decl_de_hit. now rewrite !group_upper.
Qed.

(** C8. Two texts that differ in letter case only get the same findings
    from both scanners: same tables, fields, spans and notes.  So
    [select megru from marc.] yields the finding of
    [SELECT MEGRU FROM MARC.]. *)
Theorem scan_case_insensitive :
  (scan_sql "select megru from marc." = scan_sql "SELECT MEGRU FROM MARC." /\
   scan_sql "SELECT MEGRU FROM MARC."
   = [Finding (Some "MARC") "MEGRU" (0, 23) (note_for "MARC" "MEGRU")]) /\
  forall code1 code2 : string,
    upper_string code1 = upper_string code2 ->
    scan_sql code1 = scan_sql code2 /\
    scan_declarations code1 = scan_declarations code2.
Proof.
  split; [vm_compute; split; reflexivity | ].
  intros code1 code2 H. split.
  - now rewrite <- (scan_sql_upper code1), H, scan_sql_upper.
  - now rewrite <- (scan_declarations_upper code1), H,
      scan_declarations_upper.
Qed.

Lemma scan_case_insensitive_witness :
  upper_string "select megru from marc." = "SELECT MEGRU FROM MARC." /\
  scan_sql "select megru from marc." = scan_sql "SELECT MEGRU FROM MARC." /\
  scan_declarations "select megru from marc."
  = scan_declarations "SELECT MEGRU FROM MARC.".
Proof.
  split; [reflexivity | ].
  apply (proj2 scan_case_insensitive
           "select megru from marc." "SELECT MEGRU FROM MARC.").
  reflexivity.
Defined.

(** ** Where the matcher is sure to succeed *)

Section Complete.
Variable fl : flags.
Hypothesis Hic : ignorecase fl = true.

Lemma upper_eq_lower (a x : ascii) :
  upper_char a = upper_char x -> lower_char x = lower_char a.
Proof.
  intros H. now rewrite <- (lower_upper x), <- H, lower_upper.
Qed.

Lemma eat_lit_complete (s : text) :
  forall w bef t,
    upper w = upper s ->
    eat_lit fl s bef (w ++ t) = Some (Cursor (rev w ++ bef) t).
Proof.
  induction s as [| x s IH]; intros w bef t H.
  - destruct w; [reflexivity | discriminate H].
  - destruct w as [| a w]; [discriminate H | ].
    cbn [upper map] in H. injection H as Ha Hw.
    cbn [app eat_lit]. unfold char_eq.
    rewrite Hic, (upper_eq_lower _ _ Ha), Ascii.eqb_refl.
    rewrite (IH w (a :: bef) t Hw). cbn [rev]. now rewrite <- app_assoc.
Qed.

Lemma eat_lit_head_mismatch (x a : ascii) (s bef t : text) :
  upper_char a <> upper_char x -> eat_lit fl (x :: s) bef (a :: t) = None.
Proof.
  intros H. cbn [eat_lit]. unfold char_eq. rewrite Hic.
  destruct (Ascii.eqb (lower_char x) (lower_char a)) eqn:E; [ | reflexivity].
  exfalso. apply H. apply Ascii.eqb_eq in E.
  now rewrite <- (upper_lower a), <- E, upper_lower.
Qed.

Lemma eat_lit_none (s : text) :
  forall w bef t,
    List.length w = List.length s -> upper w <> upper s ->
    eat_lit fl s bef (w ++ t) = None.
Proof.
  induction s as [| x s IH]; intros w bef t Hl Hne.
  - destruct w; [now contradiction Hne | discriminate Hl].
  - destruct w as [| a w]; [discriminate Hl | ].
    cbn [app eat_lit]. unfold char_eq. rewrite Hic.
    destruct (Ascii.eqb (lower_char x) (lower_char a)) eqn:E;
      [ | reflexivity].
    apply IH; [now injection Hl | ].
    intros Hw. apply Hne. cbn [upper map]. f_equal; [ | exact Hw].
    apply Ascii.eqb_eq in E.
    now rewrite <- (upper_lower a), <- E, upper_lower.
Qed.

End Complete.

Lemma rep_greedy_complete (p : ascii -> bool) (k : cursor -> option result)
    (w : text) :
  forall lo bef t res,
    forallb p w = true ->
    match t with [] => True | b :: _ => p b = false end ->
    lo <= List.length w ->
    k (Cursor (rev w ++ bef) t) = Some res ->
    rep_greedy p k lo bef (w ++ t) = Some res.
Proof.
  induction w as [| a w IH]; intros lo bef t res Hw Ht Hlo Hk.
  - simpl in Hlo. assert (lo = 0) as -> by lia. cbn [app rev] in *.
    destruct t as [| b t]; cbn [rep_greedy]; [exact Hk | ].
    now rewrite Ht.
  - cbn [forallb] in Hw. apply andb_true_iff in Hw. destruct Hw as [Ha Hw].
    cbn [app rep_greedy]. rewrite Ha.
    rewrite (IH (Nat.pred lo) (a :: bef) t res Hw Ht); [reflexivity | | ].
    + simpl in Hlo. lia.
    + cbn [rev] in Hk. now rewrite <- app_assoc in Hk.
Qed.

(** [finditer] reports the match at an offset that no earlier match runs
    across. *)
Lemma finditer_from_reports (fl : flags) (r : regex) (m : rmatch) (s : text) :
  (exists c', run fl r accept (cursor_at s (m_start m)) [] = Some (c', m_groups m)
              /\ m_end m = pos c') ->
  m_start m <= List.length s ->
  (forall i c' g, i < m_start m ->
                  run fl r accept (cursor_at s i) [] = Some (c', g) ->
                  pos c' <= m_start m) ->
  forall ahd bef skip,
    rev bef ++ ahd = s -> List.length bef + skip <= m_start m ->
    In m (finditer_from fl r bef ahd skip).
Proof.
  intros [cP [HP HPe]] HPs Hbefore.
  assert (Hcur : forall bef ahd, rev bef ++ ahd = s ->
                   cursor_at s (List.length bef) = Cursor bef ahd).
  { intros bef ahd <-. unfold cursor_at.
    rewrite <- (length_rev bef), firstn_app, firstn_all, Nat.sub_diag.
    rewrite skipn_app, skipn_all, Nat.sub_diag. simpl.
    now rewrite app_nil_r, rev_involutive. }
  assert (Hhere : forall bef ahd, rev bef ++ ahd = s ->
                    List.length bef = m_start m ->
                    run fl r accept (Cursor bef ahd) []
                    = Some (cP, m_groups m)).
  { intros bef ahd Hs Hl. now rewrite <- (Hcur _ _ Hs), Hl. }
  assert (Hm : forall bef : text, List.length bef = m_start m ->
                 RMatch (List.length bef) (pos cP) (m_groups m) = m).
  { intros bef ->. rewrite <- HPe. now destruct m. }
  induction ahd as [| a t IH]; intros bef skip Hs Hl.
  - assert (List.length bef = List.length s)
      by (now rewrite <- Hs, app_nil_r, length_rev).
    assert (skip = 0) as -> by lia.
    assert (Hb : List.length bef = m_start m) by lia.
    cbn [finditer_from]. rewrite (Hhere _ _ Hs Hb). left. now apply Hm.
  - assert (Hs' : rev (a :: bef) ++ t = s)
      by (cbn [rev]; now rewrite <- app_assoc).
    destruct skip as [| n]; cbn [finditer_from].
    + destruct (Nat.eq_dec (List.length bef) (m_start m)) as [Hb | Hb].
      * rewrite (Hhere _ _ Hs Hb). left. now apply Hm.
      * destruct (run fl r accept (Cursor bef (a :: t)) [])
          as [[c' g] |] eqn:E.
        -- right. apply IH; [exact Hs' | ].
           rewrite <- (Hcur _ _ Hs) in E.
           pose proof (Hbefore (List.length bef) c' g ltac:(lia) E).
           cbn [List.length]. lia.
        -- apply IH; [exact Hs' | cbn [List.length]; lia].
    + apply IH; [exact Hs' | cbn [List.length]; lia].
Qed.

Lemma finditer_reports (fl : flags) (r : regex) (m : rmatch) (s : text) :
  (exists c', run fl r accept (cursor_at s (m_start m)) [] = Some (c', m_groups m)
              /\ m_end m = pos c') ->
  m_start m <= List.length s ->
  (forall i c' g, i < m_start m ->
                  run fl r accept (cursor_at s i) [] = Some (c', g) ->
                  pos c' <= m_start m) ->
  In m (finditer fl r s).
Proof.
  intros H1 H2 H3. apply (finditer_from_reports fl r m s H1 H2 H3);
    [reflexivity | simpl; lia].
Qed.

Lemma space_not_word (a : ascii) : is_space a = true -> is_word a = false.
Proof.
  destruct a as [[] [] [] [] [] [] [] []]; intros H;
    solve [reflexivity | discriminate H].
Qed.

Lemma word_at_rev_app (w bef : text) :
  1 <= List.length w -> forallb is_word w = true ->
  word_at (rev w ++ bef) = true.
Proof.
  intros Hl Hw. destruct (rev w) as [| a r] eqn:E.
  - apply (f_equal (@List.length ascii)) in E. rewrite length_rev in E.
    simpl in E. lia.
  - simpl. rewrite forallb_forall in Hw. apply Hw. apply in_rev.
    rewrite E. now left.
Qed.

Lemma word_at_spaces (ws t : text) :
  1 <= List.length ws -> forallb is_space ws = true ->
  word_at (ws ++ t) = false.
Proof.
  intros Hl Hw. destruct ws as [| a ws]; [simpl in Hl; lia | ].
  simpl in *. apply andb_true_iff in Hw. destruct Hw as [Ha _].
  now apply space_not_word.
Qed.

Lemma word_at_word (w t : text) :
  1 <= List.length w -> forallb is_word w = true -> word_at (w ++ t) = true.
Proof.
  intros Hl Hw. destruct w as [| a w]; [simpl in Hl; lia | ].
  simpl in *. now apply andb_true_iff in Hw.
Qed.

Lemma head_not (p : ascii -> bool) (t : text) :
  (forall a, p a = true -> is_word a = true) ->
  word_at t = false ->
  match t with [] => True | b :: _ => p b = false end.
Proof.
  intros Hp Ht. destruct t as [| b t]; [exact I | ].
  simpl in Ht. destruct (p b) eqn:E; [ | reflexivity].
  now rewrite (Hp b E) in Ht.
Qed.

(** After the keyword: white space, the identifier to its end, a word
    boundary. *)
Lemma de_tail_run (bef ws id post : text) (g : groups) :
  word_at bef = true ->
  1 <= List.length ws -> forallb is_space ws = true ->
  1 <= List.length id -> forallb is_ident id = true ->
  word_at post = false ->
  run IC (WordB ;; Rep true 1 CSpace ;;
          Group "fieldname" (Rep true 1 ident_char) ;; WordB)%re
      accept (Cursor bef (ws ++ id ++ post)) g
  = Some (Cursor (rev id ++ rev ws ++ bef) post,
          set_group "fieldname"
            (List.length (rev ws ++ bef),
             List.length (rev id ++ rev ws ++ bef)) g).
Proof.
  intros Hbef Lws Fws Lid Fid Hpost.
  pose proof (ident_all_word _ Fid) as Wid.
  cbn [run]. unfold at_boundary at 1. cbn [before ahead].
  rewrite Hbef, (word_at_spaces _ _ Lws Fws). cbn [xorb].
  apply rep_greedy_complete.
  - now rewrite forallb_space.
  - pose proof (word_at_word id post Lid Wid) as Hh.
    destruct (id ++ post) as [| b t]; [exact I | ].
    rewrite cset_mem_space. now apply word_not_space.
  - exact Lws.
  - cbn [before ahead]. apply rep_greedy_complete.
    + exact Fid.
    + apply head_not; [ | exact Hpost].
      intros a Ha. now apply ident_is_word.
    + exact Lid.
    + unfold at_boundary. cbn [before ahead].
      rewrite (word_at_rev_app id _ Lid Wid), Hpost. reflexivity.
Qed.

(** The data-element pattern matches a keyword, white space and an
    identifier that stand between word boundaries, to the end of the
    identifier. *)
Lemma decl_de_run (bef kw ws id post : text) :
  word_at bef = false ->
  upper kw = of_string "TYPE" \/ upper kw = of_string "LIKE" ->
  1 <= List.length ws -> forallb is_space ws = true ->
  1 <= List.length id -> forallb is_ident id = true ->
  word_at post = false ->
  run IC DECLARATION_DE_RE accept (Cursor bef (kw ++ ws ++ id ++ post)) []
  = Some (Cursor (rev id ++ rev ws ++ rev kw ++ bef) post,
          [("fieldname",
            (List.length (rev ws ++ rev kw ++ bef),
             List.length (rev id ++ rev ws ++ rev kw ++ bef)));
           ("1", (List.length bef, List.length (rev kw ++ bef)))]).
Proof.
  intros Hbef Ukw Lws Fws Lid Fid Hpost.
  destruct (keyword_word _ Ukw) as [Lkw [Wkw _]].
  assert (Htail : forall g,
            run IC (WordB ;; Rep true 1 CSpace ;;
                    Group "fieldname" (Rep true 1 ident_char) ;; WordB)%re
                accept (Cursor (rev kw ++ bef) (ws ++ id ++ post)) g
            = Some (Cursor (rev id ++ rev ws ++ rev kw ++ bef) post,
                    set_group "fieldname"
                      (List.length (rev ws ++ rev kw ++ bef),
                       List.length (rev id ++ rev ws ++ rev kw ++ bef)) g)).
  { intros g. apply de_tail_run; auto.
    apply word_at_rev_app; [lia | exact Wkw]. }
  unfold DECLARATION_DE_RE, decl_keyword.
  match goal with
  | |- run _ (Seq WordB (Seq _ ?T)) _ _ _ = _ => remember T as tail eqn:Et
  end.
  cbn [run]. unfold at_boundary at 1. cbn [before ahead].
  rewrite Hbef, (word_at_word kw _ ltac:(lia) Wkw). cbn [xorb].
  destruct Ukw as [U | U].
  - rewrite (eat_lit_complete IC eq_refl (of_string "TYPE") kw bef _ U).
    unfold pos. cbn [before]. rewrite Htail. reflexivity.
  - destruct kw as [| a kw']; [discriminate U | ].
    assert (Ha : upper_char a <> upper_char "T"%char).
    { cbn [upper map] in U. injection U as Ha _. rewrite Ha. discriminate. }
    cbn [of_string list_ascii_of_string app].
    rewrite (eat_lit_head_mismatch IC eq_refl _ _ _ bef _ Ha).
    cbn [or_else].
    change ("L"%char :: "I"%char :: "K"%char :: "E"%char :: [])
      with (of_string "LIKE").
    change (a :: kw' ++ ws ++ id ++ post)
      with ((a :: kw') ++ ws ++ id ++ post).
    rewrite (eat_lit_complete IC eq_refl (of_string "LIKE") (a :: kw') bef _ U).
    unfold pos. cbn [before]. rewrite Htail. reflexivity.
Qed.

Lemma prefix_ci_app (u w t : text) : upper w = u -> prefix_ci u (w ++ t) = Some t.
Proof.
  intros <-. induction w as [| a w IH]; [reflexivity | ].
  cbn [upper map app prefix_ci]. now rewrite Ascii.eqb_refl.
Qed.

Lemma reversed_keyword (kw t : text) :
  upper kw = of_string "TYPE" \/ upper kw = of_string "LIKE" ->
  word_at t = false ->
  names_one_of ["EPYT"; "EKIL"] (rev kw ++ t) = true.
Proof.
  intros U Ht. unfold names_one_of. cbn [existsb].
  assert (Hr : forall u, upper kw = u -> upper (rev kw) = rev u).
  { intros u <-. unfold upper. now rewrite map_rev. }
  destruct U as [U | U]; apply Hr in U.
  - rewrite (prefix_ci_app (of_string "EPYT") (rev kw) t U), Ht. reflexivity.
  - rewrite (prefix_ci_app (of_string "EKIL") (rev kw) t U), Ht.
    apply orb_true_r.
Qed.

Lemma cursor_at_subject (s : text) (i : nat) : subject (cursor_at s i) = s.
Proof.
  unfold subject, cursor_at. cbn [before ahead].
  rewrite rev_involutive. apply firstn_skipn.
Qed.

Lemma cursor_at_pos (s : text) (i : nat) :
  i <= List.length s -> pos (cursor_at s i) = i.
Proof.
  intros H. unfold pos, cursor_at. cbn [before].
  rewrite length_rev, length_firstn. lia.
Qed.

Lemma before_firstn (c : cursor) : rev (firstn (pos c) (subject c)) = before c.
Proof.
  unfold subject, pos. rewrite <- (length_rev (before c)).
  rewrite firstn_app, firstn_all, Nat.sub_diag. simpl.
  now rewrite app_nil_r, rev_involutive.
Qed.

(** A match of the data-element pattern runs across the start of a keyword
    only when that keyword is its operand. *)
Lemma de_match_straddle (s : text) (c c' : cursor) (g g' : groups) (P : nat) :
  matches IC DECLARATION_DE_RE c g c' g' -> subject c = s ->
  keyword_start s P -> pos c < P < pos c' ->
  follows_keyword (firstn P s) = true.
Proof.
  intros M Hs [Kprev [Kch Ksp]] HP.
  destruct (decl_de_shape _ _ _ _ M)
    as [c1 [c2 [kw [ws [id
        [Rkw [Rws [Rid [Hb [Hb' [Ukw [Lws [Fws [Lid [Fid Hg
        ]]]]]]]]]]]]]]].
  destruct (keyword_word _ Ukw) as [Lkw [Wkw Hkw]].
  destruct (keyword_letter _ Kch) as [Knsp _].
  pose proof (ident_all_word _ Fid) as Wid.
  assert (S1 : subject c1 = s) by (now rewrite (reaches_subject _ _ _ Rkw)).
  assert (S2 : subject c2 = s) by (now rewrite (reaches_subject _ _ _ Rws)).
  pose proof (reaches_pos _ _ _ Rkw) as P1. rewrite Lkw in P1.
  pose proof (reaches_pos _ _ _ Rws) as P2.
  pose proof (reaches_pos _ _ _ Rid) as P3.
  pose proof (reaches_all _ _ _ _ Rkw Wkw) as A1. rewrite Hs in A1.
  pose proof (reaches_all _ _ _ _ Rws Fws) as A2. rewrite S1 in A2.
  pose proof (reaches_all _ _ _ _ Rid Wid) as A3. rewrite S2 in A3.
  assert (Hprev : forall lo hi, all_between is_word s lo hi ->
                                lo < P <= hi -> False).
  { intros lo hi A Hlh. destruct Kprev as [-> | Kprev]; [lia | ].
    rewrite (A (P - 1)) in Kprev by lia. discriminate. }
  assert (Hcase : pos c < P < pos c1 \/ pos c1 <= P < pos c2 \/
                  P = pos c2 \/ pos c2 < P <= pos c') by lia.
  destruct Hcase as [H | [H | [H | H]]].
  - exfalso. apply (Hprev _ _ A1). lia.
  - rewrite (A2 P) in Knsp by lia. discriminate.
  - subst P. rewrite <- S2, <- (rev_involutive (firstn _ _)).
    unfold follows_keyword. rewrite rev_involutive, before_firstn.
    destruct Rws as [_ Hb2]. destruct Rkw as [Hak Hb1].
    rewrite Hb2, Hb1.
    assert (Hwb : word_at (before c) = false).
    { unfold at_boundary in Hb. rewrite Hak in Hb.
      rewrite (word_at_word kw _ ltac:(lia) Wkw) in Hb.
      now destruct (word_at (before c)). }
    assert (Fr : forallb is_space (rev ws) = true).
    { rewrite forallb_forall in *. intros x Hx. apply Fws.
      now apply in_rev. }
    rewrite (lstrip_spaces _ _ Fr
               (word_at_rev_app kw (before c) ltac:(lia) Wkw)).
    rewrite (reversed_keyword _ _ Ukw Hwb).
    destruct (rev ws) as [| a r] eqn:E.
    + apply (f_equal (@List.length ascii)) in E. rewrite length_rev in E.
      simpl in E. lia.
    + cbn [app forallb] in *. apply andb_true_iff in Fr.
      destruct Fr as [-> _]. reflexivity.
  - exfalso. apply (Hprev _ _ A3). lia.
Qed.

(** What the loop of the data-element scan does with one match. *)
Lemma de_match_reported (code : string) (fm : rmatch) :
  let s := of_string code in
  let fld := to_string (upper (group s fm "fieldname")) in
  In fm (finditer IC DECLARATION_DE_RE s) ->
  In fld OBSOLETE_FIELDNAMES ->
  In (Finding None fld (span fm) (note_for_dataelement fld))
     (scan_declarations code).
Proof.
  intros s fld Hm Hin.
  unfold scan_declarations. apply in_app_iff. right.
  apply in_flat_map. exists fm. split; [exact Hm | ].
  unfold decl_de_hit. fold s fld.
  apply mem_In in Hin. rewrite Hin. left. f_equal.
  destruct (fieldname_entry _ Hin) as [_ [_ Hn]]. exact Hn.
Qed.

(** A declaration keyword with an obsolete field name as its operand is
    reported, wherever it stands, unless the keyword is itself the operand
    of a keyword before it. *)
Lemma de_declaration_reported (pre kw ws id post : text) :
  word_at (rev pre) = false -> follows_keyword pre = false ->
  upper kw = of_string "TYPE" \/ upper kw = of_string "LIKE" ->
  1 <= List.length ws -> forallb is_space ws = true ->
  1 <= List.length id -> forallb is_ident id = true ->
  word_at post = false ->
  In (to_string (upper id)) OBSOLETE_FIELDNAMES ->
  In (Finding None (to_string (upper id))
        (List.length pre,
         List.length pre + List.length kw + List.length ws + List.length id)
        (note_for_dataelement (to_string (upper id))))
     (scan_declarations (to_string (pre ++ kw ++ ws ++ id ++ post))).
Proof.
  intros Hpre Hfk Ukw Lws Fws Lid Fid Hpost Hin.
  set (s := pre ++ kw ++ ws ++ id ++ post).
  destruct (keyword_word _ Ukw) as [Lkw [Wkw Hkw]].
  pose proof (ident_all_word _ Fid) as Wid.
  set (m := RMatch (List.length pre)
              (List.length (rev id ++ rev ws ++ rev kw ++ rev pre))
              [("fieldname",
                (List.length (rev ws ++ rev kw ++ rev pre),
                 List.length (rev id ++ rev ws ++ rev kw ++ rev pre)));
               ("1", (List.length (rev pre),
                      List.length (rev kw ++ rev pre)))]).
  assert (Hcur : cursor_at s (List.length pre)
                 = Cursor (rev pre) (kw ++ ws ++ id ++ post)).
  { unfold cursor_at, s.
    rewrite firstn_app, firstn_all, Nat.sub_diag, skipn_app, skipn_all,
      Nat.sub_diag. simpl. now rewrite app_nil_r. }
  assert (Hlen : List.length pre <= List.length s)
    by (unfold s; rewrite length_app; lia).
  assert (HK : keyword_start s (List.length pre)).
  { pose proof (cursor_at_subject s (List.length pre)) as Hsub.
    rewrite Hcur in Hsub.
    assert (R : reaches (Cursor (rev pre) (kw ++ ws ++ id ++ post))
                  (kw ++ ws) (Cursor (rev (kw ++ ws) ++ rev pre)
                                     (id ++ post))).
    { split; cbn [before ahead]; [now rewrite <- app_assoc | reflexivity]. }
    assert (Hpos : pos (Cursor (rev pre) (kw ++ ws ++ id ++ post))
                   = List.length pre)
      by (unfold pos; cbn [before]; apply length_rev).
    repeat split.
    - pose proof (boundary_before (Cursor (rev pre) (kw ++ ws ++ id ++ post)))
        as B. rewrite Hsub, Hpos in B. apply B.
      + unfold at_boundary. cbn [before ahead].
        now rewrite Hpre, (word_at_word kw _ ltac:(lia) Wkw).
      + cbn [ahead]. apply (word_at_word kw _ ltac:(lia) Wkw).
    - pose proof (reaches_char _ _ _ 0 R
                    ltac:(rewrite length_app; lia)) as C0.
      rewrite Hsub, Hpos, Nat.add_0_r in C0. rewrite C0.
      destruct kw as [| a kw']; [discriminate Lkw | exact Hkw].
    - pose proof (reaches_char _ _ _ 4 R
                    ltac:(rewrite length_app; lia)) as C4.
      rewrite Hsub, Hpos in C4. rewrite C4.
      unfold char_at. rewrite app_nth2 by lia. rewrite Lkw. cbn [Nat.sub].
      apply (forallb_char_at is_space ws 0 Fws). lia. }
  assert (Hm : In m (finditer IC DECLARATION_DE_RE s)).
  { apply finditer_reports.
    - cbn [m_start m_groups m_end m]. rewrite Hcur.
      eexists. split.
      + rewrite (decl_de_run (rev pre) kw ws id post); auto.
      + reflexivity.
    - exact Hlen.
    - cbn [m_start m]. intros i c' g Hi Hrun.
      destruct (Nat.le_gt_cases (pos c') (List.length pre)) as [H | H];
        [exact H | exfalso].
      apply run_sound in Hrun. destruct Hrun as [c1 [g1 [M Hacc]]].
      unfold accept in Hacc. injection Hacc as -> ->.
      pose proof (de_match_straddle s _ _ _ _ (List.length pre) M
                    (cursor_at_subject s i) HK) as Hst.
      rewrite cursor_at_pos in Hst by lia.
      specialize (Hst ltac:(lia)).
      unfold s in Hst.
      rewrite firstn_app, firstn_all, Nat.sub_diag in Hst. simpl in Hst.
      rewrite app_nil_r in Hst. congruence. }
  assert (Hg : group s m "fieldname" = id).
  { unfold group, m, s. cbn [m_groups get_group String.eqb Ascii.eqb Bool.eqb].
    unfold slice. rewrite !length_app, !length_rev.
    replace (List.length id + (List.length ws + (List.length kw + List.length pre))
             - (List.length ws + (List.length kw + List.length pre)))
      with (List.length id + 0) by lia.
    replace (List.length ws + (List.length kw + List.length pre))
      with (List.length ((pre ++ kw) ++ ws))
      by (rewrite !length_app; lia).
    replace (pre ++ kw ++ ws ++ id ++ post)
      with (((pre ++ kw) ++ ws) ++ id ++ post)
      by (now rewrite <- !app_assoc).
    rewrite skipn_app, skipn_all, Nat.sub_diag. simpl.
    now rewrite firstn_app_2, firstn_O, app_nil_r. }
  pose proof (de_match_reported (to_string s) m) as Hrep.
  cbv zeta in Hrep. rewrite of_to_string, Hg in Hrep.
  specialize (Hrep Hm Hin).
  unfold span, m in Hrep. cbn [m_start m_end] in Hrep.
  rewrite !length_app, !length_rev in Hrep.
  replace (List.length pre + List.length kw + List.length ws + List.length id)
    with (List.length id + (List.length ws + (List.length kw + List.length pre)))
    by lia.
  exact Hrep.
Qed.

(** C7. [DATA lv_y TYPE ALTSL.] yields one finding, without table, field
    ALTSL, with the data-element note.  The general part fails: in
    [TYPES: BEGIN OF ty, type TYPE altsl, END OF ty.] the keyword TYPE at
    offset 25 is followed by the obsolete data element ALTSL, and nothing
    is reported; the only match of the pattern is [type TYPE] at (20, 29),
    which takes that keyword for the identifier of the word before it.
    Where the keyword is not itself the operand of a keyword before it,
    the general part holds: a keyword TYPE or LIKE between word
    boundaries, white space and an identifier of the flattened
    obsolete-field set are reported with the span from the keyword to the
    end of the identifier. *)
Theorem unqualified_declaration_detection :
  scan_declarations "DATA lv_y TYPE ALTSL."
  = [Finding None "ALTSL" (10, 20) (note_for_dataelement "ALTSL")] /\
  (let code := "TYPES: BEGIN OF ty, type TYPE altsl, END OF ty." in
   scan_declarations code = [] /\
   to_string (slice 25 35 (of_string code)) = "TYPE altsl" /\
   In "ALTSL" OBSOLETE_FIELDNAMES /\
   map (fun fm => (span fm, to_string (group (of_string code) fm "fieldname")))
       (finditer IC DECLARATION_DE_RE (of_string code))
   = [((20, 29), "TYPE")]) /\
  (forall pre kw ws id post : text,
     word_at (rev pre) = false -> follows_keyword pre = false ->
     upper kw = of_string "TYPE" \/ upper kw = of_string "LIKE" ->
     1 <= List.length ws -> forallb is_space ws = true ->
     1 <= List.length id -> forallb is_ident id = true ->
     word_at post = false ->
     In (to_string (upper id)) OBSOLETE_FIELDNAMES ->
     In (Finding None (to_string (upper id))
           (List.length pre,
            List.length pre + List.length kw + List.length ws
            + List.length id)
           (note_for_dataelement (to_string (upper id))))
        (scan_declarations (to_string (pre ++ kw ++ ws ++ id ++ post)))).
Proof.
  split; [vm_compute; reflexivity | split].
  - vm_compute. repeat split. tauto.
  - exact de_declaration_reported.
Qed.

Lemma unqualified_declaration_detection_witness :
  In (Finding None "ALTSL" (10, 20) (note_for_dataelement "ALTSL"))
     (scan_declarations "DATA lv_y TYPE ALTSL.") /\
  In (Finding None "LMINB" (2, 12) (note_for_dataelement "LMINB"))
     (scan_declarations "x LIKE lminb").
Proof.
  split.
  - exact (proj2 (proj2 unqualified_declaration_detection)
             (of_string "DATA lv_y ") (of_string "TYPE") (of_string " ")
             (of_string "ALTSL") (of_string ".")
             eq_refl eq_refl (or_introl eq_refl)
             (le_n 1) eq_refl
             ltac:(simpl; lia) eq_refl eq_refl
             ltac:(vm_compute; tauto)).
  - exact (proj2 (proj2 unqualified_declaration_detection)
             (of_string "x ") (of_string "LIKE") (of_string " ")
             (of_string "lminb") []
             eq_refl eq_refl (or_intror eq_refl)
             (le_n 1) eq_refl
             ltac:(simpl; lia) eq_refl eq_refl
             ltac:(vm_compute; tauto)).
Defined.

(** The qualified declaration pattern matches a keyword, white space and a
    TABLE-FIELD reference, to the end of the field identifier. *)
Lemma decl_qual_run (bef kw ws tb fl post : text) :
  word_at bef = false ->
  upper kw = of_string "TYPE" \/ upper kw = of_string "LIKE" ->
  1 <= List.length ws -> forallb is_space ws = true ->
  upper tb = of_string "MARC" \/ upper tb = of_string "MARD" ->
  1 <= List.length fl -> forallb is_ident fl = true ->
  word_at post = false ->
  run IC DECLARATION_QUAL_RE accept
      (Cursor bef (kw ++ ws ++ tb ++ of_string "-" ++ fl ++ post)) []
  = Some (Cursor (rev fl ++ rev (of_string "-") ++ rev tb ++ rev ws
                  ++ rev kw ++ bef) post,
          [("field",
            (List.length (rev (of_string "-") ++ rev tb ++ rev ws
                          ++ rev kw ++ bef),
             List.length (rev fl ++ rev (of_string "-") ++ rev tb ++ rev ws
                          ++ rev kw ++ bef)));
           ("table",
            (List.length (rev ws ++ rev kw ++ bef),
             List.length (rev tb ++ rev ws ++ rev kw ++ bef)));
           ("1", (List.length bef, List.length (rev kw ++ bef)))]).
Proof.
  intros Hbef Ukw Lws Fws Utb Lfl Ffl Hpost.
  destruct (keyword_word _ Ukw) as [Lkw [Wkw _]].
  destruct (table_word _ Utb) as [Ltb [Wtb _]].
  pose proof (ident_all_word _ Ffl) as Wfl.
  (* from the hyphen on *)
  assert (Hfield : forall b g,
            run IC (Lit "-" ;; Group "field" (Rep true 1 ident_char))%re
                accept (Cursor b (of_string "-" ++ fl ++ post)) g
            = Some (Cursor (rev fl ++ rev (of_string "-") ++ b) post,
                    set_group "field"
                      (List.length (rev (of_string "-") ++ b),
                       List.length (rev fl ++ rev (of_string "-") ++ b)) g)).
  { intros b g. cbn [run before ahead].
    rewrite (eat_lit_complete IC eq_refl (of_string "-") (of_string "-")
               b _ eq_refl).
    cbn [before ahead]. apply rep_greedy_complete.
    - exact Ffl.
    - apply head_not; [ | exact Hpost].
      intros a Ha. now apply ident_is_word.
    - exact Lfl.
    - reflexivity. }
  (* from the table on *)
  assert (Htable : forall b g,
            run IC (Group "table" watched_table ;; Lit "-" ;;
                    Group "field" (Rep true 1 ident_char))%re
                accept (Cursor b (tb ++ of_string "-" ++ fl ++ post)) g
            = Some (Cursor (rev fl ++ rev (of_string "-") ++ rev tb ++ b) post,
                    set_group "field"
                      (List.length (rev (of_string "-") ++ rev tb ++ b),
                       List.length (rev fl ++ rev (of_string "-")
                                    ++ rev tb ++ b))
                      (set_group "table"
                         (List.length b, List.length (rev tb ++ b)) g))).
  { intros b g. unfold watched_table.
    match goal with
    | |- run _ (Seq _ ?T) _ _ _ = _ => remember T as tail eqn:Et
    end.
    cbn [run before ahead].
    destruct Utb as [U | U].
    - rewrite (eat_lit_complete IC eq_refl (of_string "MARC") tb b _ U).
      unfold pos. cbn [before]. rewrite Hfield. reflexivity.
    - rewrite (eat_lit_none IC eq_refl (of_string "MARC") tb b _ Ltb)
        by (rewrite U; discriminate).
      cbn [or_else].
      rewrite (eat_lit_complete IC eq_refl (of_string "MARD") tb b _ U).
      unfold pos. cbn [before]. rewrite Hfield. reflexivity. }
  (* from the end of the keyword on *)
  assert (Htail : forall g,
            run IC (WordB ;; Rep true 1 CSpace ;;
                    Group "table" watched_table ;; Lit "-" ;;
                    Group "field" (Rep true 1 ident_char))%re
                accept (Cursor (rev kw ++ bef)
                          (ws ++ tb ++ of_string "-" ++ fl ++ post)) g
            = Some (Cursor (rev fl ++ rev (of_string "-") ++ rev tb ++ rev ws
                            ++ rev kw ++ bef) post,
                    set_group "field"
                      (List.length (rev (of_string "-") ++ rev tb ++ rev ws
                                    ++ rev kw ++ bef),
                       List.length (rev fl ++ rev (of_string "-") ++ rev tb
                                    ++ rev ws ++ rev kw ++ bef))
                      (set_group "table"
                         (List.length (rev ws ++ rev kw ++ bef),
                          List.length (rev tb ++ rev ws ++ rev kw ++ bef))
                         g))).
  { intros g.
    match goal with
    | |- run _ (Seq WordB (Seq _ ?T)) _ _ _ = _ => remember T as tail eqn:Et
    end.
    cbn [run]. unfold at_boundary at 1. cbn [before ahead].
    rewrite (word_at_rev_app kw bef ltac:(lia) Wkw),
      (word_at_spaces _ _ Lws Fws). cbn [xorb].
    apply rep_greedy_complete.
    - now rewrite forallb_space.
    - pose proof (word_at_word tb (of_string "-" ++ fl ++ post)
                    ltac:(lia) Wtb) as Hh.
      destruct (tb ++ of_string "-" ++ fl ++ post) as [| x t]; [exact I | ].
      rewrite cset_mem_space. now apply word_not_space.
    - exact Lws.
    - apply Htable. }
  unfold DECLARATION_QUAL_RE, decl_keyword.
  match goal with
  | |- run _ (Seq WordB (Seq _ ?T)) _ _ _ = _ => remember T as tail eqn:Et
  end.
  cbn [run]. unfold at_boundary at 1. cbn [before ahead].
  rewrite Hbef, (word_at_word kw _ ltac:(lia) Wkw). cbn [xorb].
  destruct Ukw as [U | U].
  - rewrite (eat_lit_complete IC eq_refl (of_string "TYPE") kw bef _ U).
    unfold pos. cbn [before]. rewrite Htail. reflexivity.
  - rewrite (eat_lit_none IC eq_refl (of_string "TYPE") kw bef _ Lkw)
      by (rewrite U; discriminate).
    cbn [or_else].
    rewrite (eat_lit_complete IC eq_refl (of_string "LIKE") kw bef _ U).
    unfold pos. cbn [before]. rewrite Htail. reflexivity.
Qed.

(** A match of the qualified declaration pattern runs across the start of
    a keyword only when that keyword stands right after its hyphen. *)
Lemma qual_match_straddle (s : text) (c c' : cursor) (g g' : groups)
    (P : nat) :
  matches IC DECLARATION_QUAL_RE c g c' g' -> subject c = s ->
  keyword_start s P -> pos c < P < pos c' ->
  1 <= P /\ char_at s (P - 1) = "-"%char.
Proof.
  intros M Hs [Kprev [Kch Ksp]] HP.
  destruct (decl_qual_shape _ _ _ _ M)
    as [c1 [c2 [c3 [c4 [kw [ws [tb [fl
        [Rkw [Rws [Rtb [Rd [Rfl [Hb [Ukw [Lws [Fws [Utb [Lfl [Ffl Hg
        ]]]]]]]]]]]]]]]]]]]].
  destruct (keyword_word _ Ukw) as [Lkw [Wkw Hkw]].
  destruct (table_word _ Utb) as [Ltb [Wtb Htb]].
  destruct (keyword_letter _ Kch) as [Knsp [KnM _]].
  pose proof (ident_all_word _ Ffl) as Wfl.
  assert (S1 : subject c1 = s) by (now rewrite (reaches_subject _ _ _ Rkw)).
  assert (S2 : subject c2 = s) by (now rewrite (reaches_subject _ _ _ Rws)).
  assert (S3 : subject c3 = s) by (now rewrite (reaches_subject _ _ _ Rtb)).
  assert (S4 : subject c4 = s) by (now rewrite (reaches_subject _ _ _ Rd)).
  pose proof (reaches_pos _ _ _ Rkw) as P1.
  pose proof (reaches_pos _ _ _ Rws) as P2.
  pose proof (reaches_pos _ _ _ Rtb) as P3.
  pose proof (reaches_pos _ _ _ Rd) as P4. simpl in P4.
  pose proof (reaches_pos _ _ _ Rfl) as P5.
  pose proof (reaches_all _ _ _ _ Rkw Wkw) as A1. rewrite Hs in A1.
  pose proof (reaches_all _ _ _ _ Rws Fws) as A2. rewrite S1 in A2.
  pose proof (reaches_all _ _ _ _ Rtb Wtb) as A3. rewrite S2 in A3.
  pose proof (reaches_all _ _ _ _ Rfl Wfl) as A5. rewrite S4 in A5.
  pose proof (reaches_char _ _ _ 0 Rtb ltac:(lia)) as C2.
  rewrite S2, Nat.add_0_r in C2.
  pose proof (reaches_char _ _ _ 0 Rd ltac:(simpl; lia)) as C3.
  rewrite S3, Nat.add_0_r in C3.
  assert (Hprev : forall lo hi, all_between is_word s lo hi ->
                                lo < P <= hi -> False).
  { intros lo hi A Hlh. destruct Kprev as [-> | Kprev]; [lia | ].
    rewrite (A (P - 1)) in Kprev by lia. discriminate. }
  assert (Hcase : pos c < P < pos c1 \/ pos c1 <= P < pos c2 \/
                  P = pos c2 \/ pos c2 < P <= pos c3 \/
                  P = pos c4 \/ pos c4 < P <= pos c') by lia.
  destruct Hcase as [H | [H | [H | [H | [H | H]]]]].
  - exfalso. apply (Hprev _ _ A1). lia.
  - rewrite (A2 P) in Knsp by lia. discriminate.
  - subst P. rewrite C2 in KnM. contradiction.
  - exfalso. apply (Hprev _ _ A3). lia.
  - subst P. split; [lia | ].
    replace (pos c4 - 1) with (pos c3) by lia. exact C3.
  - exfalso. apply (Hprev _ _ A5). lia.
Qed.

(** What the loop of the qualified declaration scan does with one match. *)
Lemma qual_match_reported (code : string) (fm : rmatch) :
  let s := of_string code in
  let tbl := to_string (upper (group s fm "table")) in
  let fld := to_string (upper (group s fm "field")) in
  In fm (finditer IC DECLARATION_QUAL_RE s) ->
  is_obsolete tbl fld = true ->
  In (Finding (Some tbl) fld (span fm) (note_for tbl fld))
     (scan_declarations code).
Proof.
  intros s tbl fld Hm Ho.
  unfold scan_declarations. apply in_app_iff. left.
  apply in_flat_map. exists fm. split; [exact Hm | ].
  unfold decl_qual_hit. fold s tbl fld. rewrite Ho. left. f_equal.
  destruct (is_obsolete_inv _ _ Ho) as [flds [Hd Hin]].
  destruct (registry_entry _ _ _ Hd Hin) as [_ [_ [_ [_ Hn]]]].
  exact Hn.
Qed.

Lemma slice_middle (a w b : text) :
  slice (List.length a) (List.length a + List.length w) (a ++ w ++ b) = w.
Proof.
  unfold slice.
  replace (List.length a + List.length w - List.length a)
    with (List.length w + 0) by lia.
  rewrite skipn_app, skipn_all, Nat.sub_diag. simpl.
  now rewrite firstn_app_2, firstn_O, app_nil_r.
Qed.

Lemma last_char_at (pre t : text) :
  1 <= List.length pre ->
  char_at (pre ++ t) (List.length pre - 1) = hd "000"%char (rev pre).
Proof.
  intros H. unfold char_at. rewrite app_nth1 by lia.
  destruct (rev pre) as [| a r] eqn:E.
  - apply (f_equal (@List.length ascii)) in E. rewrite length_rev in E.
    simpl in E. lia.
  - assert (Hp : pre = rev r ++ [a]).
    { rewrite <- (rev_involutive pre), E. reflexivity. }
    rewrite Hp, length_app, app_nth2; rewrite ?length_rev; simpl; try lia.
    replace (List.length r + 1 - 1 - List.length r) with 0 by lia.
    reflexivity.
Qed.

(** A declaration keyword with a reference to an obsolete field of a
    watched table as its operand is reported, wherever it stands, unless a
    hyphen stands right before the keyword; the span starts at the
    keyword. *)
Lemma qual_declaration_reported (pre kw ws tb fl post : text) :
  word_at (rev pre) = false -> ends_with_hyphen pre = false ->
  upper kw = of_string "TYPE" \/ upper kw = of_string "LIKE" ->
  1 <= List.length ws -> forallb is_space ws = true ->
  upper tb = of_string "MARC" \/ upper tb = of_string "MARD" ->
  1 <= List.length fl -> forallb is_ident fl = true ->
  word_at post = false ->
  is_obsolete (to_string (upper tb)) (to_string (upper fl)) = true ->
  In (Finding (Some (to_string (upper tb))) (to_string (upper fl))
        (List.length pre,
         List.length pre + List.length kw + List.length ws
         + List.length tb + 1 + List.length fl)
        (note_for (to_string (upper tb)) (to_string (upper fl))))
     (scan_declarations
        (to_string (pre ++ kw ++ ws ++ tb ++ of_string "-" ++ fl ++ post))).
Proof.
  intros Hpre Hhy Ukw Lws Fws Utb Lfl Ffl Hpost Ho.
  set (rest := kw ++ ws ++ tb ++ of_string "-" ++ fl ++ post).
  set (s := pre ++ rest).
  destruct (keyword_word _ Ukw) as [Lkw [Wkw Hkw]].
  destruct (table_word _ Utb) as [Ltb [Wtb Htb]].
  set (b1 := rev kw ++ rev pre).
  set (b2 := rev ws ++ b1).
  set (b3 := rev tb ++ b2).
  set (b4 := rev (of_string "-") ++ b3).
  set (b5 := rev fl ++ b4).
  set (m := RMatch (List.length pre) (List.length b5)
              [("field", (List.length b4, List.length b5));
               ("table", (List.length b2, List.length b3));
               ("1", (List.length (rev pre), List.length b1))]).
  assert (Hcur : cursor_at s (List.length pre) = Cursor (rev pre) rest).
  { unfold cursor_at, s.
    rewrite firstn_app, firstn_all, Nat.sub_diag, skipn_app, skipn_all,
      Nat.sub_diag. simpl. now rewrite app_nil_r. }
  assert (Hlen : List.length pre <= List.length s)
    by (unfold s; rewrite length_app; lia).
  assert (HK : keyword_start s (List.length pre)).
  { pose proof (cursor_at_subject s (List.length pre)) as Hsub.
    rewrite Hcur in Hsub.
    assert (R : reaches (Cursor (rev pre) rest) (kw ++ ws)
                  (Cursor (rev (kw ++ ws) ++ rev pre)
                          (tb ++ of_string "-" ++ fl ++ post))).
    { split; cbn [before ahead]; [unfold rest; now rewrite <- app_assoc
                                 | reflexivity]. }
    assert (Hpos : pos (Cursor (rev pre) rest) = List.length pre)
      by (unfold pos; cbn [before]; apply length_rev).
    repeat split.
    - pose proof (boundary_before (Cursor (rev pre) rest)) as B.
      rewrite Hsub, Hpos in B. apply B.
      + unfold at_boundary, rest. cbn [before ahead].
        now rewrite Hpre, (word_at_word kw _ ltac:(lia) Wkw).
      + cbn [ahead]. apply (word_at_word kw _ ltac:(lia) Wkw).
    - pose proof (reaches_char _ _ _ 0 R
                    ltac:(rewrite length_app; lia)) as C0.
      rewrite Hsub, Hpos, Nat.add_0_r in C0. rewrite C0.
      destruct kw as [| a kw']; [discriminate Lkw | exact Hkw].
    - pose proof (reaches_char _ _ _ 4 R
                    ltac:(rewrite length_app; lia)) as C4.
      rewrite Hsub, Hpos in C4. rewrite C4.
      unfold char_at. rewrite app_nth2 by lia. rewrite Lkw. cbn [Nat.sub].
      apply (forallb_char_at is_space ws 0 Fws). lia. }
  assert (Hm : In m (finditer IC DECLARATION_QUAL_RE s)).
  { apply finditer_reports.
    - cbn [m_start m_groups m_end m]. rewrite Hcur.
      eexists. split.
      + unfold rest.
        rewrite (decl_qual_run (rev pre) kw ws tb fl post); auto.
      + reflexivity.
    - exact Hlen.
    - cbn [m_start m]. intros i c' g Hi Hrun.
      destruct (Nat.le_gt_cases (pos c') (List.length pre)) as [H | H];
        [exact H | exfalso].
      apply run_sound in Hrun. destruct Hrun as [c1 [g1 [M Hacc]]].
      unfold accept in Hacc. injection Hacc as -> ->.
      pose proof (qual_match_straddle s _ _ _ _ (List.length pre) M
                    (cursor_at_subject s i) HK) as Hst.
      rewrite cursor_at_pos in Hst by lia.
      destruct (Hst ltac:(lia)) as [Hp1 Hch].
      unfold s in Hch. rewrite (last_char_at pre rest Hp1) in Hch.
      unfold ends_with_hyphen in Hhy.
      destruct (rev pre) as [| a r]; [discriminate Hch | ].
      cbn [hd] in Hch. subst a. discriminate Hhy. }
  assert (L1 : List.length b1 = List.length (pre ++ kw))
    by (unfold b1; rewrite !length_app, !length_rev; lia).
  assert (L2 : List.length b2 = List.length ((pre ++ kw) ++ ws))
    by (unfold b2; rewrite (length_app (rev ws)), length_rev, L1,
          !length_app; lia).
  assert (L3 : List.length b3
               = List.length ((pre ++ kw) ++ ws) + List.length tb)
    by (unfold b3; rewrite (length_app (rev tb)), length_rev, L2; lia).
  assert (L4 : List.length b4
               = List.length ((((pre ++ kw) ++ ws) ++ tb) ++ of_string "-"))
    by (unfold b4; rewrite (length_app (rev _)), length_rev, L3,
          (length_app (_ ++ tb)), (length_app _ tb); lia).
  assert (L5 : List.length b5
               = List.length ((((pre ++ kw) ++ ws) ++ tb) ++ of_string "-")
                 + List.length fl)
    by (unfold b5; rewrite (length_app (rev fl)), length_rev, L4; lia).
  assert (Gt : group s m "table" = tb).
  { unfold group, m. cbn [m_groups get_group String.eqb Ascii.eqb Bool.eqb].
    rewrite L2, L3.
    replace s with (((pre ++ kw) ++ ws) ++ tb ++ of_string "-" ++ fl ++ post)
      by (unfold s, rest; now rewrite <- !app_assoc).
    apply slice_middle. }
  assert (Gf : group s m "field" = fl).
  { unfold group, m. cbn [m_groups get_group String.eqb Ascii.eqb Bool.eqb].
    rewrite L4, L5.
    replace s
      with (((((pre ++ kw) ++ ws) ++ tb) ++ of_string "-") ++ fl ++ post)
      by (unfold s, rest; now rewrite <- !app_assoc).
    apply slice_middle. }
  pose proof (qual_match_reported (to_string s) m) as Hrep.
  cbv zeta in Hrep. rewrite of_to_string, Gt, Gf in Hrep.
  specialize (Hrep Hm Ho).
  unfold span, m in Hrep. cbn [m_start m_end] in Hrep.
  rewrite L5, !length_app in Hrep. simpl (List.length (of_string "-")) in Hrep.
  exact Hrep.
Qed.

(** C5, as amended. [DATA lv_x TYPE MARD-LSOBS.] yields one finding, table
    MARD, field LSOBS, with the span (10, 25) that starts at the keyword.
    In the text, a keyword TYPE or LIKE that starts a word and has no
    hyphen right before it, white space and a reference TABLE-FIELD to an
    obsolete field of MARC or MARD, its identifier ending where the text
    ends or a non-word character stands, are reported with the table note
    and the span from the keyword to the end of the field.  And the span
    of every finding that carries a table covers a declaration keyword,
    the white space after it and the TABLE-FIELD reference, and its note
    is the table note. *)
Theorem qualified_declaration_detection :
  scan_declarations "DATA lv_x TYPE MARD-LSOBS."
  = [Finding (Some "MARD") "LSOBS" (10, 25) (note_for "MARD" "LSOBS")] /\
  (forall pre kw ws tb fl post : text,
     word_at (rev pre) = false -> ends_with_hyphen pre = false ->
     upper kw = of_string "TYPE" \/ upper kw = of_string "LIKE" ->
     1 <= List.length ws -> forallb is_space ws = true ->
     upper tb = of_string "MARC" \/ upper tb = of_string "MARD" ->
     1 <= List.length fl -> forallb is_ident fl = true ->
     word_at post = false ->
     is_obsolete (to_string (upper tb)) (to_string (upper fl)) = true ->
     In (Finding (Some (to_string (upper tb))) (to_string (upper fl))
           (List.length pre,
            List.length pre + List.length kw + List.length ws
            + List.length tb + 1 + List.length fl)
           (note_for (to_string (upper tb)) (to_string (upper fl))))
        (scan_declarations
           (to_string
              (pre ++ kw ++ ws ++ tb ++ of_string "-" ++ fl ++ post)))) /\
  (forall (code : string) (f : finding) (t : string),
     In f (scan_declarations code) -> table f = Some t ->
     exists kw ws ref,
       slice (fst (fspan f)) (snd (fspan f)) (of_string code)
       = kw ++ ws ++ ref /\
       (upper kw = of_string "TYPE" \/ upper kw = of_string "LIKE") /\
       1 <= List.length ws /\ forallb is_space ws = true /\
       upper ref = of_string t ++ of_string "-" ++ of_string (field f) /\
       suggested_statement f = note_for t (field f)).
Proof.
  split; [vm_compute; reflexivity | split].
  - exact qual_declaration_reported.
  - exact qual_finding_span.
Qed.

Lemma qualified_declaration_detection_witness :
  In (Finding (Some "MARD") "LMINB" (4, 20) (note_for "MARD" "LMINB"))
     (scan_declarations "a = like  mard-lminb, b") /\
  In (Finding (Some "MARD") "LSOBS" (10, 25) (note_for "MARD" "LSOBS"))
     (scan_declarations "DATA lv_x TYPE MARD-LSOBS.") /\
  exists kw ws ref,
    slice 10 25 (of_string "DATA lv_x TYPE MARD-LSOBS.") = kw ++ ws ++ ref /\
    (upper kw = of_string "TYPE" \/ upper kw = of_string "LIKE") /\
    1 <= List.length ws /\ forallb is_space ws = true /\
    upper ref = of_string "MARD" ++ of_string "-" ++ of_string "LSOBS" /\
    note_for "MARD" "LSOBS" = note_for "MARD" "LSOBS".
Proof.
  split; [ | split].
  - exact (proj1 (proj2 qualified_declaration_detection)
             (of_string "a = ") (of_string "like") (of_string "  ")
             (of_string "mard") (of_string "lminb") (of_string ", b")
             eq_refl eq_refl (or_intror eq_refl)
             ltac:(simpl; lia) eq_refl (or_intror eq_refl)
             ltac:(simpl; lia) eq_refl eq_refl eq_refl).
  - exact (proj1 (proj2 qualified_declaration_detection)
             (of_string "DATA lv_x ") (of_string "TYPE") (of_string " ")
             (of_string "MARD") (of_string "LSOBS") (of_string ".")
             eq_refl eq_refl (or_introl eq_refl)
             (le_n 1) eq_refl (or_intror eq_refl)
             ltac:(simpl; lia) eq_refl eq_refl eq_refl).
  - exact (proj2 (proj2 qualified_declaration_detection)
             "DATA lv_x TYPE MARD-LSOBS."
             (Finding (Some "MARD") "LSOBS" (10, 25)
                (note_for "MARD" "LSOBS"))
             "MARD"
             ltac:(vm_compute; left; reflexivity) eq_refl).
Defined.

(** ** Where the query pattern is sure to match *)



Lemma prefix_ci_inv (u : text) :
  forall s t, prefix_ci u s = Some t ->
              exists w, s = w ++ t /\ upper w = u.
Proof.
  induction u as [| x u IH]; intros s t H; cbn [prefix_ci] in H.
  - injection H as <-. now exists [].
  - destruct s as [| a s]; [discriminate H | ].
    destruct (Ascii.eqb (upper_char a) x) eqn:E; [ | discriminate H].
    apply Ascii.eqb_eq in E. destruct (IH _ _ H) as [w [-> Hw]].
    exists (a :: w). split; [reflexivity | ]. cbn [upper map].
    now rewrite E, <- Hw.
Qed.

Lemma cset_any (a : ascii) : cset_mem IC_DOTALL CAny a = true.
Proof. reflexivity. Qed.


(** The keyword SELECT between word boundaries. *)
Lemma select_keyword_run (bef ahd : text) (g : groups) :
  select_keyword_at bef ahd = true ->
  exists c', run IC_DOTALL (WordB ;; Lit "SELECT" ;; WordB)%re accept
               (Cursor bef ahd) g = Some (c', g).
Proof.
  unfold select_keyword_at. intros H. apply andb_true_iff in H.
  destruct H as [Hb H]. apply negb_true_iff in Hb.
  destruct (prefix_ci (of_string "SELECT") ahd) as [t |] eqn:E;
    [ | discriminate H].
  apply negb_true_iff in H.
  destruct (prefix_ci_inv _ _ _ E) as [w [-> Hw]].
  assert (Ww : forallb is_word w = true)
    by (exact (upper_all_word _ _ Hw eq_refl)).
  assert (Lw : List.length w = 6) by (exact (upper_length _ _ Hw)).
  cbn [run]. unfold at_boundary at 1. cbn [before ahead].
  rewrite Hb, (word_at_word w t ltac:(lia) Ww). cbn [xorb].
  rewrite (eat_lit_complete IC_DOTALL eq_refl (of_string "SELECT") w bef t Hw).
  unfold at_boundary. cbn [before ahead].
  rewrite (word_at_rev_app w bef ltac:(lia) Ww), H. cbn [xorb].
  eexists. reflexivity.
Qed.

Lemma select_keyword_matches (c c' : cursor) (g g' : groups) :
  matches IC_DOTALL (WordB ;; Lit "SELECT" ;; WordB)%re c g c' g' ->
  select_keyword_at (before c) (ahead c) = true /\ g' = g.
Proof.
  intros M.
  destruct (seq_shape _ _ _ _ _ _ _ M) as [c0 [g0 [M0 M']]]; clear M.
  destruct (wordb_shape _ _ _ _ _ M0) as [E0 [G0 Hb]]; clear M0. subst c0 g0.
  destruct (seq_shape _ _ _ _ _ _ _ M') as [c1 [g1 [M1 M]]]; clear M'.
  destruct (wordb_shape _ _ _ _ _ M) as [E1 [G1 Hb']]; clear M.
  subst c' g'.
  inversion M1 as [? ? ? ? E | | | | | | | | ]; subst.
  split; [ | reflexivity].
  pose proof (eat_lit_prefix_ci IC_DOTALL eq_refl (of_string "SELECT")
                eq_refl _ _ _ E) as Hp.
  pose proof (eat_lit_ahead_word IC_DOTALL eq_refl "S"%char _ _ _ _
                eq_refl E) as Ha.
  pose proof (eat_lit_before_word IC_DOTALL eq_refl (of_string "SELECT")
                ltac:(discriminate) eq_refl _ _ _ E) as Hw.
  unfold at_boundary in Hb, Hb'. rewrite Ha in Hb. rewrite Hw in Hb'.
  unfold select_keyword_at. rewrite Hp.
  destruct (word_at (before c)); [discriminate Hb | ].
  destruct (word_at (ahead c1)); [discriminate Hb' | reflexivity].
Qed.

(** The lookahead [(?=\bSELECT\b|$)] holds exactly where a statement may
    end, and leaves the groups as they are. *)
Lemma lookahead_run (k : cursor -> groups -> option result) (c : cursor)
    (g : groups) :
  run IC_DOTALL (Look ((WordB ;; Lit "SELECT" ;; WordB) <|> Eos))%re k c g
  = if statement_end_at (before c) (ahead c) then k c g else None.
Proof.
  cbn [run].
  change (or_else
            (if at_boundary c
             then match eat_lit IC_DOTALL (of_string "SELECT")
                          (before c) (ahead c) with
                  | Some c' => if at_boundary c' then accept c' g else None
                  | None => None
                  end
             else None)
            (if at_end c then accept c g else None))
    with (or_else
            (run IC_DOTALL (WordB ;; Lit "SELECT" ;; WordB)%re accept c g)
            (if at_end c then accept c g else None)).
  unfold statement_end_at.
  destruct (select_keyword_at (before c) (ahead c)) eqn:Es.
  - destruct c as [bef ahd]. cbn [before ahead] in Es.
    destruct (select_keyword_run bef ahd g Es) as [c' Hr].
    rewrite Hr. reflexivity.
  - destruct (run IC_DOTALL (WordB ;; Lit "SELECT" ;; WordB)%re accept c g)
      as [[c' g'] |] eqn:Er.
    + apply run_sound in Er. destruct Er as [c1 [g1 [M _]]].
      destruct (select_keyword_matches _ _ _ _ M) as [Hs _]. congruence.
    + cbn [or_else orb]. destruct c as [bef ahd]. cbn [before ahead].
      destruct (at_end (Cursor bef ahd)); reflexivity.
Qed.





Lemma sql_stmt_starts_with_select (c c' : cursor) (g g' : groups) :
  matches IC_DOTALL SQL_STMT_RE c g c' g' ->
  select_keyword_at (before c) (ahead c) = true.
Proof.
  intros M. unfold SQL_STMT_RE in M.
  destruct (seq_shape _ _ _ _ _ _ _ M) as [c0 [g0 [M0 M']]]; clear M.
  destruct (seq_shape _ _ _ _ _ _ _ M') as [c1 [g1 [M1 M]]]; clear M'.
  destruct (seq_shape _ _ _ _ _ _ _ M) as [c2 [g2 [M2 _]]]; clear M.
  assert (Mk : matches IC_DOTALL (WordB ;; Lit "SELECT" ;; WordB)%re
                 c g c2 g2).
  { eapply MSeq; [exact M0 | ]. eapply MSeq; [exact M1 | exact M2]. }
  exact (proj1 (select_keyword_matches _ _ _ _ Mk)).
Qed.





(** ** Where a statement match ends *)

(** Lazy repetition passes no position where the rest of the pattern
    matches. *)
Lemma rep_lazy_minimal (p : ascii -> bool) (k : cursor -> option result)
    (ahd : text) :
  forall bef res,
    rep_lazy p k 0 bef ahd = Some res ->
    exists w t,
      ahd = w ++ t /\ k (Cursor (rev w ++ bef) t) = Some res /\
      forall w1 w2, w = w1 ++ w2 -> w2 <> [] ->
                    k (Cursor (rev w1 ++ bef) (w2 ++ t)) = None.
Proof.
  induction ahd as [| a t IH]; intros bef res H; cbn [rep_lazy] in H.
  - destruct (k (Cursor bef [])) as [r |] eqn:E; [ | discriminate H].
    exists [], []. repeat split; [now rewrite <- H | ].
    intros w1 w2 Hw Hne. destruct w1, w2; try discriminate Hw.
    now contradiction Hne.
  - destruct (k (Cursor bef (a :: t))) as [r |] eqn:E.
    + exists [], (a :: t). repeat split; [now rewrite <- H | ].
      intros w1 w2 Hw Hne. destruct w1, w2; try discriminate Hw.
      now contradiction Hne.
    + destruct (p a); [ | discriminate H]. cbn [Nat.pred] in H.
      destruct (IH _ _ H) as [w [t' [-> [Hk Hmin]]]].
      exists (a :: w), t'. cbn [rev]. rewrite <- app_assoc.
      repeat split; [exact Hk | ].
      intros w1 w2 Hw Hne. destruct w1 as [| b w1].
      * cbn [app rev] in *. subst w2. exact E.
      * cbn [app] in Hw. injection Hw as <- ->.
        cbn [rev]. rewrite <- app_assoc. cbn [app].
        exact (Hmin w1 w2 eq_refl Hne).
Qed.

Lemma none_for_intro (q : text -> text -> bool) (w : text) :
  forall bef t,
    (forall w1 w2, w = w1 ++ w2 -> w2 <> [] ->
                   q (rev w1 ++ bef) (w2 ++ t) = false) ->
    none_for q (List.length w) bef (w ++ t) = true.
Proof.
  induction w as [| a w IH]; intros bef t H; [reflexivity | ].
  cbn [List.length none_for app].
  pose proof (H [] (a :: w) eq_refl ltac:(discriminate)) as E0.
  cbn [rev app] in E0. rewrite E0. cbn [negb andb].
  apply IH. intros w1 w2 Hw Hne.
  pose proof (H (a :: w1) w2 ltac:(now rewrite Hw) Hne) as E.
  cbn [rev] in E. now rewrite <- app_assoc in E.
Qed.

(** The part of the matcher's run that a prefix of the pattern accounts
    for. *)
Lemma run_seq_sound (fl : flags) (r1 r2 : regex)
    (k : cursor -> groups -> option result) (c : cursor) (g : groups)
    (res : result) :
  run fl (Seq r1 r2) k c g = Some res ->
  exists c1 g1, matches fl r1 c g c1 g1 /\ run fl r2 k c1 g1 = Some res.
Proof. intros H. cbn [run] in H. now apply run_sound in H. Qed.

(** A statement match ends at the first place after its table where a
    statement may end: the remainder runs over no SELECT. *)
Lemma sql_stmt_rest_bounded (s : text) (m : rmatch) :
  In m (finditer IC_DOTALL SQL_STMT_RE s) ->
  exists head rest_ tail_,
    s = head ++ rest_ ++ tail_ /\
    get_group "rest" (m_groups m)
    = Some (List.length head, List.length (head ++ rest_)) /\
    m_end m = List.length (head ++ rest_) /\
    statement_end_at (rev (head ++ rest_)) tail_ = true /\
    none_for statement_end_at (List.length rest_) (rev head)
      (rest_ ++ tail_) = true.
Proof.
  intros Hm. apply finditer_from_In in Hm.
  destruct Hm as [w [t [c' [Hs [_ [Hrun He]]]]]].
  unfold SQL_STMT_RE in Hrun.
  set (c0 := Cursor (rev w ++ []) t) in Hrun.
  assert (S0 : subject c0 = s).
  { unfold subject, c0. cbn [before ahead].
    now rewrite app_nil_r, rev_involutive, <- Hs. }
  repeat match type of Hrun with
         | run _ (Seq _ (Seq _ _)) _ ?c _ = Some _ =>
             let c1 := fresh "c" in
             let g1 := fresh "g" in
             let M := fresh "M" in
             let S := fresh "S" in
             apply run_seq_sound in Hrun;
             destruct Hrun as [c1 [g1 [M Hrun]]];
             assert (S : subject c1 = s)
               by (destruct (matches_reaches _ _ _ _ _ _ M) as [? R];
                   rewrite (reaches_subject _ _ _ R); assumption);
             clear M
         end.
  match type of Hrun with
  | run _ (Seq _ ?L) _ ?c _ = _ => remember L as la eqn:El; rename c into cr
  end.
  cbn [run] in Hrun.
  apply rep_lazy_minimal in Hrun.
  destruct Hrun as [wr [tr [Ha [Hk Hmin]]]].
  cbv beta in Hk. rewrite El, lookahead_run in Hk. cbn [before ahead] in Hk.
  destruct (statement_end_at (rev wr ++ before cr) tr) eqn:Eend;
    [ | discriminate Hk].
  unfold accept in Hk. injection Hk as <- <-.
  assert (Hsub : s = rev (before cr) ++ wr ++ tr).
  { match goal with S : subject cr = s |- _ => rewrite <- S end.
    unfold subject. now rewrite Ha. }
  exists (rev (before cr)), wr, tr.
  assert (Hl : List.length (rev (before cr) ++ wr)
               = List.length (rev wr ++ before cr))
    by (rewrite !length_app, !length_rev; lia).
  repeat match goal with |- _ /\ _ => split end.
  - exact Hsub.
  - cbn [m_groups get_group String.eqb Ascii.eqb Bool.eqb].
    unfold pos. cbn [before]. now rewrite Hl, length_rev.
  - rewrite He. unfold pos. cbn [before]. now rewrite Hl.
  - now rewrite rev_app_distr, rev_involutive.
  - apply none_for_intro. intros w1 w2 Hw Hne.
    rewrite rev_involutive.
    specialize (Hmin w1 w2 Hw Hne). cbv beta in Hmin.
    rewrite El, lookahead_run in Hmin. cbn [before ahead] in Hmin.
    destruct (statement_end_at (rev w1 ++ before cr) (w2 ++ tr));
      [discriminate Hmin | reflexivity].
Qed.

(** C1. A statement match ends at the first place after its table where a
    statement may end, the next SELECT or the end of the text, so its
    remainder runs over no SELECT.  Its selection list has no such bound:
    on two consecutive statements of which only the second reads a watched
    table, the one match starts at the SELECT of the first statement, its
    selection list runs over the first statement and the SELECT of the
    second, and MEGRU, selected from ZTAB, is reported as a field of MARC
    with a span over both statements.  With the statements in the other
    order the match ends before the second SELECT. *)
Theorem statement_match_bounds :
  (let code := "SELECT MEGRU FROM ZTAB. SELECT MATNR FROM MARC." in
   map (fun m => (span m, to_string (group (of_string code) m "select_part"),
                  to_string (group (of_string code) m "table")))
       (finditer IC_DOTALL SQL_STMT_RE (of_string code))
   = [((0, 47), " MEGRU FROM ZTAB. SELECT MATNR ", "MARC")] /\
   scan_sql code
   = [Finding (Some "MARC") "MEGRU" (0, 47) (note_for "MARC" "MEGRU")] /\
   to_string (slice 0 23 (of_string code)) = "SELECT MEGRU FROM ZTAB.") /\
  (let code := "SELECT MEGRU FROM MARC. SELECT MATNR FROM ZTAB." in
   scan_sql code
   = [Finding (Some "MARC") "MEGRU" (0, 24) (note_for "MARC" "MEGRU")] /\
   to_string (slice 0 24 (of_string code)) = "SELECT MEGRU FROM MARC. ") /\
  (forall (code : string) (m : rmatch),
     In m (finditer IC_DOTALL SQL_STMT_RE (of_string code)) ->
     exists head rest_ tail_,
       of_string code = head ++ rest_ ++ tail_ /\
       get_group "rest" (m_groups m)
       = Some (List.length head, List.length (head ++ rest_)) /\
       m_end m = List.length (head ++ rest_) /\
       statement_end_at (rev (head ++ rest_)) tail_ = true /\
       none_for statement_end_at (List.length rest_) (rev head)
         (rest_ ++ tail_) = true).
Proof.
  split; [vm_compute; repeat split | split; [vm_compute; repeat split | ]].
  intros code m. apply sql_stmt_rest_bounded.
Qed.

Lemma statement_match_bounds_witness :
  exists head rest_ tail_,
    of_string "SELECT MEGRU FROM MARC. SELECT MATNR FROM ZTAB."
    = head ++ rest_ ++ tail_ /\
    Some (22, 24) = Some (List.length head, List.length (head ++ rest_)) /\
    24 = List.length (head ++ rest_) /\
    statement_end_at (rev (head ++ rest_)) tail_ = true /\
    none_for statement_end_at (List.length rest_) (rev head)
      (rest_ ++ tail_) = true.
Proof.
  exact (proj2 (proj2 statement_match_bounds)
           "SELECT MEGRU FROM MARC. SELECT MATNR FROM ZTAB."
           (RMatch 0 24 [("rest", (22, 24)); ("table", (18, 22));
                         ("select_part", (6, 13))])
           ltac:(vm_compute; left; reflexivity)).
Defined.

(** ** The derived registry tables *)

Lemma field_table_map_key (t f : string) (flds : list string) :
  dict_get OBSOLETE_FIELDS t = Some flds -> In f flds ->
  dict_lookup (t ++ "-" ++ f)%string FIELD_TABLE_MAP = Some (t, f).
Proof.
  intros Hd Hin.
  destruct (dict_get_inv _ _ Hd) as [[-> ->] | [-> ->]];
    unfold MARC_FIELDS, MARD_FIELDS in Hin; simpl in Hin;
    repeat (destruct Hin as [<- | Hin]; [reflexivity | ]);
    contradiction.
Qed.

(** X1. [FIELD_TABLE_MAP] and [OBSOLETE_FIELDNAMES] say what the registry
    says: the key TABLE-FIELD leads to the pair (TABLE, FIELD) exactly for
    the obsolete fields of the watched tables, and a name is in the
    flattened set exactly when some table has it as an obsolete field.  No
    name is listed twice, so the set has as many names as the map has
    keys. *)
Theorem derived_tables_agree :
  (forall t f : string,
     dict_lookup (t ++ "-" ++ f)%string FIELD_TABLE_MAP = Some (t, f)
     <-> is_obsolete t f = true) /\
  (forall f : string,
     In f OBSOLETE_FIELDNAMES <-> exists t, is_obsolete t f = true) /\
  NoDup OBSOLETE_FIELDNAMES /\
  List.length FIELD_TABLE_MAP = List.length OBSOLETE_FIELDNAMES.
Proof.
  split; [ | split; [ | split; [ | reflexivity]]]; cycle 2.
  { assert (E : nodup string_dec OBSOLETE_FIELDNAMES = OBSOLETE_FIELDNAMES)
      by (vm_compute; reflexivity).
    rewrite <- E. apply NoDup_nodup. }
  - intros t f. split.
    + intros H.
      let v := eval vm_compute in FIELD_TABLE_MAP in
      change FIELD_TABLE_MAP with v in H.
      cbn [dict_lookup] in H.
      repeat match type of H with
             | (if ?b then _ else _) = _ =>
                 destruct b; [injection H as <- <-; reflexivity | ]
             end.
      discriminate H.
    + intros H. destruct (is_obsolete_inv _ _ H) as [flds [Hd Hin]].
      exact (field_table_map_key _ _ _ Hd Hin).
  - intros f. split.
    + intros H. unfold OBSOLETE_FIELDNAMES, OBSOLETE_FIELDS in H.
      cbn [flat_map snd app In] in H.
      do 8 (destruct H as [<- | H]; [exists "MARC"; reflexivity | ]).
      do 4 (destruct H as [<- | H]; [exists "MARD"; reflexivity | ]).
      contradiction.
    + intros [t H]. destruct (is_obsolete_inv _ _ H) as [flds [Hd Hin]].
      destruct (dict_get_inv _ _ Hd) as [[-> ->] | [-> ->]];
        unfold MARC_FIELDS, MARD_FIELDS in Hin; simpl in Hin;
        repeat (destruct Hin as [<- | Hin]; [vm_compute; tauto | ]);
        contradiction.
Qed.

(** ** Spans stay inside the text *)

Lemma finditer_bounds (fl : flags) (r : regex) (s : text) (m : rmatch) :
  In m (finditer fl r s) -> m_start m <= m_end m <= List.length s.
Proof.
  intros Hm. destruct (finditer_In _ _ _ _ Hm) as [c [c' [Hs [Hp [Hp' M]]]]].
  destruct (matches_reaches _ _ _ _ _ _ M) as [w R].
  pose proof (reaches_pos _ _ _ R) as Hpos.
  pose proof (reaches_subject _ _ _ R) as Hsub.
  rewrite <- Hp, <- Hp', <- Hs, <- Hsub. split; [lia | ].
  unfold subject, pos. rewrite length_app, length_rev. lia.
Qed.

Lemma slice_length (i j : nat) (s : text) :
  List.length (slice i j s) <= List.length s.
Proof.
  unfold slice. rewrite length_firstn, length_skipn. lia.
Qed.

Lemma group_length (s : text) (m : rmatch) (n : string) :
  List.length (group s m n) <= List.length s.
Proof.
  unfold group. destruct (get_group n (m_groups m)) as [[i j] |];
    [apply slice_length | simpl; lia].
Qed.

Lemma of_string_length (code : string) :
  List.length (of_string code) = String.length code.
Proof. induction code as [| a code IH]; simpl; congruence. Qed.

Lemma qualified_hits_span (zone : text) (f : finding) :
  In f (qualified_hits zone) ->
  exists fm, In fm (finditer IC QUALIFIED_FIELD_RE zone) /\
             fspan f = span fm /\
             is_obsolete (to_string (upper (group zone fm "table")))
                         (to_string (upper (group zone fm "field"))) = true /\
             table f = Some (to_string (upper (group zone fm "table"))) /\
             field f = to_string (upper (group zone fm "field")).
Proof.
  unfold qualified_hits. rewrite in_flat_map. intros [fm [Hfm Hf]].
  unfold qualified_hit in Hf. destruct (is_obsolete _ _) eqn:Ho;
    [ | contradiction].
  destruct Hf as [<- | []]. exists fm. auto.
Qed.

Lemma scan_stmt_span (s : text) (m : rmatch) (f : finding) :
  In f (scan_stmt s m) ->
  fspan f = span m \/
  In f (qualified_hits (group s m "select_part")) \/
  In f (qualified_hits (group s m "rest")).
Proof.
  unfold scan_stmt. rewrite !in_app_iff, in_flat_map.
  intros [H | [[tok [_ H]] | H]]; auto.
  left. unfold unqualified_hit in H.
  destruct (mem _ _); [ | contradiction]. now destruct H as [<- | []].
Qed.

Lemma finding_span_bounds (code : string) (f : finding) :
  In f (scan_sql code) \/ In f (scan_declarations code) ->
  fst (fspan f) < snd (fspan f) <= String.length code.
Proof.
  rewrite <- of_string_length.
  assert (Hfit : forall r fl zone fm,
            consumes r = true -> In fm (finditer fl r zone) ->
            List.length zone <= List.length (of_string code) ->
            fst (span fm) < snd (span fm) <= List.length (of_string code)).
  { intros r fl zone fm Hc Hfm Hz. unfold span. cbn [fst snd].
    pose proof (finditer_nonempty _ _ _ _ Hc Hfm).
    pose proof (finditer_bounds _ _ _ _ Hfm). lia. }
  intros [H | H].
  - unfold scan_sql in H. apply in_flat_map in H. destruct H as [m [Hm H]].
    destruct (scan_stmt_span _ _ _ H) as [E | [Hq | Hq]].
    + rewrite E. now apply (Hfit SQL_STMT_RE IC_DOTALL (of_string code)).
    + destruct (qualified_hits_span _ _ Hq) as [fm [Hfm [E _]]]. rewrite E.
      apply (Hfit QUALIFIED_FIELD_RE IC _ fm eq_refl Hfm).
      apply group_length.
    + destruct (qualified_hits_span _ _ Hq) as [fm [Hfm [E _]]]. rewrite E.
      apply (Hfit QUALIFIED_FIELD_RE IC _ fm eq_refl Hfm).
      apply group_length.
  - unfold scan_declarations in H. rewrite in_app_iff, !in_flat_map in H.
    destruct H as [[fm [Hfm H]] | [fm [Hfm H]]].
    + unfold decl_qual_hit in H. destruct (is_obsolete _ _); [ | contradiction].
      destruct H as [<- | []]. cbn [fspan].
      now apply (Hfit DECLARATION_QUAL_RE IC (of_string code)).
    + unfold decl_de_hit in H. destruct (mem _ _); [ | contradiction].
      destruct H as [<- | []]. cbn [fspan].
      now apply (Hfit DECLARATION_DE_RE IC (of_string code)).
Qed.

Lemma finding_span_nonempty (code : string) (f : finding) :
  In f (scan_sql code) \/ In f (scan_declarations code) ->
  fst (fspan f) < snd (fspan f).
Proof. intros H. exact (proj1 (finding_span_bounds code f H)). Qed.

(** X2. Every finding of [scan_sql] and of [scan_declarations] has a span
    that is not empty and ends inside the text: slicing the text with it
    never runs out of range. *)
Theorem finding_span_in_text (code : string) (f : finding) :
  In f (scan_sql code) \/ In f (scan_declarations code) ->
  fst (fspan f) < snd (fspan f) <= String.length code.
Proof. exact (finding_span_bounds code f). Qed.

Lemma finding_span_in_text_witness :
  fst (1, 11) < snd (1, 11) <= String.length "SELECT MARC-MEGRU FROM MARC.".
Proof.
  apply (finding_span_in_text "SELECT MARC-MEGRU FROM MARC."
           (Finding (Some "MARC") "MEGRU" (1, 11) (note_for "MARC" "MEGRU"))).
  left. vm_compute. left. reflexivity.
Defined.

(** ** Findings of the declaration matcher never overlap *)

(** The match objects of [finditer] come in text order, none starting
    before the one before it has ended. *)
Lemma finditer_from_ordered (fl : flags) (r : regex) (ahd : text) :
  forall bef skip,
    Forall (fun m => List.length bef + skip <= m_start m)
           (finditer_from fl r bef ahd skip) /\
    ForallOrdPairs (fun m1 m2 => m_end m1 <= m_start m2)
                   (finditer_from fl r bef ahd skip).
Proof.
  induction ahd as [| a t IH]; intros bef skip.
  - destruct skip; cbn [finditer_from].
    + destruct (run fl r accept (Cursor bef []) []) as [[c' g] |].
      * split; repeat constructor. cbn [m_start]. lia.
      * split; constructor.
    + split; constructor.
  - assert (Hrec : forall n,
              Forall (fun m => List.length bef + S n <= m_start m)
                     (finditer_from fl r (a :: bef) t n) /\
              ForallOrdPairs (fun m1 m2 => m_end m1 <= m_start m2)
                             (finditer_from fl r (a :: bef) t n)).
    { intros n. destruct (IH (a :: bef) n) as [H1 H2]. split; [ | exact H2].
      eapply Forall_impl; [ | exact H1].
      intros m Hm. cbn [List.length] in Hm. lia. }
    destruct skip as [| n]; cbn [finditer_from]; [ | apply Hrec].
    destruct (run fl r accept (Cursor bef (a :: t)) []) as [[c' g] |].
    + destruct (Hrec (pos c' - List.length bef - 1)) as [H1 H2]. split.
      * constructor; [cbn [m_start]; lia | ].
        eapply Forall_impl; [ | exact H1]. intros m Hm. cbv beta in Hm. lia.
      * constructor; [ | exact H2].
        eapply Forall_impl; [ | exact H1]. intros m Hm. cbv beta in Hm.
        cbn [m_end]. lia.
    + destruct (Hrec 0) as [H1 H2]. split; [ | exact H2].
      eapply Forall_impl; [ | exact H1]. intros m Hm. cbv beta in Hm. lia.
Qed.

Lemma finditer_ordered (fl : flags) (r : regex) (s : text) :
  ForallOrdPairs (fun m1 m2 => m_end m1 <= m_start m2) (finditer fl r s).
Proof. exact (proj2 (finditer_from_ordered fl r s [] 0)). Qed.

(** A loop that appends at most one finding per match object, with the
    span of the match, yields findings in text order. *)
Lemma hits_ordered (h : rmatch -> list finding) (ms : list rmatch) :
  (forall m f, In f (h m) -> fspan f = span m) ->
  (forall m, List.length (h m) <= 1) ->
  ForallOrdPairs (fun m1 m2 => m_end m1 <= m_start m2) ms ->
  ForallOrdPairs (fun f1 f2 => snd (fspan f1) <= fst (fspan f2))
                 (flat_map h ms).
Proof.
  intros Hspan Hone Hms.
  induction Hms as [| m ms Hm _ IH]; cbn [flat_map]; [constructor | ].
  pose proof (Hone m) as Hl. pose proof (Hspan m) as Hsp.
  destruct (h m) as [| f [| f' l]]; cbn [app].
  - exact IH.
  - constructor; [ | exact IH].
    apply Forall_forall. intros f2 Hf2. apply in_flat_map in Hf2.
    destruct Hf2 as [m2 [Hm2 Hf2]].
    rewrite (Hsp f (or_introl eq_refl)), (Hspan m2 f2 Hf2).
    cbn [span fst snd]. rewrite Forall_forall in Hm. now apply Hm.
  - simpl in Hl. lia.
Qed.

Lemma ordered_pairs_app {A : Type} (R : A -> A -> Prop) (l1 l2 : list A) :
  ForallOrdPairs R l1 -> ForallOrdPairs R l2 ->
  (forall x y, In x l1 -> In y l2 -> R x y) ->
  ForallOrdPairs R (l1 ++ l2).
Proof.
  intros H1 H2 Hx. induction H1 as [| a l Ha _ IH]; cbn [app]; [exact H2 | ].
  constructor.
  - apply Forall_app. split; [exact Ha | ].
    apply Forall_forall. intros y Hy. apply Hx; [now left | exact Hy].
  - apply IH. intros x y Hin. apply Hx. now right.
Qed.

Lemma ordered_pairs_impl {A : Type} (R R' : A -> A -> Prop) (l : list A) :
  (forall x y, R x y -> R' x y) ->
  ForallOrdPairs R l -> ForallOrdPairs R' l.
Proof.
  intros Himp H. induction H as [| a l Ha _ IH]; constructor; [ | exact IH].
  eapply Forall_impl; [ | exact Ha]. intros y. apply Himp.
Qed.

Lemma decl_qual_hits_ordered (s : text) :
  ForallOrdPairs (fun f1 f2 => snd (fspan f1) <= fst (fspan f2))
    (flat_map (decl_qual_hit s) (finditer IC DECLARATION_QUAL_RE s)).
Proof.
  apply hits_ordered; [ | | apply finditer_ordered].
  - intros m f. unfold decl_qual_hit.
    destruct (is_obsolete _ _); [ | contradiction]. now intros [<- | []].
  - intros m. unfold decl_qual_hit. destruct (is_obsolete _ _); simpl; lia.
Qed.

Lemma decl_de_hits_ordered (s : text) :
  ForallOrdPairs (fun f1 f2 => snd (fspan f1) <= fst (fspan f2))
    (flat_map (decl_de_hit s) (finditer IC DECLARATION_DE_RE s)).
Proof.
  apply hits_ordered; [ | | apply finditer_ordered].
  - intros m f. unfold decl_de_hit.
    destruct (mem _ _); [ | contradiction]. now intros [<- | []].
  - intros m. unfold decl_de_hit. destruct (mem _ _); simpl; lia.
Qed.

(** X3. No two findings of [scan_declarations] overlap: the spans of any
    two entries of its result have no offset in common, so no two entries
    carry the same span. *)
Theorem declaration_findings_pairwise_disjoint (code : string) :
  ForallOrdPairs (fun f1 f2 => disjoint (fspan f1) (fspan f2))
                 (scan_declarations code) /\
  NoDup (map fspan (scan_declarations code)).
Proof.
  assert (H : ForallOrdPairs (fun f1 f2 => disjoint (fspan f1) (fspan f2))
                (scan_declarations code)).
  { unfold scan_declarations. apply ordered_pairs_app.
    - eapply ordered_pairs_impl; [ | apply decl_qual_hits_ordered].
      intros x y Hxy. now left.
    - eapply ordered_pairs_impl; [ | apply decl_de_hits_ordered].
      intros x y Hxy. now left.
    - intros x y Hx Hy. exact (decl_findings_disjoint _ _ _ Hx Hy). }
  split; [exact H | ].
  assert (Hne : forall f, In f (scan_declarations code) ->
                          fst (fspan f) < snd (fspan f)).
  { intros f Hf. apply (finding_span_nonempty code f). now right. }
  revert H Hne. generalize (scan_declarations code) as l.
  induction l as [| f l IH]; intros H Hne; cbn [map]; [constructor | ].
  inversion H as [| ? ? Hf Hl]; subst. constructor.
  - intros Hin. apply in_map_iff in Hin. destruct Hin as [f2 [E Hf2]].
    rewrite Forall_forall in Hf. specialize (Hf f2 Hf2).
    pose proof (Hne f (or_introl eq_refl)) as Hn.
    unfold disjoint in Hf. rewrite E in Hf. lia.
  - apply IH; [exact Hl | ]. intros f2 Hf2. apply Hne. now right.
Qed.

(** ** The tokens of the selection list *)

Lemma field_sep_mem (a : ascii) :
  cset_mem NOFLAGS (CUnion (CChar ",") CSpace) a = is_sep a.
Proof. reflexivity. Qed.

Lemma rep_greedy_zero_total (p : ascii -> bool)
    (k : cursor -> option result) (ahd : text) :
  (forall c, k c <> None) ->
  forall bef, rep_greedy p k 0 bef ahd <> None.
Proof.
  intros Hk. induction ahd as [| a t IH]; intros bef; cbn [rep_greedy].
  - apply Hk.
  - destruct (p a); [ | apply Hk].
    cbn [Nat.pred]. specialize (IH (a :: bef)).
    destruct (rep_greedy p k 0 (a :: bef) t); [discriminate | contradiction].
Qed.

(** The separator pattern at a position: it matches exactly when a
    separator stands there, and then it covers separators only. *)
Lemma field_sep_run (bef ahd : text) :
  match run NOFLAGS FIELD_SEP_RE accept (Cursor bef ahd) [] with
  | Some (c', _) =>
      exists w t, ahd = w ++ t /\ 1 <= List.length w /\
                  forallb is_sep w = true /\
                  pos c' = List.length bef + List.length w
  | None => match ahd with a :: _ => is_sep a = false | [] => True end
  end.
Proof.
  destruct (run NOFLAGS FIELD_SEP_RE accept (Cursor bef ahd) [])
    as [[c' g] |] eqn:E.
  - unfold FIELD_SEP_RE in E. cbn [run before ahead] in E.
    apply rep_greedy_sound in E.
    destruct E as [w [t [Ha [Hw [Hl Hk]]]]].
    unfold accept in Hk. injection Hk as <- <-.
    exists w, t. repeat split; auto.
    unfold pos. cbn [before]. rewrite length_app, length_rev. lia.
  - destruct ahd as [| a t]; [exact I | ].
    unfold FIELD_SEP_RE in E. cbn [run before ahead rep_greedy] in E.
    rewrite field_sep_mem in E. destruct (is_sep a); [ | reflexivity].
    exfalso. cbn [Nat.pred] in E.
    pose proof (rep_greedy_zero_total
                  (cset_mem NOFLAGS (CUnion (CChar ",") CSpace))
                  (fun c' => accept c' []) t
                  ltac:(intros c; discriminate) (a :: bef)) as Hne.
    destruct (rep_greedy _ _ 0 (a :: bef) t); [discriminate E | ].
    now apply Hne.
Qed.

Lemma slice_snoc (bef : text) (a : ascii) (t : text) (from : nat) :
  from <= List.length bef ->
  slice from (S (List.length bef)) (rev bef ++ a :: t)
  = slice from (List.length bef) (rev bef ++ a :: t) ++ [a].
Proof.
  intros H. unfold slice. rewrite <- (length_rev bef) in *.
  set (pre := rev bef) in *.
  rewrite skipn_app. replace (from - List.length pre) with 0 by lia.
  cbn [skipn].
  replace (S (List.length pre) - from)
    with (List.length (skipn from pre) + 1)
    by (rewrite length_skipn; lia).
  replace (List.length pre - from) with (List.length (skipn from pre) + 0)
    by (rewrite length_skipn; lia).
  now rewrite !firstn_app_2, firstn_O, app_nil_r.
Qed.

Lemma slice_empty (i j : nat) (s : text) : j <= i -> slice i j s = [].
Proof.
  intros H. unfold slice. replace (j - i) with 0 by lia. reflexivity.
Qed.

(** Cutting at the separator matches loses nothing but separators. *)
Lemma pieces_concat (s : text) (ahd : text) :
  forall bef skip from,
    rev bef ++ ahd = s ->
    skip <= List.length ahd ->
    forallb is_sep (firstn skip ahd) = true ->
    from <= List.length bef + skip ->
    (0 < skip -> from = List.length bef + skip) ->
    List.concat (pieces s from (finditer_from NOFLAGS FIELD_SEP_RE bef ahd skip))
    = slice from (List.length bef) s
      ++ filter (fun a => negb (is_sep a)) ahd.
Proof.
  induction ahd as [| a t IH]; intros bef skip from Hs Hsk Hsep Hfrom Hpos.
  - cbn [List.length] in Hsk. assert (skip = 0) as -> by lia.
    cbn [finditer_from]. pose proof (field_sep_run bef []) as Hr.
    destruct (run NOFLAGS FIELD_SEP_RE accept (Cursor bef []) [])
      as [[c' g] |].
    + destruct Hr as [w [t [Ha [Hl _]]]]. destruct w; [simpl in Hl; lia | ].
      discriminate Ha.
    + cbn [pieces List.concat filter]. rewrite !app_nil_r.
      f_equal. rewrite <- Hs, app_nil_r. apply length_rev.
  - assert (Hs' : rev (a :: bef) ++ t = s)
      by (cbn [rev]; now rewrite <- app_assoc).
    destruct skip as [| n].
    + cbn [finditer_from]. pose proof (field_sep_run bef (a :: t)) as Hr.
      destruct (run NOFLAGS FIELD_SEP_RE accept (Cursor bef (a :: t)) [])
        as [[c' g] |].
      * destruct Hr as [w [t' [Ha [Hl [Hw Hp]]]]].
        destruct w as [| b w]; [simpl in Hl; lia | ].
        cbn [app] in Ha. injection Ha as <- ->.
        cbn [forallb] in Hw. apply andb_true_iff in Hw.
        destruct Hw as [Hb Hw].
        cbn [pieces List.concat m_start m_end filter]. rewrite Hb. cbn [negb].
        f_equal.
        rewrite (IH (a :: bef) (pos c' - List.length bef - 1) (pos c') Hs').
        -- rewrite slice_empty; [reflexivity | ].
           rewrite Hp. cbn [List.length]. lia.
        -- rewrite Hp, length_app. cbn [List.length]. lia.
        -- rewrite Hp. cbn [List.length].
           replace (List.length bef + S (List.length w)
                    - List.length bef - 1) with (List.length w + 0) by lia.
           now rewrite firstn_app_2, firstn_O, app_nil_r.
        -- rewrite Hp. cbn [List.length]. lia.
        -- intros _. rewrite Hp. cbn [List.length]. lia.
      * rewrite (IH (a :: bef) 0 from Hs'); cbn [List.length firstn forallb];
          try lia; try reflexivity.
        cbn [filter]. rewrite Hr. cbn [negb]. rewrite <- Hs.
        rewrite (slice_snoc bef a t from ltac:(lia)).
        now rewrite <- app_assoc.
    + cbn [finditer_from]. cbn [firstn forallb] in Hsep.
      apply andb_true_iff in Hsep. destruct Hsep as [Ha Hsep].
      cbn [List.length] in Hsk.
      rewrite (IH (a :: bef) n from Hs'); cbn [List.length];
        try lia; try assumption.
      cbn [filter]. rewrite Ha. cbn [negb].
      rewrite !slice_empty by (cbn [List.length]; lia). reflexivity.
Qed.

Lemma filter_lstrip (s : text) :
  filter (fun a => negb (is_sep a)) (lstrip s)
  = filter (fun a => negb (is_sep a)) s.
Proof.
  induction s as [| a s IH]; [reflexivity | ].
  cbn [lstrip]. destruct (is_space a) eqn:E; [ | reflexivity].
  cbn [filter]. unfold is_sep at 2. rewrite E, orb_true_r. cbn [negb].
  exact IH.
Qed.

Lemma filter_strip (s : text) :
  filter (fun a => negb (is_sep a)) (strip s)
  = filter (fun a => negb (is_sep a)) s.
Proof.
  unfold strip, rstrip.
  rewrite filter_rev, filter_lstrip, filter_rev, rev_involutive.
  apply filter_lstrip.
Qed.

(** Every text starts with a longest run of separators. *)
Lemma sep_prefix (p : ascii -> bool) (s : text) :
  exists w t, s = w ++ t /\ forallb p w = true /\ stops p t.
Proof.
  induction s as [| a s [w [t [-> [Hw Ht]]]]].
  - exists [], []. repeat split.
  - destruct (p a) eqn:E.
    + exists (a :: w), t. cbn [forallb app]. rewrite E. repeat split; auto.
    + exists [], (a :: w ++ t). repeat split. exact E.
Qed.

(** The separator pattern takes the whole run of separators it stands at,
    and fails where none stands. *)
Lemma field_sep_run_max (bef w t : text) :
  forallb is_sep w = true -> stops is_sep t ->
  run NOFLAGS FIELD_SEP_RE accept (Cursor bef (w ++ t)) []
  = match w with
    | [] => None
    | _ :: _ => Some (Cursor (rev w ++ bef) t, [])
    end.
Proof.
  intros Hw Ht. destruct w as [| b w].
  - cbn [app]. pose proof (field_sep_run bef t) as Hr.
    destruct (run NOFLAGS FIELD_SEP_RE accept (Cursor bef t) [])
      as [[c' g] |]; [ | reflexivity].
    destruct Hr as [w' [t' [-> [Hl [Hw' _]]]]].
    destruct w' as [| a w']; [simpl in Hl; lia | ].
    cbn [app stops forallb] in Ht, Hw'. rewrite Ht in Hw'. discriminate Hw'.
  - unfold FIELD_SEP_RE. cbn [run before ahead].
    apply rep_greedy_complete.
    + exact Hw.
    + destruct t as [| a t]; [exact I | exact Ht].
    + cbn [List.length]. lia.
    + reflexivity.
Qed.

(** Cutting at the separator matches gives the pieces between the runs of
    separators. *)
Lemma pieces_cut (s : text) (ahd : text) :
  forall bef skip from,
    rev bef ++ ahd = s ->
    skip <= List.length ahd ->
    from <= List.length bef + skip ->
    (0 < skip -> from = List.length bef + skip) ->
    forallb (fun a => negb (is_sep a)) (slice from (List.length bef) s)
    = true ->
    cut_at_separators
      (slice from (List.length bef) s ++ skipn skip ahd)
      (pieces s from (finditer_from NOFLAGS FIELD_SEP_RE bef ahd skip)).
Proof.
  induction ahd as [| a t IH]; intros bef skip from Hs Hsk Hfrom Hpos Hcur.
  - cbn [List.length] in Hsk. assert (skip = 0) as -> by lia.
    cbn [finditer_from skipn].
    pose proof (field_sep_run_max bef [] [] eq_refl I) as R.
    cbn [app] in R. rewrite R.
    cbn [pieces]. rewrite app_nil_r.
    assert (L : List.length s = List.length bef)
      by (rewrite <- Hs, app_nil_r; apply length_rev).
    rewrite L. now apply CutLast.
  - assert (Hs' : rev (a :: bef) ++ t = s)
      by (cbn [rev]; now rewrite <- app_assoc).
    destruct skip as [| n].
    + cbn [finditer_from skipn].
      destruct (sep_prefix is_sep (a :: t)) as [w [t' [Ha [Hw Ht']]]].
      rewrite Ha, (field_sep_run_max bef w t' Hw Ht').
      destruct w as [| b w].
      * cbn [app] in Ha. subst t'. cbn [stops] in Ht'.
        assert (E : slice from (S (List.length bef)) s
                    = slice from (List.length bef) s ++ [a])
          by (rewrite <- Hs; apply slice_snoc; lia).
        specialize (IH (a :: bef) 0 from Hs').
        cbn [List.length skipn] in IH.
        rewrite E, <- app_assoc, forallb_app in IH. cbn [app forallb] in IH.
        rewrite Hcur, Ht' in IH.
        apply IH; lia || reflexivity.
      * cbn [app] in Ha. injection Ha as <- ->.
        cbn [pieces m_start m_end].
        apply CutMore; auto; [discriminate | ].
        specialize (IH (a :: bef)
                      (pos (Cursor (rev (a :: w) ++ bef) t')
                       - List.length bef - 1)
                      (pos (Cursor (rev (a :: w) ++ bef) t')) Hs').
        unfold pos in IH. cbn [before] in IH.
        rewrite length_app, length_rev in IH. cbn [List.length] in IH.
        replace (S (List.length w) + List.length bef - List.length bef - 1)
          with (List.length w) in IH by lia.
        rewrite slice_empty in IH by lia.
        rewrite skipn_app, skipn_all, Nat.sub_diag in IH.
        cbn [app skipn] in IH.
        unfold pos. cbn [before].
        rewrite length_app, length_rev. cbn [List.length].
        replace (S (List.length w) + List.length bef - List.length bef - 1)
          with (List.length w) by lia.
        apply IH; try (rewrite ?length_app; lia). reflexivity.
    + cbn [finditer_from skipn]. cbn [List.length] in Hsk.
      specialize (IH (a :: bef) n from Hs'). cbn [List.length] in IH.
      rewrite !slice_empty in * by (cbn [List.length]; lia).
      apply IH; try lia. reflexivity.
Qed.

(** A run of [p] characters that cannot be made longer is determined by
    the text it starts. *)
Lemma run_unique (p : ascii -> bool) (t t' x x' : text) :
  forallb p t = true -> forallb p t' = true -> stops p x -> stops p x' ->
  t ++ x = t' ++ x' -> t = t' /\ x = x'.
Proof.
  revert t'. induction t as [| a t IH]; intros t' Ht Ht' Hx Hx' E.
  - destruct t' as [| a' t']; [now split | exfalso].
    cbn [app] in E. subst x. cbn [stops] in Hx. cbn [forallb] in Ht'.
    rewrite Hx in Ht'. discriminate Ht'.
  - destruct t' as [| a' t'].
    + exfalso. cbn [app] in E. subst x'. cbn [stops] in Hx'.
      cbn [forallb] in Ht. rewrite Hx' in Ht. discriminate Ht.
    + cbn [app] in E. injection E as <- E.
      cbn [forallb] in Ht, Ht'.
      apply andb_true_iff in Ht. apply andb_true_iff in Ht'.
      destruct (IH t' (proj2 Ht) (proj2 Ht') Hx Hx' E) as [-> ->].
      now split.
Qed.

Lemma stops_at_separator (sp rest : text) :
  sp <> [] -> forallb is_sep sp = true ->
  stops (fun a => negb (is_sep a)) (sp ++ rest).
Proof.
  intros Hne Hsp. destruct sp as [| b sp]; [contradiction | ].
  cbn [app stops forallb] in *. apply andb_true_iff in Hsp.
  now rewrite (proj1 Hsp).
Qed.

Lemma cut_unique (s : text) (l1 l2 : list text) :
  cut_at_separators s l1 -> cut_at_separators s l2 -> l1 = l2.
Proof.
  intros H1. revert l2.
  induction H1 as [t Ht | t sp rest toks Ht Hne Hsp Hstop _ IH];
    intros l2 H2.
  - inversion H2 as [t' Ht' E | t' sp' rest' toks' Ht' Hne' Hsp' _ _ E];
      [reflexivity | exfalso]. subst.
    rewrite forallb_app in Ht. apply andb_true_iff in Ht.
    destruct Ht as [_ Ht]. rewrite forallb_app in Ht.
    apply andb_true_iff in Ht. destruct Ht as [Ht _].
    destruct sp' as [| b sp']; [contradiction | ].
    cbn [forallb] in Ht, Hsp'.
    apply andb_true_iff in Ht. apply andb_true_iff in Hsp'.
    destruct Ht as [Hb _]. destruct Hsp' as [Hb' _].
    rewrite Hb' in Hb. discriminate Hb.
  - inversion H2 as [t' Ht' E | t' sp' rest' toks' Ht' Hne' Hsp' Hstop' H2' E].
    + exfalso. subst.
      rewrite forallb_app in Ht'. apply andb_true_iff in Ht'.
      destruct Ht' as [_ Ht']. rewrite forallb_app in Ht'.
      apply andb_true_iff in Ht'. destruct Ht' as [Ht' _].
      destruct sp as [| b sp]; [contradiction | ].
      cbn [forallb] in Ht', Hsp.
      apply andb_true_iff in Ht'. apply andb_true_iff in Hsp.
      destruct Ht' as [Hb _]. destruct Hsp as [Hb' _].
      rewrite Hb' in Hb. discriminate Hb.
    + subst.
      destruct (run_unique _ _ _ _ _ Ht' Ht
                  (stops_at_separator _ rest' Hne' Hsp')
                  (stops_at_separator _ rest Hne Hsp) E) as [-> E'].
      destruct (run_unique _ _ _ _ _ Hsp' Hsp Hstop' Hstop E') as [_ ->].
      f_equal. now apply IH.
Qed.

(** X4. The tokens that [scan_sql] takes from a selection list are the
    pieces of the stripped selection list between its runs of commas and
    white space, and nothing else is: the stripped list reads token, run
    of separators, token, ..., with every run as long as it can be and no
    separator inside a token.  So the tokens put together give every
    character of the selection list that is not a separator, in order,
    and no token holds a comma or a white-space character. *)
Theorem selection_list_tokens (select_part : text) :
  cut_at_separators (strip select_part) (fields_raw select_part) /\
  (forall toks : list text,
     cut_at_separators (strip select_part) toks ->
     toks = fields_raw select_part) /\
  List.concat (fields_raw select_part)
  = filter (fun a => negb (is_sep a)) select_part /\
  forall tok, In tok (fields_raw select_part) ->
              forallb (fun a => negb (is_sep a)) tok = true.
Proof.
  assert (C : cut_at_separators (strip select_part) (fields_raw select_part)).
  { unfold fields_raw, split, finditer.
    pose proof (pieces_cut (strip select_part) (strip select_part) [] 0 0
                  eq_refl ltac:(lia) ltac:(cbn; lia) ltac:(lia)) as H.
    cbn [List.length skipn] in H. rewrite slice_empty in H by lia.
    apply H. reflexivity. }
  assert (H : List.concat (fields_raw select_part)
              = filter (fun a => negb (is_sep a)) select_part).
  { unfold fields_raw, split, finditer.
    rewrite (pieces_concat (strip select_part) (strip select_part) [] 0 0);
      cbn [List.length firstn forallb]; try lia; try reflexivity.
    rewrite slice_empty by lia. apply filter_strip. }
  split; [exact C | split; [ | split; [exact H | ]]].
  - intros toks Ht. exact (cut_unique _ _ _ Ht C).
  - intros tok Htok. apply forallb_forall. intros a Ha.
    assert (Hin : In a (List.concat (fields_raw select_part))).
    { apply in_concat. exists tok. now split. }
    rewrite H in Hin. apply filter_In in Hin. now destruct Hin.
Qed.

(** ** The entries of the response *)

Lemma findings_in_registry (code : string) (f : finding) :
  In f (scan_sql code) \/ In f (scan_declarations code) -> registered f.
Proof.
  intros [H | H].
  - unfold scan_sql in H. apply in_flat_map in H. destruct H as [m [_ H]].
    exact (scan_stmt_registered _ _ _ H).
  - unfold scan_declarations in H. rewrite in_app_iff, !in_flat_map in H.
    destruct H as [[fm [_ H]] | [fm [_ H]]].
    + exact (decl_qual_hit_registered _ _ _ H).
    + exact (decl_de_hit_registered _ _ _ H).
Qed.

Lemma to_meta_well_formed (src : string) (f : finding) :
  In f (scan_sql src) \/ In f (scan_declarations src) ->
  well_formed_entry src (to_meta f).
Proof.
  intros H. pose proof (finding_span_bounds src f H) as Hb.
  pose proof (findings_in_registry src f H) as [Hname [_ Ht]].
  unfold well_formed_entry, to_meta.
  cbn [target_type target_name suggested_fields ambiguous
       start_char_in_unit end_char_in_unit sm_table sm_field used_fields].
  repeat match goal with |- _ /\ _ => split end;
    try reflexivity; try lia.
  destruct (table f) as [t |]; [ | now split].
  destruct Ht as [Hwatched [[flds [Hd Hin]] _]].
  split; [ | exact (field_table_map_key _ _ _ Hd Hin)].
  destruct Hwatched as [-> | ->]; reflexivity.
Qed.

(** X5. [remediate_array] answers with one object per unit, in the order of
    the units, each carrying its unit unchanged.  Every entry of its
    [selects] has no target, is not ambiguous, suggests no fields, has
    offsets with start < end <= the length of the unit's text, and names in
    [used_fields] exactly one field: TABLE-FIELD, a key of
    [FIELD_TABLE_MAP], when the entry has a table, and otherwise a name of
    [OBSOLETE_FIELDNAMES]. *)
Theorem response_entries_well_formed (units : list Unit) :
  map unit (remediate_array units) = units /\
  forall r, In r (remediate_array units) ->
            Forall (well_formed_entry (src_of (unit r))) (selects r).
Proof.
  split.
  - unfold remediate_array. rewrite map_map. cbn [remediate_unit unit].
    apply map_id.
  - intros r Hr. unfold remediate_array in Hr. apply in_map_iff in Hr.
    destruct Hr as [u [<- _]]. cbn [remediate_unit unit selects].
    unfold selects_of. apply Forall_app. split; apply Forall_forall;
      intros e He; apply in_map_iff in He; destruct He as [f [<- Hf]];
      apply to_meta_well_formed; [now left | now right].
Qed.

(** ** Where the spans of qualified references count from *)

Lemma qualified_field_shape (c c' : cursor) (g g' : groups) :
  matches IC QUALIFIED_FIELD_RE c g c' g' ->
  exists c1 c2 tb fl,
    reaches c tb c1 /\ reaches c1 (of_string "-") c2 /\ reaches c2 fl c' /\
    (upper tb = of_string "MARC" \/ upper tb = of_string "MARD") /\
    1 <= List.length fl /\ forallb is_ident fl = true /\
    g' = set_group "field" (pos c2, pos c')
           (set_group "table" (pos c, pos c1) g).
Proof.
  intros M. unfold QUALIFIED_FIELD_RE, watched_table in M.
  destruct (seq_shape _ _ _ _ _ _ _ M) as [c0 [g0 [M0 M']]]; clear M.
  destruct (wordb_shape _ _ _ _ _ M0) as [-> [-> _]]; clear M0.
  destruct (seq_shape _ _ _ _ _ _ _ M') as [c1 [g1 [M1 M]]]; clear M'.
  destruct (group_shape _ _ _ _ _ _ _ M1) as [g1' [M1' ->]]; clear M1.
  destruct (alt_lit_shape IC eq_refl "MARC" "MARD" _ _ _ _ eq_refl eq_refl M1')
    as [tb [Rtb [Utb ->]]]; clear M1'.
  destruct (seq_shape _ _ _ _ _ _ _ M) as [c2 [g2 [M2 M']]]; clear M.
  destruct (lit_shape IC eq_refl "-" _ _ _ _ eq_refl M2) as [d [Rd [Ud ->]]];
    clear M2.
  destruct (seq_shape _ _ _ _ _ _ _ M') as [c3 [g3 [M3 M]]]; clear M'.
  destruct (group_shape _ _ _ _ _ _ _ M3) as [g3' [M3' ->]]; clear M3.
  destruct (rep_shape _ _ _ _ _ _ _ _ M3') as [fl [Rfl [Ffl [Lfl ->]]]];
    clear M3'.
  destruct (wordb_shape _ _ _ _ _ M) as [-> [-> _]]; clear M.
  assert (Hd : d = of_string "-").
  { destruct d as [| a [| b d]]; try discriminate Ud.
    injection Ud as Ha. f_equal. revert Ha.
    destruct a as [[] [] [] [] [] [] [] []]; intros Ha;
      solve [reflexivity | discriminate Ha]. }
  subst d.
  exists c1, c2, tb, fl.
  repeat match goal with |- _ /\ _ => split end; auto.
Qed.

Lemma upper_app (u v : text) : upper (u ++ v) = upper u ++ upper v.
Proof. unfold upper. apply map_app. Qed.

(** In the text it was run on, the loop over [QUALIFIED_FIELD_RE] reports
    the span of the reference itself. *)
Lemma qualified_hits_locate (zone : text) (f : finding) :
  In f (qualified_hits zone) -> locates_reference zone 0 f.
Proof.
  intros H. destruct (qualified_hits_span _ _ H)
    as [fm [Hfm [Hsp [_ [Ht Hf]]]]].
  destruct (finditer_In _ _ _ _ Hfm) as [c [c' [Hs [Hp [Hp' M]]]]].
  destruct (qualified_field_shape _ _ _ _ M)
    as [c1 [c2 [tb [fl [Rtb [Rd [Rfl [Utb [Lfl [Ffl Hg]]]]]]]]]].
  assert (S1 : subject c1 = zone)
    by (now rewrite (reaches_subject _ _ _ Rtb)).
  assert (S2 : subject c2 = zone)
    by (now rewrite (reaches_subject _ _ _ Rd)).
  assert (Gt : group zone fm "table" = tb).
  { apply (group_slice zone fm "table" c c1 tb); auto.
    rewrite Hg. reflexivity. }
  assert (Gf : group zone fm "field" = fl).
  { apply (group_slice zone fm "field" c2 c' fl); auto.
    rewrite Hg. reflexivity. }
  exists (to_string (upper tb)). split; [now rewrite Ht, Gt | ].
  rewrite Hsp, Hf, Gf. cbn [span fst snd Nat.add]. rewrite <- Hp, <- Hp', <- Hs.
  rewrite (slice_reaches c c' (tb ++ of_string "-" ++ fl)).
  - rewrite !of_to_string, !upper_app. reflexivity.
  - eapply reaches_trans; [exact Rtb | ].
    eapply reaches_trans; [exact Rd | exact Rfl].
Qed.

Lemma slice_slice (a b i j : nat) (s : text) :
  i + b <= j -> slice a b (slice i j s) = slice (i + a) (i + b) s.
Proof.
  intros H. unfold slice.
  rewrite skipn_firstn_comm, firstn_firstn, skipn_skipn.
  f_equal; [lia | f_equal; lia].
Qed.

Lemma slice_length_le (i j : nat) (s : text) :
  List.length (slice i j s) <= j - i.
Proof. unfold slice. rewrite length_firstn. lia. Qed.

(** The groups of a statement match: the selection list starts after the
    keyword SELECT, the rest ends where the match ends. *)
Lemma sql_stmt_shape (c c' : cursor) (g g' : groups) :
  matches IC_DOTALL SQL_STMT_RE c g c' g' ->
  exists c1 c2 c3 c4 pre tb,
    pos c + 6 = pos c1 /\ pos c1 <= pos c2 /\ pos c2 <= pos c3 /\
    pos c3 <= pos c4 /\ pos c4 <= pos c' /\
    reaches c pre c3 /\ reaches c3 tb c4 /\
    (upper tb = of_string "MARC" \/ upper tb = of_string "MARD") /\
    g' = set_group "rest" (pos c4, pos c')
           (set_group "table" (pos c3, pos c4)
              (set_group "select_part" (pos c1, pos c2) g)).
Proof.
  intros M. unfold SQL_STMT_RE, watched_table in M.
  destruct (seq_shape _ _ _ _ _ _ _ M) as [c0 [g0 [M0 M']]]; clear M.
  destruct (wordb_shape _ _ _ _ _ M0) as [-> [-> _]]; clear M0.
  destruct (seq_shape _ _ _ _ _ _ _ M') as [c1 [g1 [M1 M]]]; clear M'.
  destruct (lit_shape IC_DOTALL eq_refl "SELECT" _ _ _ _ eq_refl M1)
    as [kw [Rkw [Ukw ->]]]; clear M1.
  destruct (seq_shape _ _ _ _ _ _ _ M) as [c1' [g1' [M0 M']]]; clear M.
  destruct (wordb_shape _ _ _ _ _ M0) as [-> [-> _]]; clear M0.
  destruct (seq_shape _ _ _ _ _ _ _ M') as [c2 [g2 [M2 M]]]; clear M'.
  destruct (group_shape _ _ _ _ _ _ _ M2) as [g2' [M2' ->]]; clear M2.
  destruct (rep_shape _ _ _ _ _ _ _ _ M2') as [sel [Rsel [_ [_ ->]]]];
    clear M2'.
  destruct (seq_shape _ _ _ _ _ _ _ M) as [c2' [g2' [M0 M']]]; clear M.
  destruct (wordb_shape _ _ _ _ _ M0) as [-> [-> _]]; clear M0.
  destruct (seq_shape _ _ _ _ _ _ _ M') as [c3a [g3a [M3 M]]]; clear M'.
  destruct (matches_reaches _ _ _ _ _ _ M3) as [kwF RF].
  destruct (lit_shape IC_DOTALL eq_refl "FROM" _ _ _ _ eq_refl M3)
    as [kwF' [_ [_ ->]]]; clear M3.
  destruct (seq_shape _ _ _ _ _ _ _ M) as [c3b [g3b [M0 M']]]; clear M.
  destruct (wordb_shape _ _ _ _ _ M0) as [-> [-> _]]; clear M0.
  destruct (seq_shape _ _ _ _ _ _ _ M') as [c3 [g3 [M3 M]]]; clear M'.
  destruct (rep_shape _ _ _ _ _ _ _ _ M3) as [ws [Rws [_ [_ ->]]]];
    clear M3.
  destruct (seq_shape _ _ _ _ _ _ _ M) as [c4 [g4 [M4 M']]]; clear M.
  destruct (group_shape _ _ _ _ _ _ _ M4) as [g4' [M4' ->]]; clear M4.
  destruct (alt_lit_shape IC_DOTALL eq_refl "MARC" "MARD" _ _ _ _
              eq_refl eq_refl M4') as [tb [Rtb [Utb ->]]]; clear M4'.
  destruct (seq_shape _ _ _ _ _ _ _ M') as [c4' [g4' [M0 M]]]; clear M'.
  destruct (wordb_shape _ _ _ _ _ M0) as [-> [-> _]]; clear M0.
  destruct (seq_shape _ _ _ _ _ _ _ M) as [c5 [g5 [M5 M']]]; clear M.
  destruct (group_shape _ _ _ _ _ _ _ M5) as [g5' [M5' ->]]; clear M5.
  destruct (rep_shape _ _ _ _ _ _ _ _ M5') as [rest_ [Rrest [_ [_ ->]]]];
    clear M5'.
  assert (Hlook : c' = c5 /\
                  g' = set_group "rest" (pos c4, pos c5)
                         (set_group "table" (pos c3, pos c4)
                            (set_group "select_part" (pos c1, pos c2) g))).
  { inversion M' as [| | | | | | | | r0 c0 g0 c0' g0' Min]; subst.
    split; [reflexivity | ].
    inversion Min; subst; inv_matches; reflexivity. }
  destruct Hlook as [-> ->].
  exists c1, c2, c3, c4, (((kw ++ sel) ++ kwF) ++ ws), tb.
  pose proof (reaches_pos _ _ _ Rkw) as P1.
  pose proof (reaches_pos _ _ _ Rsel) as P2.
  pose proof (reaches_pos _ _ _ RF) as P3.
  pose proof (reaches_pos _ _ _ Rws) as P3'.
  pose proof (reaches_pos _ _ _ Rtb) as P4.
  pose proof (reaches_pos _ _ _ Rrest) as P5.
  pose proof (upper_length _ _ Ukw) as Lk. cbn in Lk.
  assert (Rpre : reaches c (((kw ++ sel) ++ kwF) ++ ws) c3)
    by (repeat (eapply reaches_trans; [ | eassumption]); eassumption).
  repeat match goal with |- _ /\ _ => split end;
    try reflexivity; try assumption; lia.
Qed.

Lemma zone_hits_located (s : text) (m : rmatch) (n : string) (i j : nat)
    (f : finding) :
  get_group n (m_groups m) = Some (i, j) -> i <= j ->
  In f (qualified_hits (group s m n)) ->
  i + snd (fspan f) <= j /\ locates_reference s i f.
Proof.
  intros Hg Hij Hf. unfold group in Hf. rewrite Hg in Hf.
  destruct (qualified_hits_span _ _ Hf) as [fm [Hfm [Hsp _]]].
  pose proof (finditer_bounds _ _ _ _ Hfm) as Hb.
  pose proof (slice_length_le i j s) as Hl.
  assert (Hfit : i + snd (fspan f) <= j)
    by (rewrite Hsp; cbn [span snd]; lia).
  split; [exact Hfit | ].
  destruct (qualified_hits_locate _ _ Hf) as [t [Ht Hu]].
  exists t. split; [exact Ht | ].
  rewrite <- Hu. cbn [Nat.add]. now rewrite slice_slice.
Qed.

(** X6. A finding of [scan_sql] either carries the span of its whole
    statement, or it is a qualified reference found in the selection list
    or in the rest of a statement; then its span counts from the start of
    that part, which lies at least six characters into the text: the
    reference TABLE-FIELD stands in the text at the span moved by the
    start offset of the part, and it ends inside the part. *)
Theorem qualified_sql_span_counts_from_part (code : string) (f : finding) :
  In f (scan_sql code) ->
  exists m, In m (finditer IC_DOTALL SQL_STMT_RE (of_string code)) /\
    (fspan f = span m \/
     exists n i j,
       (n = "select_part" \/ n = "rest")%string /\
       get_group n (m_groups m) = Some (i, j) /\
       m_start m + 6 <= i /\ j <= m_end m /\
       i + snd (fspan f) <= j /\
       locates_reference (of_string code) i f).
Proof.
  intros H. unfold scan_sql in H. apply in_flat_map in H.
  destruct H as [m [Hm Hf]]. exists m. split; [exact Hm | ].
  destruct (finditer_In _ _ _ _ Hm) as [c [c' [_ [Hp [Hp' M]]]]].
  destruct (sql_stmt_shape _ _ _ _ M)
    as [c1 [c2 [c3 [c4 [pre [tb [P1 [P2 [P3 [P4 [P5 [_ [_ [_ Hg]]]]]]]]]]]]]].
  destruct (scan_stmt_span _ _ _ Hf) as [Hs | [Hz | Hz]].
  - now left.
  - right. exists "select_part"%string, (pos c1), (pos c2).
    assert (G : get_group "select_part" (m_groups m) = Some (pos c1, pos c2))
      by (rewrite Hg; reflexivity).
    destruct (zone_hits_located _ _ _ _ _ _ G P2 Hz) as [Hfit Hloc].
    repeat match goal with |- _ /\ _ => split end; auto; lia.
  - right. exists "rest"%string, (pos c4), (pos c').
    assert (G : get_group "rest" (m_groups m) = Some (pos c4, pos c'))
      by (rewrite Hg; reflexivity).
    destruct (zone_hits_located _ _ _ _ _ _ G P5 Hz) as [Hfit Hloc].
    repeat match goal with |- _ /\ _ => split end; auto; lia.
Qed.

Lemma qualified_sql_span_counts_from_part_witness :
  In (Finding (Some "MARC") "MEGRU" (1, 11) (note_for "MARC" "MEGRU"))
     (scan_sql "SELECT MARC-MEGRU FROM MARC.") /\
  exists m,
    In m (finditer IC_DOTALL SQL_STMT_RE
            (of_string "SELECT MARC-MEGRU FROM MARC.")) /\
    ((1, 11) = span m \/
     exists n i j,
       (n = "select_part" \/ n = "rest")%string /\
       get_group n (m_groups m) = Some (i, j) /\
       m_start m + 6 <= i /\ j <= m_end m /\
       i + 11 <= j /\
       locates_reference (of_string "SELECT MARC-MEGRU FROM MARC.") i
         (Finding (Some "MARC") "MEGRU" (1, 11) (note_for "MARC" "MEGRU"))).
Proof.
  split.
  - vm_compute. left. reflexivity.
  - apply (qualified_sql_span_counts_from_part
             "SELECT MARC-MEGRU FROM MARC."
             (Finding (Some "MARC") "MEGRU" (1, 11)
                (note_for "MARC" "MEGRU"))).
    vm_compute. left. reflexivity.
Defined.

(** ** The source table of a statement match *)

Lemma stmt_table_watched (s : text) (m : rmatch) :
  In m (finditer IC_DOTALL SQL_STMT_RE s) ->
  upper (group s m "table") = of_string "MARC" \/
  upper (group s m "table") = of_string "MARD".
Proof.
  intros Hm.
  destruct (finditer_In _ _ _ _ Hm) as [c [c' [Hs [_ [_ M]]]]].
  destruct (sql_stmt_shape _ _ _ _ M)
    as [c1 [c2 [c3 [c4 [pre [tb [_ [_ [_ [_ [_ [R1 [R2 [U Hg]]]]]]]]]]]]]].
  assert (S3 : subject c3 = s) by (now rewrite (reaches_subject _ _ _ R1)).
  assert (G : group s m "table" = tb).
  { apply (group_slice s m "table" c3 c4 tb); auto.
    rewrite Hg. reflexivity. }
  now rewrite G.
Qed.

(** C3, as amended. A text in which no word FROM is followed by white space
    and the name of a watched table gives [scan_sql] nothing to report,
    whatever else it contains; and every finding of [scan_sql] comes from
    a statement match whose captured source table is MARC or MARD. *)
Theorem scan_sql_unwatched_source :
  (forall code : string,
     no_watched_source code = true -> scan_sql code = []) /\
  (forall (code : string) (f : finding),
     In f (scan_sql code) ->
     exists m,
       In m (finditer IC_DOTALL SQL_STMT_RE (of_string code)) /\
       In f (scan_stmt (of_string code) m) /\
       (upper (group (of_string code) m "table") = of_string "MARC" \/
        upper (group (of_string code) m "table") = of_string "MARD")).
Proof.
  split.
  - intros code H. unfold scan_sql. now rewrite (sql_stmt_no_match _ H).
  - intros code f H. unfold scan_sql in H. apply in_flat_map in H.
    destruct H as [m [Hm Hf]]. exists m.
    split; [exact Hm | split; [exact Hf | ]].
    exact (stmt_table_watched _ _ Hm).
Qed.

Lemma scan_sql_unwatched_source_witness :
  (let code := "SELECT MEGRU FROM ZTAB WHERE MARC-MEGRU = 1." in
   occurs (of_string "MARC-") (of_string code) = true /\
   no_watched_source code = true /\ scan_sql code = []) /\
  exists m,
    In m (finditer IC_DOTALL SQL_STMT_RE
            (of_string "SELECT lsobs FROM mard.")) /\
    In (Finding (Some "MARD") "LSOBS" (0, 23) (note_for "MARD" "LSOBS"))
       (scan_stmt (of_string "SELECT lsobs FROM mard.") m) /\
    (upper (group (of_string "SELECT lsobs FROM mard.") m "table")
     = of_string "MARC" \/
     upper (group (of_string "SELECT lsobs FROM mard.") m "table")
     = of_string "MARD").
Proof.
  split.
  - split; [reflexivity | split; [reflexivity | ]].
    apply (proj1 scan_sql_unwatched_source
             "SELECT MEGRU FROM ZTAB WHERE MARC-MEGRU = 1.").
    vm_compute. reflexivity.
  - apply (proj2 scan_sql_unwatched_source "SELECT lsobs FROM mard."
             (Finding (Some "MARD") "LSOBS" (0, 23)
                (note_for "MARD" "LSOBS"))).
    vm_compute. left. reflexivity.
Defined.

(** ** What the text must hold for a finding *)

Lemma occurs_here (n s t : text) :
  prefix_ci (upper n) s = Some t -> occurs n s = true.
Proof. intros H. destruct s; cbn [occurs]; now rewrite H. Qed.

Lemma occurs_intro (n pre w t : text) :
  upper w = upper n -> occurs n (pre ++ w ++ t) = true.
Proof.
  intros Hw. induction pre as [| a pre IH].
  - exact (occurs_here n _ t (prefix_ci_app _ w t Hw)).
  - cbn [app occurs]. rewrite IH. now destruct (prefix_ci _ _).
Qed.

Lemma occurs_at (n : text) (c c1 c2 : cursor) (pre w : text) :
  reaches c pre c1 -> reaches c1 w c2 -> upper w = upper n ->
  occurs n (subject c) = true.
Proof.
  intros [Ha _] [Ha1 _] Hw. unfold subject. rewrite Ha, Ha1, app_assoc.
  now apply occurs_intro.
Qed.

(** X7. Without the letters SELECT somewhere in the text, in any letter
    case, [scan_sql] reports nothing. *)
Theorem scan_sql_needs_select (code : string) :
  occurs (of_string "SELECT") (of_string code) = false ->
  scan_sql code = [].
Proof.
  intros H. unfold scan_sql.
  destruct (finditer IC_DOTALL SQL_STMT_RE (of_string code)) as [| m l] eqn:E;
    [reflexivity | exfalso].
  assert (Hm : In m (finditer IC_DOTALL SQL_STMT_RE (of_string code)))
    by (rewrite E; now left).
  destruct (finditer_In _ _ _ _ Hm) as [c [c' [Hs [_ [_ M]]]]].
  pose proof (sql_stmt_starts_with_select _ _ _ _ M) as Hk.
  unfold select_keyword_at in Hk. apply andb_true_iff in Hk.
  destruct Hk as [_ Hk].
  destruct (prefix_ci (of_string "SELECT") (ahead c)) as [t |] eqn:Ep;
    [ | discriminate Hk].
  destruct (prefix_ci_inv _ _ _ Ep) as [w [Ha Hw]].
  rewrite <- Hs in H. unfold subject in H. rewrite Ha in H.
  now rewrite (occurs_intro (of_string "SELECT") _ w t Hw) in H.
Qed.

Lemma scan_sql_needs_select_witness :
  scan_sql "DATA lv_x TYPE MARC-MEGRU. MODIFY marc FROM ls_marc." = [].
Proof.
  apply (scan_sql_needs_select
           "DATA lv_x TYPE MARC-MEGRU. MODIFY marc FROM ls_marc.").
  vm_compute. reflexivity.
Defined.



(** X9. In a text that nowhere holds the letters MARC or MARD, in any
    letter case, [scan_sql] reports nothing and [scan_declarations] reports
    data-element findings only: none of its findings carries a table. *)
Theorem unmentioned_tables_no_table_finding (code : string) :
  occurs (of_string "MARC") (of_string code) = false ->
  occurs (of_string "MARD") (of_string code) = false ->
  scan_sql code = [] /\
  forall f, In f (scan_declarations code) -> table f = None.
Proof.
  intros HC HD.
  assert (Hno : forall c c1 c2 pre tb,
            subject c = of_string code ->
            reaches c pre c1 -> reaches c1 tb c2 ->
            upper tb = of_string "MARC" \/ upper tb = of_string "MARD" ->
            False).
  { intros c c1 c2 pre tb Hs R1 R2 [U | U].
    - rewrite <- Hs in HC.
      now rewrite (occurs_at (of_string "MARC") c c1 c2 pre tb R1 R2 U) in HC.
    - rewrite <- Hs in HD.
      now rewrite (occurs_at (of_string "MARD") c c1 c2 pre tb R1 R2 U) in HD. }
  split.
  - unfold scan_sql.
    destruct (finditer IC_DOTALL SQL_STMT_RE (of_string code))
      as [| m l] eqn:E; [reflexivity | exfalso].
    assert (Hm : In m (finditer IC_DOTALL SQL_STMT_RE (of_string code)))
      by (rewrite E; now left).
    destruct (finditer_In _ _ _ _ Hm) as [c [c' [Hs [_ [_ M]]]]].
    destruct (sql_stmt_shape _ _ _ _ M)
      as [c1 [c2 [c3 [c4 [pre [tb [_ [_ [_ [_ [_ [R1 [R2 [U _]]]]]]]]]]]]]].
    exact (Hno c c3 c4 pre tb Hs R1 R2 U).
  - intros f Hf. unfold scan_declarations in Hf.
    rewrite in_app_iff, !in_flat_map in Hf.
    destruct Hf as [[fm [Hfm Hf]] | [fm [_ Hf]]].
    + exfalso.
      destruct (finditer_In _ _ _ _ Hfm) as [c [c' [Hs [_ [_ M]]]]].
      destruct (decl_qual_shape _ _ _ _ M)
        as [c1 [c2 [c3 [c4 [kw [ws [tb [fl
             [Rkw [Rws [Rtb [_ [_ [_ [_ [_ [_ [Utb _]]]]]]]]]]]]]]]]]].
      exact (Hno c c2 c3 (kw ++ ws) tb Hs
               (reaches_trans _ _ _ _ _ Rkw Rws) Rtb Utb).
    + unfold decl_de_hit in Hf. destruct (mem _ _); [ | contradiction].
      destruct Hf as [<- | []]. reflexivity.
Qed.

Lemma unmentioned_tables_no_table_finding_witness :
  scan_sql "DATA lv_y TYPE ALTSL." = [] /\
  forall f, In f (scan_declarations "DATA lv_y TYPE ALTSL.") -> table f = None.
Proof.
  apply (unmentioned_tables_no_table_finding "DATA lv_y TYPE ALTSL.");
    vm_compute; reflexivity.
Defined.

(** ** Upper case beyond U+007F *)

Lemma upper_points_plain (a : ascii) (c : nat) (r : list nat) :
  upper_points a = c :: r -> c < 128 ->
  (r = [] /\ code_of a < 128 /\ code_of (upper_char a) = c) \/
  (code_of a = 223 /\ c = 83 /\ r = [83]).
Proof.
  destruct a as [[] [] [] [] [] [] [] []]; vm_compute; intros [= <- <-] H;
    first [ lia
          | left; repeat split; solve [reflexivity | lia]
          | right; repeat split; reflexivity ].
Qed.

Lemma upper_points_low (a : ascii) :
  code_of (upper_char a) < 128 ->
  upper_points a = [code_of (upper_char a)].
Proof.
  destruct a as [[] [] [] [] [] [] [] []]; vm_compute; intros H;
    solve [reflexivity | lia].
Qed.

Lemma code_of_inj (a b : ascii) : code_of a = code_of b -> a = b.
Proof.
  unfold code_of. intros H.
  rewrite <- (ascii_nat_embedding a), <- (ascii_nat_embedding b).
  now rewrite H.
Qed.

Lemma str_upper_plain (nm : text) :
  plain_name nm = true ->
  forall t, str_upper t = points nm <-> upper t = nm.
Proof.
  induction nm as [| x nm IH]; intros Hp t.
  - split.
    + destruct t as [| a t]; [reflexivity | ]. cbn [str_upper flat_map].
      destruct a as [[] [] [] [] [] [] [] []]; discriminate.
    + destruct t; [reflexivity | discriminate].
  - cbn [plain_name] in Hp. apply andb_true_iff in Hp.
    destruct Hp as [Hp Hnm]. apply andb_true_iff in Hp.
    destruct Hp as [Hx Hss]. apply Nat.ltb_lt in Hx.
    destruct t as [| a t]; [split; discriminate | ].
    cbn [str_upper flat_map points map upper]. fold (str_upper t).
    fold (points nm) (upper t). split.
    + intros E.
      destruct (upper_points a) as [| c r] eqn:Ea; [ | ].
      { destruct a as [[] [] [] [] [] [] [] []]; discriminate Ea. }
      cbn [app] in E. injection E as Ec E.
      destruct (upper_points_plain a c r Ea ltac:(lia))
        as [[-> [_ Hc]] | [Ha [Hc ->]]].
      * cbn [app] in E. f_equal.
        -- apply code_of_inj. lia.
        -- now apply IH.
      * exfalso. destruct nm as [| y nm]; [discriminate E | ].
        cbn [app points map] in E. injection E as Ey _.
        assert (x = "S"%char) as ->
          by (apply code_of_inj; change (code_of "S") with 83; lia).
        assert (y = "S"%char) as ->
          by (apply code_of_inj; change (code_of "S") with 83; lia).
        discriminate Hss.
    + intros [= Ea Et].
      rewrite (upper_points_low a) by (rewrite Ea; exact Hx).
      cbn [app]. rewrite Ea. f_equal. now apply IH.
Qed.

(** [str.upper] and [upper] find the same names: the upper case of a text
    is a table name or a field name of the registry by the one exactly
    when it is by the other. *)
Lemma upper_agrees_at_registry (t : text) (n : string) :
  In n (WATCHED_TABLES ++ OBSOLETE_FIELDNAMES) ->
  (str_upper t = points (of_string n) <-> to_string (upper t) = n).
Proof.
  intros Hn.
  assert (Hp : plain_name (of_string n) = true).
  { vm_compute in Hn.
    repeat (destruct Hn as [<- | Hn]; [reflexivity | ]). destruct Hn. }
  rewrite (str_upper_plain _ Hp t). split.
  - intros ->. apply string_of_list_ascii_of_string.
  - intros <-. symmetry. apply of_to_string.
Qed.
